(** * SimuladorBuracoNegro: a shallow embedding of the relativistic ray tracer

    The C++ sources (constantes.hpp, schwarzschild.hpp, integrador.hpp,
    disco_acrecao.hpp, ray_tracer.hpp) are embedded class by class, one
    module per class.  A C++ [double] is read as a real number: every
    arithmetic operation is the exact one of [R], comparisons are the
    decidable comparisons of [R], and [std::sqrt], [std::sin], [std::cos],
    [std::tan], [std::log] are [sqrt], [sin], [cos], [tan], [ln].  Rounding
    is modelled where it decides a discrete result: the product converted to
    a byte by [Pixel::r_byte] and the affine parameter accumulated by
    [IntegradorGeodesico::integrar] are rounded to the nearest binary64 number
    by [arredonda_double].  Elsewhere rounding is left out, and so are
    infinities and NaN: a statement that divides holds where the divisor is
    not zero, and its hypotheses say so.  A C++ [int] is an integer of [Z]; a
    [std::array<double, 8>] and a [std::vector] are lists. *)

From Stdlib Require Import Reals Lra Lia ZArith List Zfloor Bool.
From Stdlib Require Import String Ascii DecimalString Permutation FinFun.
Import ListNotations.

Local Open Scope R_scope.

(** ** constantes.hpp *)

Module Constantes.

Definition VELOCIDADE_LUZ : R := 299792458.0.
Definition C : R := VELOCIDADE_LUZ.
Definition C2 : R := C * C.

Definition CONSTANTE_GRAVITACIONAL : R := 6.67430e-11.
Definition G : R := CONSTANTE_GRAVITACIONAL.

Definition CONSTANTE_PLANCK : R := 6.62607015e-34.
Definition H_PLANCK : R := CONSTANTE_PLANCK.

Definition CONSTANTE_BOLTZMANN : R := 1.380649e-23.
Definition K_BOLTZMANN : R := CONSTANTE_BOLTZMANN.

Definition MASSA_SOL : R := 1.98892e30.

Definition M_PI : R := PI.

Definition H_BARRA : R := H_PLANCK / (2.0 * M_PI).

Definition STEFAN_BOLTZMANN : R := 5.670374419e-8.

Definition FATOR_RAIO_SCHWARZSCHILD : R := 2.0 * G * MASSA_SOL / C2.

End Constantes.

Import Constantes.

(** ** <cmath> helpers *)

(** [std::max] and [std::min] on doubles: [max a b] is [(a < b) ? b : a] and
    [min a b] is [(b < a) ? b : a]. *)
Definition std_max (a b : R) : R := if Rlt_dec a b then b else a.
Definition std_min (a b : R) : R := if Rlt_dec b a then b else a.

(** [std::pow(x, y)] on its real-valued domain: the exponential of
    [y * ln x] for a positive base, the integer power for a negative base
    and an integral exponent, and [0] or [1] for a zero base with a positive
    or zero exponent.  The remaining cases (IEEE infinity or NaN) have no
    real value and are given [0] here. *)
Definition std_pow (x y : R) : R :=
  if Rlt_dec 0 x then Rpower x y
  else if Req_dec_T x 0 then
    (if Rlt_dec 0 y then 0 else if Req_dec_T y 0 then 1 else 0)
  else
    (if Req_dec_T (IZR (Zfloor y)) y then powerRZ x (Zfloor y) else 0).

(** [std::fmod(x, y)]: [x] minus [y] times the quotient truncated towards
    zero. *)
Definition Rtrunc (x : R) : Z :=
  if Rle_dec 0 x then Zfloor x else Zceil x.

Definition std_fmod (x y : R) : R := x - IZR (Rtrunc (x / y)) * y.

(** ** IEEE 754 binary64 rounding

    The doubles are the numbers [m * 2^(e - 52)] with [m] an integer below
    [2^53] in magnitude and [e >= -1022]; an arithmetic operation returns the
    double nearest to its exact result, the one with an even [m] on a tie.
    Results of magnitude [2^1024] or more, which the hardware turns into an
    infinity, are outside the model. *)

(** [e] with [2^e <= |x| < 2^(e+1)]. *)
Definition expoente (x : R) : Z := Zfloor (ln (Rabs x) / ln 2).

(** The spacing of the doubles around [x]; below [2^(-1022)] it is that of
    the subnormal numbers. *)
Definition ulp (x : R) : R := powerRZ 2 (Z.max (expoente x) (-1022) - 52).

(** The nearest integer, the even one on a tie. *)
Definition inteiro_mais_proximo (q : R) : Z :=
  let n := Zfloor q in
  if Rlt_dec (q - IZR n) (/ 2) then n
  else if Rlt_dec (/ 2) (q - IZR n) then (n + 1)%Z
  else if Z.even n then n else (n + 1)%Z.

Definition arredonda_double (x : R) : R :=
  if Req_dec_T x 0 then 0
  else IZR (inteiro_mais_proximo (x / ulp x)) * ulp x.

(** [inteiro_mais_proximo] of the quotient [a / b] of two integers, [b > 0],
    computed on the integers. *)
Definition quociente_mais_proximo (a b : Z) : Z :=
  let n := (a / b)%Z in
  let r := (a mod b)%Z in
  if (2 * r <? b)%Z then n
  else if (b <? 2 * r)%Z then (n + 1)%Z
  else if Z.even n then n else (n + 1)%Z.

(** ** Comparisons as C++ [bool] expressions *)

Definition Rltb (a b : R) : bool := if Rlt_dec a b then true else false.
Definition Rleb (a b : R) : bool := if Rle_dec a b then true else false.
Definition Rgtb (a b : R) : bool := Rltb b a.
Definition Rgeb (a b : R) : bool := Rleb b a.

(** [std::cbrt]: the real cube root, odd in its argument. *)
Definition std_cbrt (x : R) : R :=
  if Rlt_dec 0 x then Rpower x (/ 3)
  else if Req_dec_T x 0 then 0
  else - Rpower (- x) (/ 3).

(** ** constantes.hpp, the inline functions of the namespace *)

Module BuracoNegro.

Definition raio_schwarzschild (massa_kg : R) : R := 2.0 * G * massa_kg / C2.

Definition raio_schwarzschild_solar (massa_solar : R) : R :=
  FATOR_RAIO_SCHWARZSCHILD * massa_solar.

Definition temperatura_hawking (massa_kg : R) : R :=
  H_BARRA * C * C * C / (8.0 * M_PI * G * massa_kg * K_BOLTZMANN).

Definition luminosidade_hawking (massa_kg : R) : R :=
  H_BARRA * std_pow C 6
  / (15360.0 * M_PI * G * G * massa_kg * massa_kg).

Definition tempo_evaporacao (massa_kg : R) : R :=
  5120.0 * M_PI * G * G * std_pow massa_kg 3 / (H_BARRA * std_pow C 4).

Definition entropia_bekenstein_hawking (massa_kg : R) : R :=
  let rs := raio_schwarzschild massa_kg in
  let area := 4.0 * M_PI * rs * rs in
  K_BOLTZMANN * C * C * C * area / (4.0 * G * H_BARRA).

Definition raio_kerr (massa_kg parametro_spin : R) : R :=
  let M := G * massa_kg / C2 in
  let a := parametro_spin * M in
  M + sqrt (M * M - a * a).

Definition raio_ergosfera (massa_kg parametro_spin : R) : R :=
  let M := G * massa_kg / C2 in
  let a := parametro_spin * M in
  M + sqrt (M * M - a * a).

Definition raio_isco_schwarzschild (massa_kg : R) : R :=
  3.0 * raio_schwarzschild massa_kg.

Definition raio_esfera_fotons (massa_kg : R) : R :=
  1.5 * raio_schwarzschild massa_kg.

Definition gravidade_superficial (massa_kg : R) : R :=
  let rs := raio_schwarzschild massa_kg in
  C2 / (2.0 * rs).

End BuracoNegro.

(** ** schwarzschild.hpp *)

Record Coordenadas := mkCoordenadas {
  pos_t : R; pos_r : R; pos_theta : R; pos_phi : R
}.

Record Quadrivelocidade := mkQuadrivelocidade {
  vel_u_t : R; vel_u_r : R; vel_u_theta : R; vel_u_phi : R
}.

Module MetricaSchwarzschild.

Record t := mk {
  M_ : R;          (* geometric mass GM/c^2 *)
  rs_ : R;         (* Schwarzschild radius *)
  massa_kg_ : R    (* mass in kilograms *)
}.

(** The constructor [MetricaSchwarzschild(double massa_solar)]. *)
Definition novo (massa_solar : R) : t :=
  let massa_kg := massa_solar * MASSA_SOL in
  let M := G * massa_kg / C2 in
  {| M_ := M; rs_ := 2.0 * M; massa_kg_ := massa_kg |}.

Section Metodos.
Variable m : t.

Definition g_tt (r : R) : R :=
  if Rle_dec r (rs_ m) then 0.0 else - (1.0 - rs_ m / r).

Definition g_rr (r : R) : R :=
  if Rle_dec r (rs_ m) then 1e10 else 1.0 / (1.0 - rs_ m / r).

Definition g_theta_theta (r : R) : R := r * r.

Definition g_phi_phi (r theta : R) : R := r * r * sin theta * sin theta.

Definition christoffel_t_tr (r : R) : R :=
  if Rle_dec r (rs_ m) then 0.0 else rs_ m / (2.0 * r * (r - rs_ m)).

Definition christoffel_r_tt (r : R) : R :=
  if Rle_dec r (rs_ m) then 0.0
  else rs_ m * (r - rs_ m) / (2.0 * r * r * r).

Definition christoffel_r_rr (r : R) : R :=
  if Rle_dec r (rs_ m) then 0.0 else - rs_ m / (2.0 * r * (r - rs_ m)).

Definition christoffel_r_theta_theta (r : R) : R := - (r - rs_ m).

Definition christoffel_r_phi_phi (r theta : R) : R :=
  let s := sin theta in - (r - rs_ m) * s * s.

Definition christoffel_theta_r_theta (r : R) : R := 1.0 / r.

Definition christoffel_theta_phi_phi (theta : R) : R :=
  - sin theta * cos theta.

Definition christoffel_phi_r_phi (r : R) : R := 1.0 / r.

Definition christoffel_phi_theta_phi (theta : R) : R := 1.0 / tan theta.

(** [derivadas_geodesica]: the eight entries [derivs[0..7]]. *)
Definition derivadas_geodesica (pos : Coordenadas) (vel : Quadrivelocidade)
  : list R :=
  let r := pos_r pos in
  let theta := pos_theta pos in
  [ vel_u_t vel;
    vel_u_r vel;
    vel_u_theta vel;
    vel_u_phi vel;
    - 2.0 * christoffel_t_tr r * vel_u_t vel * vel_u_r vel;
    - christoffel_r_tt r * vel_u_t vel * vel_u_t vel
      - christoffel_r_rr r * vel_u_r vel * vel_u_r vel
      - christoffel_r_theta_theta r * vel_u_theta vel * vel_u_theta vel
      - christoffel_r_phi_phi r theta * vel_u_phi vel * vel_u_phi vel;
    - 2.0 * christoffel_theta_r_theta r * vel_u_r vel * vel_u_theta vel
      - christoffel_theta_phi_phi theta * vel_u_phi vel * vel_u_phi vel;
    - 2.0 * christoffel_phi_r_phi r * vel_u_r vel * vel_u_phi vel
      - 2.0 * christoffel_phi_theta_phi theta
        * vel_u_theta vel * vel_u_phi vel ].

Definition raio_schwarzschild : R := rs_ m.
Definition raio_isco : R := 3.0 * rs_ m.

Definition energia_especifica (r u_t : R) : R := (1.0 - rs_ m / r) * u_t.

Definition momento_angular (r theta u_phi : R) : R :=
  let s := sin theta in r * r * s * s * u_phi.

Definition potencial_efetivo (r L : R) (massiva : bool) : R :=
  let L2 := L * L in
  if massiva then (1.0 - rs_ m / r) * (1.0 + L2 / (r * r))
  else (1.0 - rs_ m / r) * L2 / (r * r).

Definition massa_geometrica : R := M_ m.
Definition massa_kg : R := massa_kg_ m.

Definition raio_esfera_fotons : R := 1.5 * rs_ m.

Definition temperatura_hawking : R :=
  BuracoNegro.temperatura_hawking (massa_kg_ m).

Definition entropia : R :=
  BuracoNegro.entropia_bekenstein_hawking (massa_kg_ m).

Definition dilatacao_temporal (r : R) : R :=
  if Rle_dec r (rs_ m) then 0.0 else sqrt (1.0 - rs_ m / r).

Definition redshift (r_emissor r_observador : R) : R :=
  dilatacao_temporal r_observador / dilatacao_temporal r_emissor - 1.0.

Definition velocidade_escape (r : R) : R :=
  if Rle_dec r (rs_ m) then C else C * sqrt (rs_ m / r).

Definition kretschmann (r : R) : R := 48.0 * M_ m * M_ m / std_pow r 6.

Definition ricci_scalar : R := 0.0.

End Metodos.

End MetricaSchwarzschild.

(** ** kerr.hpp *)

Module MetricaKerr.

Record t := mk {
  M_ : R;          (* mass, geometric units *)
  a_ : R;          (* spin parameter a = J/(Mc) *)
  massa_kg_ : R;
  spin_ : R        (* dimensionless a/M *)
}.

(** The constructor [MetricaKerr(massa_solar, spin)]. *)
Definition novo (massa_solar spin : R) : t :=
  let massa_kg := massa_solar * MASSA_SOL in
  let M := G * massa_kg / C2 in
  let spin' := std_max (-0.998) (std_min 0.998 spin) in
  {| M_ := M; a_ := spin' * M; massa_kg_ := massa_kg; spin_ := spin' |}.

Section Metodos.
Variable k : t.

Definition Sigma (r theta : R) : R :=
  r * r + a_ k * a_ k * cos theta * cos theta.

Definition Delta (r : R) : R := r * r - 2.0 * M_ k * r + a_ k * a_ k.

Definition g_tt (r theta : R) : R :=
  let sigma := Sigma r theta in
  - (1.0 - 2.0 * M_ k * r / sigma).

Definition g_t_phi (r theta : R) : R :=
  let sigma := Sigma r theta in
  let s := sin theta in
  - 2.0 * M_ k * a_ k * r * s * s / sigma.

(** The guard [std::abs(delta) < 1e-10] is decided here on the exact value
    of [Delta]; the program decides it on the computed one, which at
    radii of kilometres is known only to about [1e-7]. *)
Definition g_rr (r theta : R) : R :=
  let sigma := Sigma r theta in
  let delta := Delta r in
  if Rltb (Rabs delta) 1e-10 then 1e10 else sigma / delta.

Definition g_theta_theta (r theta : R) : R := Sigma r theta.

Definition g_phi_phi (r theta : R) : R :=
  let sigma := Sigma r theta in
  let s := sin theta in
  (r * r + a_ k * a_ k + 2.0 * M_ k * a_ k * a_ k * r * s * s / sigma) * s * s.

Definition horizonte_externo : R := M_ k + sqrt (M_ k * M_ k - a_ k * a_ k).

Definition horizonte_interno : R := M_ k - sqrt (M_ k * M_ k - a_ k * a_ k).

Definition ergosfera (theta : R) : R :=
  let c := cos theta in
  M_ k + sqrt (M_ k * M_ k - a_ k * a_ k * c * c).

Definition velocidade_angular_horizonte : R :=
  let rp := horizonte_externo in
  a_ k / (rp * rp + a_ k * a_ k).

Definition temperatura_hawking : R :=
  let rp := horizonte_externo in
  let rm := horizonte_interno in
  (rp - rm) / (4.0 * M_PI * (rp * rp + a_ k * a_ k)).

Definition entropia : R :=
  let rp := horizonte_externo in
  let area := 4.0 * M_PI * (rp * rp + a_ k * a_ k) in
  K_BOLTZMANN * C * C * C * area / (4.0 * G * H_BARRA).

Definition raio_isco (progrado : bool) : R :=
  let z1 :=
    1.0 + std_cbrt (1.0 - spin_ k * spin_ k)
          * (std_cbrt (1.0 + spin_ k) + std_cbrt (1.0 - spin_ k)) in
  let z2 := sqrt (3.0 * spin_ k * spin_ k + z1 * z1) in
  if progrado then
    M_ k * (3.0 + z2 - sqrt ((3.0 - z1) * (3.0 + z1 + 2.0 * z2)))
  else
    M_ k * (3.0 + z2 + sqrt ((3.0 - z1) * (3.0 + z1 + 2.0 * z2))).

Definition frame_dragging (r theta : R) : R :=
  let sigma := Sigma r theta in
  let A :=
    (r * r + a_ k * a_ k) * (r * r + a_ k * a_ k)
    - Delta r * a_ k * a_ k * sin theta * sin theta in
  2.0 * M_ k * a_ k * r / A.

Definition massa_geometrica : R := M_ k.
Definition parametro_spin : R := a_ k.
Definition spin_adimensional : R := spin_ k.
Definition massa_kg : R := massa_kg_ k.

End Metodos.

End MetricaKerr.

(** ** integrador.hpp *)

(** [arr[i]] on a [std::array<double, 8>]. *)
Definition idx (arr : list R) (i : nat) : R := nth i arr 0.

Module EstadoGeodesica.

Record estado := mk {
  t : R; r : R; theta : R; phi : R;
  u_t : R; u_r : R; u_theta : R; u_phi : R
}.

Definition como_array (e : estado) : list R :=
  [t e; r e; theta e; phi e; u_t e; u_r e; u_theta e; u_phi e].

Definition de_array (arr : list R) : estado :=
  mk (idx arr 0) (idx arr 1) (idx arr 2) (idx arr 3)
     (idx arr 4) (idx arr 5) (idx arr 6) (idx arr 7).

End EstadoGeodesica.

Record PontoTrajetoria := mkPonto {
  ponto_lambda : R;
  ponto_t : R; ponto_r : R; ponto_theta : R; ponto_phi : R;
  ponto_x : R; ponto_y : R; ponto_z : R
}.

(** [for (int i = 0; i < 8; i++) out[i] = body(i);] *)
Definition para_i_ate_8 (body : nat -> R) : list R := map body (seq 0 8).

Module IntegradorGeodesico.

Record t := mk {
  metrica_ : MetricaSchwarzschild.t;
  passo_ : R;
  r_min_ : R
}.

Definition novo (metrica : MetricaSchwarzschild.t) (passo : R) : t :=
  {| metrica_ := metrica;
     passo_ := passo;
     r_min_ := MetricaSchwarzschild.raio_schwarzschild metrica * 1.001 |}.

Definition set_passo (I : t) (p : R) : t :=
  {| metrica_ := metrica_ I; passo_ := p; r_min_ := r_min_ I |}.

Definition get_passo (I : t) : R := passo_ I.

(** The lambda [derivs] of [passo_rk4]. *)
Definition derivs (I : t) (y : list R) : list R :=
  let pos := mkCoordenadas (idx y 0) (idx y 1) (idx y 2) (idx y 3) in
  let vel := mkQuadrivelocidade (idx y 4) (idx y 5) (idx y 6) (idx y 7) in
  MetricaSchwarzschild.derivadas_geodesica (metrica_ I) pos vel.

Definition passo_rk4 (I : t) (estado : EstadoGeodesica.estado)
  : EstadoGeodesica.estado :=
  let arr := EstadoGeodesica.como_array estado in
  let k1 := derivs I arr in
  let y2 := para_i_ate_8 (fun i => idx arr i + 0.5 * passo_ I * idx k1 i) in
  let k2 := derivs I y2 in
  let y3 := para_i_ate_8 (fun i => idx arr i + 0.5 * passo_ I * idx k2 i) in
  let k3 := derivs I y3 in
  let y4 := para_i_ate_8 (fun i => idx arr i + passo_ I * idx k3 i) in
  let k4 := derivs I y4 in
  let novo :=
    para_i_ate_8 (fun i =>
      idx arr i
      + passo_ I * (idx k1 i + 2 * idx k2 i + 2 * idx k3 i + idx k4 i) / 6.0) in
  EstadoGeodesica.de_array novo.

(** [trajetoria.size() < max_pontos] compares a [size_t] with an [int]: the
    [int] is converted to [size_t] (64 bits here), so that a negative bound
    becomes a very large one. *)
Definition limite_de_pontos (max_pontos : Z) : Z :=
  if (max_pontos <? 0)%Z then (2 ^ 64 + max_pontos)%Z else max_pontos.

(** The body of the [while] loop of [integrar], for at most [voltas] turns;
    each turn that goes on appends one point.  [lambda += passo_] stores the
    double nearest to the sum, and the next turn compares that double with
    [lambda_max]. *)
Fixpoint integrar_laco (I : t) (voltas : nat) (lambda_max : R) (limite : Z)
  (trajetoria : list PontoTrajetoria) (estado : EstadoGeodesica.estado)
  (lambda : R) : list PontoTrajetoria :=
  match voltas with
  | O => trajetoria
  | S n =>
      if Rltb lambda lambda_max
         && (Z.of_nat (List.length trajetoria) <? limite)%Z
      then
        if Rltb (EstadoGeodesica.r estado) (r_min_ I) then trajetoria
        else
          let x :=
            EstadoGeodesica.r estado * sin (EstadoGeodesica.theta estado)
            * cos (EstadoGeodesica.phi estado) in
          let y :=
            EstadoGeodesica.r estado * sin (EstadoGeodesica.theta estado)
            * sin (EstadoGeodesica.phi estado) in
          let z :=
            EstadoGeodesica.r estado * cos (EstadoGeodesica.theta estado) in
          let trajetoria :=
            trajetoria
            ++ [mkPonto lambda (EstadoGeodesica.t estado)
                  (EstadoGeodesica.r estado) (EstadoGeodesica.theta estado)
                  (EstadoGeodesica.phi estado) x y z] in
          integrar_laco I n lambda_max limite trajetoria
            (passo_rk4 I estado) (arredonda_double (lambda + passo_ I))
      else trajetoria
  end.

Definition integrar (I : t) (inicial : EstadoGeodesica.estado)
  (lambda_max : R) (max_pontos : Z) : list PontoTrajetoria :=
  integrar_laco I (Z.to_nat (limite_de_pontos max_pontos)) lambda_max
    (limite_de_pontos max_pontos) [] inicial 0.0.

Definition foton_inicial (I : t) (r theta phi : R)
  (direcao_r direcao_theta direcao_phi : R) : EstadoGeodesica.estado :=
  let rs := MetricaSchwarzschild.raio_schwarzschild (metrica_ I) in
  let f := 1.0 - rs / r in
  let u_t := 1.0 / f in
  EstadoGeodesica.mk 0.0 r theta phi u_t direcao_r direcao_theta direcao_phi.

End IntegradorGeodesico.

(** ** disco_acrecao.hpp *)

Module CorRGB.

Record t := mk { r : R; g : R; b : R }.

(** [operator*(double s)] *)
Definition escala (c : t) (s : R) : t := mk (r c * s) (g c * s) (b c * s).

(** [operator+(const CorRGB&)] *)
Definition soma (c d : t) : t := mk (r c + r d) (g c + g d) (b c + b d).

Definition clamp (c : t) : t :=
  mk (std_max 0.0 (std_min 1.0 (r c)))
     (std_max 0.0 (std_min 1.0 (g c)))
     (std_max 0.0 (std_min 1.0 (b c))).

End CorRGB.

Record AnelDisco := mkAnel {
  anel_raio : R;
  anel_temperatura : R;
  anel_luminosidade : R;
  anel_velocidade_orbital : R;
  anel_fator_redshift : R
}.

Module DiscoAcrecao.

Record t := mk {
  massa_bh_ : R;        (* black-hole mass, kg *)
  taxa_acrecao_ : R;    (* accretion rate, kg/s *)
  raio_interno_ : R;    (* ISCO, m *)
  raio_externo_ : R;    (* outer edge, m *)
  spin_ : R
}.

Definition SIGMA_SB : R := 5.670374419e-8.

(** The constructor
    [DiscoAcrecao(massa_solar, taxa_acrecao_eddington, spin)]. *)
Definition novo (massa_solar taxa_acrecao_eddington spin : R) : t :=
  let massa_bh := massa_solar * MASSA_SOL in
  let spin' := std_max 0.0 (std_min 0.998 spin) in
  let rs := 2.0 * G * massa_bh / C2 in
  let raio_interno :=
    if Rlt_dec spin' 0.01 then 3.0 * rs
    else rs * (3.0 + spin' - sqrt ((3.0 - spin') * (1.0 + spin'))) in
  let raio_externo := 500.0 * rs in
  let luminosidade_eddington := 1.26e38 * massa_solar in
  let eficiencia := 0.1 in
  {| massa_bh_ := massa_bh;
     taxa_acrecao_ :=
       taxa_acrecao_eddington * luminosidade_eddington / (eficiencia * C2);
     raio_interno_ := raio_interno;
     raio_externo_ := raio_externo;
     spin_ := spin' |}.

Section Metodos.
Variable d : t.

Definition temperatura (raio : R) : R :=
  if Rltb raio (raio_interno_ d) || Rgtb raio (raio_externo_ d) then 0.0
  else
    let T_estrela :=
      std_pow (3.0 * G * massa_bh_ d * taxa_acrecao_ d
               / (8.0 * M_PI * SIGMA_SB * std_pow (raio_interno_ d) 3))
              0.25 in
    let x := raio / raio_interno_ d in
    let fator_radial := std_pow x (-0.75) in
    let fator_borda := std_pow (1.0 - sqrt (1.0 / x)) 0.25 in
    T_estrela * fator_radial * fator_borda.

Definition cor_corpo_negro (T : R) : CorRGB.t :=
  if Rleb T 0.0 then CorRGB.mk 0.0 0.0 0.0
  else
    let t := T / 100.0 in
    let r :=
      if Rleb t 66.0 then 1.0
      else 1.29293618606274 * std_pow (t - 60.0) (-0.1332047592) in
    let g :=
      if Rleb t 66.0 then 0.390081578769871 * ln t - 0.631841443788627
      else 1.12989086089529 * std_pow (t - 60.0) (-0.0755148492) in
    let b :=
      if Rgeb t 66.0 then 1.0
      else if Rleb t 19.0 then 0.0
      else 0.543206789110196 * ln (t - 10.0) - 1.19625408914 in
    CorRGB.clamp (CorRGB.mk r g b).

Definition fator_redshift (raio : R) : R :=
  let rs := 2.0 * G * massa_bh_ d / C2 in
  if Rleb raio rs then 0.0 else sqrt (1.0 - rs / raio).

Definition velocidade_kepleriana (raio : R) : R :=
  sqrt (G * massa_bh_ d / raio).

Definition fator_doppler (raio angulo_observador : R) : R :=
  let v := velocidade_kepleriana raio in
  let beta := v / C in
  let gamma := 1.0 / sqrt (1.0 - beta * beta) in
  let cos_phi := cos angulo_observador in
  1.0 / (gamma * (1.0 - beta * cos_phi)).

Definition intensidade_observada (raio angulo_obs : R) : CorRGB.t :=
  let T := temperatura raio in
  if Rleb T 0.0 then CorRGB.mk 0.0 0.0 0.0
  else
    let cor := cor_corpo_negro T in
    let D := fator_doppler raio angulo_obs in
    let z := fator_redshift raio in
    let fator_total := std_pow (D * z) 4 in
    CorRGB.escala cor fator_total.

Definition raio_interno : R := raio_interno_ d.
Definition raio_externo : R := raio_externo_ d.
Definition massa_bh : R := massa_bh_ d.
Definition taxa_acrecao : R := taxa_acrecao_ d.

Definition planck (frequencia T : R) : R :=
  if Rleb T 0.0 then 0.0
  else
    let x := H_PLANCK * frequencia / (K_BOLTZMANN * T) in
    if Rgtb x 700.0 then 0.0
    else (2.0 * H_PLANCK * std_pow frequencia 3 / C2) / (exp x - 1.0).

Definition anel (raio : R) : AnelDisco :=
  let temperatura_a := temperatura raio in
  mkAnel raio temperatura_a (SIGMA_SB * std_pow temperatura_a 4)
         (velocidade_kepleriana raio) (fator_redshift raio).

Definition luminosidade_total : R :=
  let rs := 2.0 * G * massa_bh_ d / C2 in
  let eta := 1.0 - sqrt (rs / raio_interno_ d) in
  eta * taxa_acrecao_ d * C2.

Definition temperatura_maxima : R :=
  let r_max := 1.361 * raio_interno_ d in
  temperatura r_max.

Definition no_disco (raio : R) : bool :=
  Rgeb raio (raio_interno_ d) && Rleb raio (raio_externo_ d).

End Metodos.

End DiscoAcrecao.

(** ** ray_tracer.hpp *)

Module Pixel.

Record t := mk { r : R; g : R; b : R }.

(** [Pixel()] *)
Definition padrao : t := mk 0 0 0.

Definition soma (p q : t) : t := mk (r p + r q) (g p + g q) (b p + b q).
Definition escala (p : t) (s : R) : t := mk (r p * s) (g p * s) (b p * s).

Definition clamp (p : t) : t :=
  mk (std_max 0.0 (std_min 1.0 (r p)))
     (std_max 0.0 (std_min 1.0 (g p)))
     (std_max 0.0 (std_min 1.0 (b p))).

(** [static_cast<uint8_t>(x)] discards the fractional part of [x]; C++
    defines it only when the truncated value fits in [0, 255]. *)
Definition uint8_de_double (x : R) : Z := Rtrunc x.

(** [r * 255]: the [int] is converted to [255.0] and the product is a
    double, the exact product rounded. *)
Definition r_byte (p : t) : Z := uint8_de_double (arredonda_double (r p * 255)).
Definition g_byte (p : t) : Z := uint8_de_double (arredonda_double (g p * 255)).
Definition b_byte (p : t) : Z := uint8_de_double (arredonda_double (b p * 255)).

End Pixel.

Module Camera.

Record t := mk {
  r_observador : R;
  theta_observador : R;
  fov_horizontal : R;
  fov_vertical : R;
  largura : Z;
  altura : Z
}.

(** The constructor with all its default arguments. *)
Definition padrao : t :=
  mk 100.0 (M_PI / 3.0) (M_PI / 4.0) (M_PI / 4.0) 800 600.

Definition com_r_observador (c : t) (x : R) : t :=
  mk x (theta_observador c) (fov_horizontal c) (fov_vertical c)
     (largura c) (altura c).

Definition com_theta_observador (c : t) (x : R) : t :=
  mk (r_observador c) x (fov_horizontal c) (fov_vertical c)
     (largura c) (altura c).

Definition com_resolucao (c : t) (w h : Z) : t :=
  mk (r_observador c) (theta_observador c) (fov_horizontal c)
     (fov_vertical c) w h.

End Camera.

Module ResultadoRaio.

Inductive Destino := HORIZONTE | DISCO | INFINITO | ERRO.

(** The three impact fields are left unassigned on some paths of
    [tracar_raio]; [None] stands for an unassigned field. *)
Record t := mk {
  destino : Destino;
  r_impacto : option R;
  phi_impacto : option R;
  theta_impacto : option R;
  passos : Z;
  cor : Pixel.t
}.

Definition com_destino (x : t) (d : Destino) : t :=
  mk d (r_impacto x) (phi_impacto x) (theta_impacto x) (passos x) (cor x).
Definition com_r_impacto (x : t) (v : R) : t :=
  mk (destino x) (Some v) (phi_impacto x) (theta_impacto x) (passos x) (cor x).
Definition com_phi_impacto (x : t) (v : R) : t :=
  mk (destino x) (r_impacto x) (Some v) (theta_impacto x) (passos x) (cor x).
Definition com_theta_impacto (x : t) (v : R) : t :=
  mk (destino x) (r_impacto x) (phi_impacto x) (Some v) (passos x) (cor x).
Definition com_passos (x : t) (n : Z) : t :=
  mk (destino x) (r_impacto x) (phi_impacto x) (theta_impacto x) n (cor x).
Definition com_cor (x : t) (c : Pixel.t) : t :=
  mk (destino x) (r_impacto x) (phi_impacto x) (theta_impacto x) (passos x) c.

End ResultadoRaio.

(** [for (int k = a; k < b; k++)]: the values taken by [k]. *)
Definition intervalo (a b : Z) : list Z :=
  map (fun k => (a + Z.of_nat k)%Z) (seq 0 (Z.to_nat (b - a))).

(** [for (double l = l0; continua(l); l += passo)
       if (teste(l)) { achou = true; break; }]
    run for at most [voltas] turns; the result is [achou]. *)
Fixpoint busca_linha (voltas : nat) (continua teste : R -> bool)
  (passo l : R) : bool :=
  match voltas with
  | O => false
  | S n =>
      if continua l then
        if teste l then true
        else busca_linha n continua teste passo (l + passo)
      else false
  end.

(** [l] after [k] increments of the loop variable. *)
Fixpoint avanca_l (k : nat) (passo l : R) : R :=
  match k with
  | O => l
  | S k' => avanca_l k' passo (l + passo)
  end.

(** [v[n] = f(v[n])] on a vector; nothing is stored out of range. *)
Fixpoint atualiza {A : Type} (n : nat) (f : A -> A) (v : list A) : list A :=
  match v, n with
  | [], _ => []
  | x :: v', O => f x :: v'
  | x :: v', S n' => x :: atualiza n' f v'
  end.

(** What a worker thread does, one action at a time: store the colour of
    pixel [(i, j)] in [imagem[j][i]], or increment the atomic counter
    [linhas_processadas_]. *)
Inductive Acao := Escreve (j i : Z) | ContaLinha.

Record EstadoRender := mkRender {
  imagem : list (list Pixel.t);
  linhas_processadas : Z
}.

Definition LF : string := String "010"%char EmptyString.

(** [arquivo << n] for an [int]. *)
Definition decimal (n : Z) : string := NilZero.string_of_int (Z.to_int n).

Definition bytes_de_string (s : string) : list Z :=
  map (fun c => Z.of_N (N_of_ascii c)) (list_ascii_of_string s).

Module RayTracer.

Record t := mk {
  metrica_ : MetricaSchwarzschild.t;
  disco_ : DiscoAcrecao.t;
  camera_ : Camera.t;
  rs_ : R;
  passo_inicial_ : R;
  max_passos_ : Z;
  tolerancia_horizonte_ : R;
  usar_fundo_ : bool;
  num_threads_ : Z
}.

(** The constructor [RayTracer(massa_solar, taxa_eddington)] with the
    default member initialisers. *)
Definition novo (massa_solar taxa_eddington : R) : t :=
  let metrica := MetricaSchwarzschild.novo massa_solar in
  let disco := DiscoAcrecao.novo massa_solar taxa_eddington 0.0 in
  let rs := MetricaSchwarzschild.raio_schwarzschild metrica in
  {| metrica_ := metrica;
     disco_ := disco;
     camera_ := Camera.com_r_observador Camera.padrao (100.0 * rs);
     rs_ := rs;
     passo_inicial_ := 0.1;
     max_passos_ := 10000;
     tolerancia_horizonte_ := 1.001;
     usar_fundo_ := true;
     num_threads_ := 4 |}.

Definition com_camera (rt : t) (c : Camera.t) : t :=
  mk (metrica_ rt) (disco_ rt) c (rs_ rt) (passo_inicial_ rt)
     (max_passos_ rt) (tolerancia_horizonte_ rt) (usar_fundo_ rt)
     (num_threads_ rt).

Definition set_camera (rt : t) (cam : Camera.t) : t :=
  let rt := com_camera rt cam in
  com_camera rt
    (Camera.com_r_observador (camera_ rt)
       (Camera.r_observador (camera_ rt) * rs_ rt)).

Definition set_resolucao (rt : t) (largura altura : Z) : t :=
  com_camera rt (Camera.com_resolucao (camera_ rt) largura altura).

Definition set_angulo_observador (rt : t) (theta : R) : t :=
  com_camera rt (Camera.com_theta_observador (camera_ rt) theta).

Definition set_threads (rt : t) (n : Z) : t :=
  mk (metrica_ rt) (disco_ rt) (camera_ rt) (rs_ rt) (passo_inicial_ rt)
     (max_passos_ rt) (tolerancia_horizonte_ rt) (usar_fundo_ rt)
     (Z.max 1 n).

Definition camera (rt : t) : Camera.t := camera_ rt.

(** *** The celestial background *)

Definition cor_fundo (theta phi : R) : Pixel.t :=
  let phi := std_fmod phi (2.0 * M_PI) in
  let phi := if Rltb phi 0 then phi + 2.0 * M_PI else phi in
  let espessura := 0.02 in
  let lat := theta - M_PI / 2.0 in
  let lon := phi in
  let linha_lat :=
    busca_linha 13
      (fun l => Rleb l (M_PI / 2.0))
      (fun l => Rltb (Rabs (lat - l)) espessura)
      (M_PI / 12.0) (- M_PI / 2.0) in
  let linha_lon :=
    busca_linha 24
      (fun l => Rltb l (2.0 * M_PI))
      (fun l =>
         let diff := Rabs (lon - l) in
         Rltb diff espessura || Rltb (2.0 * M_PI - diff) espessura)
      (M_PI / 12.0) 0.0 in
  if linha_lat || linha_lon then
    let h := lon / (2.0 * M_PI) in
    Pixel.mk (0.2 + 0.3 * h) 0.1 (0.4 + 0.2 * (1.0 - h))
  else
    let seed := theta * 100.0 + phi * 57.0 in
    let estrela := sin (seed * 12345.6789) in
    let estrela := (estrela + 1.0) / 2.0 in
    let estrela := std_pow estrela 100.0 in
    Pixel.mk (0.01 + 0.5 * estrela) (0.01 + 0.5 * estrela)
             (0.03 + 0.5 * estrela).

(** *** One ray *)

(** The initial photon state built at the top of [tracar_raio].  The
    divisions are those of the code where the divisors are not zero, that
    is for [r_observador <> 0], [r_observador <> rs_] and
    [sin theta_observador <> 0]; elsewhere the program divides by zero. *)
Definition estado_inicial (rt : t) (alfa beta : R) : EstadoGeodesica.estado :=
  let r0 := Camera.r_observador (camera_ rt) in
  let theta0 := Camera.theta_observador (camera_ rt) in
  let phi0 := 0.0 in
  let t0 := 0.0 in
  let f := 1.0 - rs_ rt / r0 in
  let u_t := 1.0 / f in
  let u_theta := beta / r0 in
  let u_phi := alfa / (r0 * sin theta0) in
  let termo1 := f * u_t * u_t in
  let termo2 := r0 * r0 * u_theta * u_theta in
  let termo3 := r0 * r0 * sin theta0 * sin theta0 * u_phi * u_phi in
  let u_r_sq := f * (termo1 - termo2 - termo3) in
  let u_r := - sqrt (std_max 0.0 u_r_sq) in
  EstadoGeodesica.mk t0 r0 theta0 phi0 u_t u_r u_theta u_phi.

(** The two [if]s that follow the step: "Mantem theta em [0, pi]". *)
Definition manter_theta (e : EstadoGeodesica.estado) : EstadoGeodesica.estado :=
  let e :=
    if Rltb (EstadoGeodesica.theta e) 0.0 then
      EstadoGeodesica.mk
        (EstadoGeodesica.t e) (EstadoGeodesica.r e)
        (- EstadoGeodesica.theta e) (EstadoGeodesica.phi e)
        (EstadoGeodesica.u_t e) (EstadoGeodesica.u_r e)
        (- EstadoGeodesica.u_theta e) (EstadoGeodesica.u_phi e)
    else e in
  if Rgtb (EstadoGeodesica.theta e) M_PI then
    EstadoGeodesica.mk
      (EstadoGeodesica.t e) (EstadoGeodesica.r e)
      (2.0 * M_PI - EstadoGeodesica.theta e) (EstadoGeodesica.phi e)
      (EstadoGeodesica.u_t e) (EstadoGeodesica.u_r e)
      (- EstadoGeodesica.u_theta e) (EstadoGeodesica.u_phi e)
  else e.

(** The integration loop [for (int i = 0; i < max_passos_; i++)] with [n]
    turns left, followed by the code after the loop. *)
Fixpoint laco (rt : t) (n : nat) (i : Z)
  (integrador : IntegradorGeodesico.t) (resultado : ResultadoRaio.t)
  (estado : EstadoGeodesica.estado) : ResultadoRaio.t :=
  match n with
  | O =>
      let resultado := ResultadoRaio.com_destino resultado ResultadoRaio.ERRO in
      ResultadoRaio.com_cor resultado (Pixel.mk 1.0 0.0 1.0)
  | S n' =>
      let resultado := ResultadoRaio.com_passos resultado i in
      if Rltb (EstadoGeodesica.r estado) (rs_ rt * tolerancia_horizonte_ rt)
      then
        let resultado :=
          ResultadoRaio.com_destino resultado ResultadoRaio.HORIZONTE in
        let resultado :=
          ResultadoRaio.com_r_impacto resultado (EstadoGeodesica.r estado) in
        ResultadoRaio.com_cor resultado (Pixel.mk 0.0 0.0 0.0)
      else
        let theta_disco := M_PI / 2.0 in
        let delta_theta := Rabs (EstadoGeodesica.theta estado - theta_disco) in
        if Rltb delta_theta 0.01
           && DiscoAcrecao.no_disco (disco_ rt) (EstadoGeodesica.r estado)
        then
          let resultado :=
            ResultadoRaio.com_destino resultado ResultadoRaio.DISCO in
          let resultado :=
            ResultadoRaio.com_r_impacto resultado (EstadoGeodesica.r estado) in
          let resultado :=
            ResultadoRaio.com_phi_impacto resultado
              (EstadoGeodesica.phi estado) in
          let resultado :=
            ResultadoRaio.com_theta_impacto resultado
              (EstadoGeodesica.theta estado) in
          let cor_disco :=
            DiscoAcrecao.intensidade_observada (disco_ rt)
              (EstadoGeodesica.r estado) (EstadoGeodesica.phi estado) in
          ResultadoRaio.com_cor resultado
            (Pixel.mk (CorRGB.r cor_disco) (CorRGB.g cor_disco)
                      (CorRGB.b cor_disco))
        else if Rgtb (EstadoGeodesica.r estado)
                     (Camera.r_observador (camera_ rt) * 2.0)
        then
          let resultado :=
            ResultadoRaio.com_destino resultado ResultadoRaio.INFINITO in
          if usar_fundo_ rt then
            ResultadoRaio.com_cor resultado
              (cor_fundo (EstadoGeodesica.theta estado)
                         (EstadoGeodesica.phi estado))
          else ResultadoRaio.com_cor resultado (Pixel.mk 0.02 0.02 0.05)
        else
          let fator_passo := sqrt (EstadoGeodesica.r estado / rs_ rt) in
          let integrador :=
            IntegradorGeodesico.set_passo integrador
              (passo_inicial_ rt * fator_passo) in
          let estado := IntegradorGeodesico.passo_rk4 integrador estado in
          let estado := manter_theta estado in
          laco rt n' (i + 1)%Z integrador resultado estado
  end.

Definition tracar_raio (rt : t) (alfa beta : R) : ResultadoRaio.t :=
  let resultado :=
    ResultadoRaio.mk ResultadoRaio.INFINITO None None None 0 Pixel.padrao in
  let estado := estado_inicial rt alfa beta in
  let integrador := IntegradorGeodesico.novo (metrica_ rt) (passo_inicial_ rt) in
  laco rt (Z.to_nat (max_passos_ rt)) 0%Z integrador resultado estado.

(** *** The whole image *)

(** The colour stored by [imagem[j][i] = resultado.cor]. *)
Definition cor_do_pixel (rt : t) (j i : Z) : Pixel.t :=
  let largura := Camera.largura (camera_ rt) in
  let altura := Camera.altura (camera_ rt) in
  let alfa :=
    (IZR i - IZR largura / 2.0) / IZR largura
    * Camera.fov_horizontal (camera_ rt) * Camera.r_observador (camera_ rt) in
  let beta :=
    (IZR j - IZR altura / 2.0) / IZR altura
    * Camera.fov_vertical (camera_ rt) * Camera.r_observador (camera_ rt) in
  ResultadoRaio.cor (tracar_raio rt alfa beta).

(** The lambda [processar_bloco], as the sequence of its actions. *)
Definition processar_bloco (rt : t) (linha_inicio linha_fim : Z) : list Acao :=
  flat_map
    (fun j =>
       map (fun i => Escreve j i)
           (intervalo 0 (Camera.largura (camera_ rt)))
       ++ [ContaLinha])
    (intervalo linha_inicio linha_fim).

(** The row blocks handed to [threads.emplace_back], in creation order. *)
Definition blocos (rt : t) : list (Z * Z) :=
  let altura := Camera.altura (camera_ rt) in
  let linhas_por_thread := Z.quot altura (num_threads_ rt) in
  map (fun t =>
         let inicio := (t * linhas_por_thread)%Z in
         let fim :=
           if (t =? num_threads_ rt - 1)%Z then altura
           else ((t + 1) * linhas_por_thread)%Z in
         (inicio, fim))
      (intervalo 0 (num_threads_ rt)).

(** The program of each thread. *)
Definition threads (rt : t) : list (list Acao) :=
  map (fun b => processar_bloco rt (fst b) (snd b)) (blocos rt).

(** [imagem(altura, std::vector<Pixel>(largura))] and
    [linhas_processadas_ = 0]. *)
Definition render_inicial (rt : t) : EstadoRender :=
  mkRender
    (repeat (repeat Pixel.padrao (Z.to_nat (Camera.largura (camera_ rt))))
            (Z.to_nat (Camera.altura (camera_ rt))))
    0.

Definition executar (rt : t) (st : EstadoRender) (a : Acao) : EstadoRender :=
  match a with
  | Escreve j i =>
      if ((0 <=? j) && (0 <=? i))%Z then
        mkRender
          (atualiza (Z.to_nat j)
             (atualiza (Z.to_nat i) (fun _ => cor_do_pixel rt j i))
             (imagem st))
          (linhas_processadas st)
      else st
  | ContaLinha => mkRender (imagem st) (linhas_processadas st + 1)
  end.

(** [renderizar] under a given schedule of the threads' actions: the image
    returned after all threads are joined. *)
Definition renderizar (rt : t) (agenda : list Acao) : list (list Pixel.t) :=
  imagem (fold_left (executar rt) agenda (render_inicial rt)).

(** *** PPM export *)

Definition cabecalho_ppm (largura altura : Z) : string :=
  ("P6" ++ LF ++ decimal largura ++ " " ++ decimal altura ++ LF
   ++ "255" ++ LF)%string.

(** The bytes sent to the stream by the two nested loops. *)
Definition corpo_ppm (imagem : list (list Pixel.t)) : list Z :=
  flat_map
    (fun linha =>
       flat_map
         (fun p =>
            let p := Pixel.clamp p in
            [Pixel.r_byte p; Pixel.g_byte p; Pixel.b_byte p])
         linha)
    imagem.

(** [salvar_ppm]: [None] when the stream did not open (the method returns
    [false]), otherwise the bytes of the file. *)
Definition salvar_ppm (imagem : list (list Pixel.t)) (aberto : bool)
  : option (list Z) :=
  if negb aberto then None
  else
    let altura := Z.of_nat (List.length imagem) in
    let largura := Z.of_nat (List.length (nth 0 imagem [])) in
    Some (bytes_de_string (cabecalho_ppm largura altura) ++ corpo_ppm imagem).

(** [progresso]: the share of the rows already counted, read from the
    counter [linhas_processadas_]. *)
Definition progresso (rt : t) (st : EstadoRender) : R :=
  IZR (linhas_processadas st) / IZR (Camera.altura (camera_ rt)).

End RayTracer.

(** ** simulador.hpp *)

Inductive TipoBuracoNegro := SCHWARZSCHILD | KERR.

Record ConfiguracaoSimulacao := mkConfiguracao {
  tipo : TipoBuracoNegro;
  massa_solar : R;
  spin : R;
  incluir_disco : bool;
  taxa_eddington : R;
  largura : Z;
  altura : Z;
  distancia_observador : R;
  angulo_inclinacao : R;
  fov : R;
  passo_integracao : R;
  max_passos : Z;
  num_threads : Z;
  diretorio_saida : string;
  prefixo_arquivo : string
}.

(** The default member initialisers of [ConfiguracaoSimulacao]. *)
Definition configuracao_padrao : ConfiguracaoSimulacao :=
  mkConfiguracao SCHWARZSCHILD 10.0 0.0 true 0.1 800 600 100.0 75.0 45.0
    0.1 10000 4 "../saida" "buraco_negro".

Module SimuladorBuracoNegro.

(** [inicializar]: the ray tracer it builds and configures, and the
    directory it asks the file system to create. *)
Definition inicializar (config_ : ConfiguracaoSimulacao)
  : RayTracer.t * string :=
  let ray_tracer := RayTracer.novo (massa_solar config_) (taxa_eddington config_) in
  let cam :=
    Camera.mk
      (distancia_observador config_)
      ((90.0 - angulo_inclinacao config_) * M_PI / 180.0)
      (fov config_ * M_PI / 180.0)
      (fov config_ * M_PI / 180.0 * IZR (altura config_)
       / IZR (largura config_))
      (largura config_)
      (altura config_) in
  let ray_tracer := RayTracer.set_camera ray_tracer cam in
  let ray_tracer := RayTracer.set_threads ray_tracer (num_threads config_) in
  (ray_tracer, diretorio_saida config_).

End SimuladorBuracoNegro.

(** ** The Runge-Kutta formula and the geodesic right-hand side, as the
       specification words them *)














(** ** The integration loop, turn by turn *)

(** The integrator as the loop leaves it after [set_passo] in a turn that
    starts in state [e]. *)
Definition integrador_da_volta (rt : RayTracer.t) (e : EstadoGeodesica.estado)
  : IntegradorGeodesico.t :=
  IntegradorGeodesico.set_passo
    (IntegradorGeodesico.novo (RayTracer.metrica_ rt) (RayTracer.passo_inicial_ rt))
    (RayTracer.passo_inicial_ rt
     * sqrt (EstadoGeodesica.r e / RayTracer.rs_ rt)).

(** The state at the start of the next turn when no event fires. *)
Definition proximo (rt : RayTracer.t) (e : EstadoGeodesica.estado)
  : EstadoGeodesica.estado :=
  RayTracer.manter_theta
    (IntegradorGeodesico.passo_rk4 (integrador_da_volta rt e) e).

(** The state examined by turn [k] of the loop (turns count from 0). *)
Fixpoint estado_na_volta (rt : RayTracer.t) (alfa beta : R) (k : nat)
  : EstadoGeodesica.estado :=
  match k with
  | O => RayTracer.estado_inicial rt alfa beta
  | S k' => proximo rt (estado_na_volta rt alfa beta k')
  end.

(** The integrators met by the loop differ from the initial one by their
    step only. *)
Definition integrador_do_laco (rt : RayTracer.t) (I : IntegradorGeodesico.t)
  : Prop :=
  exists p,
    I = IntegradorGeodesico.set_passo
          (IntegradorGeodesico.novo (RayTracer.metrica_ rt)
             (RayTracer.passo_inicial_ rt)) p.

(** The three termination events, as the specification words them. *)
Definition captura (rt : RayTracer.t) (e : EstadoGeodesica.estado) : Prop :=
  EstadoGeodesica.r e < 1.001 * RayTracer.rs_ rt.

Definition cruza_disco (rt : RayTracer.t) (e : EstadoGeodesica.estado) : Prop :=
  Rabs (EstadoGeodesica.theta e - PI / 2) < 0.01
  /\ DiscoAcrecao.raio_interno (RayTracer.disco_ rt) <= EstadoGeodesica.r e
  /\ EstadoGeodesica.r e <= DiscoAcrecao.raio_externo (RayTracer.disco_ rt).

Definition escapou (rt : RayTracer.t) (e : EstadoGeodesica.estado) : Prop :=
  EstadoGeodesica.r e > 2 * Camera.r_observador (RayTracer.camera rt).

Definition sem_evento (rt : RayTracer.t) (e : EstadoGeodesica.estado) : Prop :=
  ~ captura rt e /\ ~ cruza_disco rt e /\ ~ escapou rt e.

(** The integration parameters are private members with default
    initialisers and no setter. *)
Definition parametros_de_fabrica (rt : RayTracer.t) : Prop :=
  RayTracer.max_passos_ rt = 10000%Z
  /\ RayTracer.tolerancia_horizonte_ rt = 1.001
  /\ RayTracer.usar_fundo_ rt = true.

Definition pixel_de_cor (c : CorRGB.t) : Pixel.t :=
  Pixel.mk (CorRGB.r c) (CorRGB.g c) (CorRGB.b c).

(** ** The null condition *)

(** [g_{mu nu} u^mu u^nu] with the metric's own components. *)
Definition norma_quadrivelocidade (m : MetricaSchwarzschild.t)
  (e : EstadoGeodesica.estado) : R :=
  MetricaSchwarzschild.g_tt m (EstadoGeodesica.r e)
    * EstadoGeodesica.u_t e * EstadoGeodesica.u_t e
  + MetricaSchwarzschild.g_rr m (EstadoGeodesica.r e)
    * EstadoGeodesica.u_r e * EstadoGeodesica.u_r e
  + MetricaSchwarzschild.g_theta_theta (EstadoGeodesica.r e)
    * EstadoGeodesica.u_theta e * EstadoGeodesica.u_theta e
  + MetricaSchwarzschild.g_phi_phi (EstadoGeodesica.r e) (EstadoGeodesica.theta e)
    * EstadoGeodesica.u_phi e * EstadoGeodesica.u_phi e.

(** The sum of the magnitudes of the four terms of the norm: the scale
    against which the norm is small or not. *)
Definition escala_da_norma (m : MetricaSchwarzschild.t)
  (e : EstadoGeodesica.estado) : R :=
  Rabs (MetricaSchwarzschild.g_tt m (EstadoGeodesica.r e)
        * EstadoGeodesica.u_t e * EstadoGeodesica.u_t e)
  + Rabs (MetricaSchwarzschild.g_rr m (EstadoGeodesica.r e)
          * EstadoGeodesica.u_r e * EstadoGeodesica.u_r e)
  + Rabs (MetricaSchwarzschild.g_theta_theta (EstadoGeodesica.r e)
          * EstadoGeodesica.u_theta e * EstadoGeodesica.u_theta e)
  + Rabs (MetricaSchwarzschild.g_phi_phi (EstadoGeodesica.r e)
            (EstadoGeodesica.theta e)
          * EstadoGeodesica.u_phi e * EstadoGeodesica.u_phi e).

(** The argument of [max(0, .)] under the square root of [u^r], read off
    a state: [f (f (u^t)^2 - r^2 (u^theta)^2 - r^2 sin^2 theta (u^phi)^2)]
    with [f = 1 - r_s / r]. *)
Definition radicando (rs : R) (e : EstadoGeodesica.estado) : R :=
  let f := 1 - rs / EstadoGeodesica.r e in
  f * (f * (EstadoGeodesica.u_t e)²
       - (EstadoGeodesica.r e)² * (EstadoGeodesica.u_theta e)²
       - (EstadoGeodesica.r e)² * (sin (EstadoGeodesica.theta e))²
         * (EstadoGeodesica.u_phi e)²).

(** The impact parameters [renderizar] hands to [tracar_raio] for column
    [i] and row [j]: lengths, a fraction of the field of view times
    [r_observador]. *)
Definition alfa_do_pixel (rt : RayTracer.t) (i : Z) : R :=
  (IZR i - IZR (Camera.largura (RayTracer.camera_ rt)) / 2.0)
  / IZR (Camera.largura (RayTracer.camera_ rt))
  * Camera.fov_horizontal (RayTracer.camera_ rt)
  * Camera.r_observador (RayTracer.camera_ rt).

Definition beta_do_pixel (rt : RayTracer.t) (j : Z) : R :=
  (IZR j - IZR (Camera.altura (RayTracer.camera_ rt)) / 2.0)
  / IZR (Camera.altura (RayTracer.camera_ rt))
  * Camera.fov_vertical (RayTracer.camera_ rt)
  * Camera.r_observador (RayTracer.camera_ rt).

(** ** Rounding to the nearest integer, as the PPM description words it *)

Definition clamp01 (c : R) : R := Rmax 0 (Rmin 1 c).

(** [round(x)] for a non-negative [x]: halves go up. *)
Definition arredonda (x : R) : Z := Zfloor (x + / 2).

(** The byte of a channel when the fraction of the double product is
    dropped instead. *)
Definition byte_truncado (c : R) : Z :=
  Zfloor (arredonda_double (clamp01 c * 255)).

Definition canal (p : Pixel.t) (k : nat) : R :=
  match k with
  | O => Pixel.r p
  | S O => Pixel.g p
  | _ => Pixel.b p
  end.

(** The bytes of one row: red, green, blue of each pixel in turn. *)
Definition bytes_da_linha (linha : list Pixel.t) : list Z :=
  flat_map (fun p => map (fun k => byte_truncado (canal p k)) [0; 1; 2]%nat)
           linha.

(** ** Schedules of the worker threads *)

(** [intercala ts s]: the sequence [s] interleaves the sequences [ts],
    keeping the order inside each of them. *)
Inductive intercala {A : Type} : list (list A) -> list A -> Prop :=
| intercala_fim : forall ts, Forall (fun t => t = []) ts -> intercala ts []
| intercala_passo : forall ts1 a t ts2 s,
    intercala (ts1 ++ t :: ts2) s ->
    intercala (ts1 ++ (a :: t) :: ts2) (a :: s).

(** The raster in which pixel [(i, j)] holds the colour of its own ray. *)
Definition imagem_dos_raios (rt : RayTracer.t) : list (list Pixel.t) :=
  map (fun j =>
         map (fun i => RayTracer.cor_do_pixel rt j i)
             (intervalo 0 (Camera.largura (RayTracer.camera rt))))
      (intervalo 0 (Camera.altura (RayTracer.camera rt))).

(** The pixels stored by a sequence of actions, in order. *)
Definition escritas (acoes : list Acao) : list (Z * Z) :=
  flat_map (fun a => match a with Escreve j i => [(j, i)] | ContaLinha => [] end)
           acoes.

(** Row by row, column by column: every pixel of an [altura] by [largura]
    raster once. *)
Definition todos_os_pixels (largura altura : Z) : list (Z * Z) :=
  flat_map (fun j => map (fun i => (j, i)) (intervalo 0 largura))
           (intervalo 0 altura).

(** [imagem[j][i]] *)
Definition pixel_em (img : list (list Pixel.t)) (j i : nat) : Pixel.t :=
  nth i (nth j img []) Pixel.padrao.

(** A raster of [H] rows of [W] pixels. *)
Definition forma (W H : nat) (img : list (list Pixel.t)) : Prop :=
  List.length img = H
  /\ forall j, (j < H)%nat -> List.length (nth j img []) = W.

(** ** The disk's Schwarzschild radius *)

(** [rs] as the constructor and [fator_redshift] of the disk compute it. *)
Definition rs_do_disco (d : DiscoAcrecao.t) : R :=
  2.0 * G * DiscoAcrecao.massa_bh_ d / C2.

(** ** Points of a trajectory *)

(** What [integrar] guarantees of a recorded point: it is not below
    [r_min], its affine parameter is below [lambda_max], and its Cartesian
    coordinates lie on the sphere of its radius. *)
Definition ponto_valido (I : IntegradorGeodesico.t) (lambda_max : R)
  (p : PontoTrajetoria) : Prop :=
  ~ ponto_r p < IntegradorGeodesico.r_min_ I
  /\ ponto_lambda p < lambda_max
  /\ ponto_x p * ponto_x p + ponto_y p * ponto_y p + ponto_z p * ponto_z p
     = ponto_r p * ponto_r p.

Definition ponto_nulo : PontoTrajetoria := mkPonto 0 0 0 0 0 0 0 0.

(** ** The azimuth as the background normalises it *)

(** [phi = fmod(phi, 2 pi); if (phi < 0) phi += 2 pi], the first two lines of
    [cor_fundo]. *)
Definition phi_normalizado (phi : R) : R :=
  let phi := std_fmod phi (2.0 * M_PI) in
  if Rltb phi 0 then phi + 2.0 * M_PI else phi.

(** The rows counted by a sequence of actions. *)
Fixpoint linhas_contadas (acoes : list Acao) : Z :=
  match acoes with
  | [] => 0
  | Escreve _ _ :: resto => linhas_contadas resto
  | ContaLinha :: resto => (1 + linhas_contadas resto)%Z
  end.

(** ** What a byte of the file says about its channel *)

Definition byte_fiel (c : R) (byte : Z) : Prop :=
  (0 <= byte <= 255)%Z
  /\ (c <= 0 -> byte = 0%Z)
  /\ (1 <= c -> byte = 255%Z)
  /\ (0 <= c <= 1 ->
      IZR byte - powerRZ 2 (-46) <= 255 * c < IZR byte + 1
      /\ Rabs (c - IZR byte / 255) < 1 / 255).

(** ** The fields of a ray's result that were assigned *)

Definition campos_do_resultado (rt : RayTracer.t) (res : ResultadoRaio.t)
  : Prop :=
  match ResultadoRaio.destino res with
  | ResultadoRaio.HORIZONTE =>
      (exists r, ResultadoRaio.r_impacto res = Some r
                 /\ r < RayTracer.rs_ rt * RayTracer.tolerancia_horizonte_ rt)
      /\ ResultadoRaio.phi_impacto res = None
      /\ ResultadoRaio.theta_impacto res = None
      /\ (0 <= ResultadoRaio.passos res < RayTracer.max_passos_ rt)%Z
  | ResultadoRaio.DISCO =>
      (exists r phi theta,
          ResultadoRaio.r_impacto res = Some r
          /\ ResultadoRaio.phi_impacto res = Some phi
          /\ ResultadoRaio.theta_impacto res = Some theta
          /\ Rabs (theta - PI / 2) < 0.01
          /\ DiscoAcrecao.raio_interno (RayTracer.disco_ rt) <= r
             <= DiscoAcrecao.raio_externo (RayTracer.disco_ rt)
          /\ RayTracer.rs_ rt * RayTracer.tolerancia_horizonte_ rt <= r)
      /\ (0 <= ResultadoRaio.passos res < RayTracer.max_passos_ rt)%Z
  | ResultadoRaio.INFINITO =>
      ResultadoRaio.r_impacto res = None
      /\ ResultadoRaio.phi_impacto res = None
      /\ ResultadoRaio.theta_impacto res = None
      /\ (0 <= ResultadoRaio.passos res < RayTracer.max_passos_ rt)%Z
  | ResultadoRaio.ERRO =>
      ResultadoRaio.r_impacto res = None
      /\ ResultadoRaio.phi_impacto res = None
      /\ ResultadoRaio.theta_impacto res = None
      /\ ResultadoRaio.passos res = (RayTracer.max_passos_ rt - 1)%Z
  end.

(** ** Concrete configurations *)

(** A tracer for ten solar masses at a tenth of the Eddington rate. *)
Definition tracer_padrao : RayTracer.t := RayTracer.novo 10.0 0.1.

(** An edge-on camera at [100 r_s]. *)
Definition camera_equatorial : Camera.t :=
  Camera.mk 100.0 (M_PI / 2.0) (M_PI / 4.0) (M_PI / 4.0) 800 600.

Definition tracer_equatorial : RayTracer.t :=
  RayTracer.set_camera tracer_padrao camera_equatorial.

(** A camera just outside the horizon, at [1.0005 r_s]. *)
Definition camera_rente : Camera.t :=
  Camera.mk 1.0005 (M_PI / 2.0) (M_PI / 4.0) (M_PI / 4.0) 800 600.

Definition tracer_rente : RayTracer.t :=
  RayTracer.set_camera tracer_padrao camera_rente.

(** The initial state of the ray sent by the edge-on camera one tenth of a
    radian above its axis ([alfa = 0], [beta = 0.1 r_obs]). *)
Definition raio_obliquo : EstadoGeodesica.estado :=
  RayTracer.estado_inicial tracer_equatorial 0
    (0.1 * Camera.r_observador (RayTracer.camera tracer_equatorial)).

(** The integrator of the ten-solar-mass metric with step [0.01], and a state
    at rest in space at [r = 10 km], inside the horizon. *)
Definition integrador_padrao : IntegradorGeodesico.t :=
  IntegradorGeodesico.novo (RayTracer.metrica_ tracer_padrao) 0.01.

Definition estado_interior : EstadoGeodesica.estado :=
  EstadoGeodesica.mk 0 10000 (PI / 2) 0 1 0 0 0.



(** The value of [lambda] at the start of turn [j] of the loop of
    [integrar]: [0.0], then [lambda += passo] each turn. *)
Fixpoint lambda_acumulado (passo : R) (j : nat) : R :=
  match j with
  | O => 0.0
  | S j' => arredonda_double (lambda_acumulado passo j' + passo)
  end.

(** The point pushed for a state at parameter [lambda]. *)
Definition ponto_do_estado (e : EstadoGeodesica.estado) (lambda : R)
  : PontoTrajetoria :=
  mkPonto lambda (EstadoGeodesica.t e) (EstadoGeodesica.r e)
    (EstadoGeodesica.theta e) (EstadoGeodesica.phi e)
    (EstadoGeodesica.r e * sin (EstadoGeodesica.theta e)
     * cos (EstadoGeodesica.phi e))
    (EstadoGeodesica.r e * sin (EstadoGeodesica.theta e)
     * sin (EstadoGeodesica.phi e))
    (EstadoGeodesica.r e * cos (EstadoGeodesica.theta e)).

(** The integrator of the ten-solar-mass metric with the step [0.1] of a
    caller, a double, and a state with no velocity at [r = 100 km], which
    the step leaves where it is. *)
Definition integrador_decimo : IntegradorGeodesico.t :=
  IntegradorGeodesico.novo (RayTracer.metrica_ tracer_padrao)
    (arredonda_double 0.1).

Definition estado_parado : EstadoGeodesica.estado :=
  EstadoGeodesica.mk 0 100000 (PI / 2) 0 0 0 0 0.

(** The ten-solar-mass tracer with a raster of a single pixel. *)
Definition tracer_um_pixel : RayTracer.t :=
  RayTracer.set_resolucao tracer_padrao 1 1.

(** * Properties *)

Section RungeKutta.

Lemma de_array_como_array (e : EstadoGeodesica.estado) :
  EstadoGeodesica.de_array (EstadoGeodesica.como_array e) = e.
Proof. destruct e; reflexivity. Qed.












End RungeKutta.

(** ** Comparisons *)

Section Comparacoes.

Lemma Rltb_true a b : Rltb a b = true <-> a < b.
Proof. unfold Rltb; destruct (Rlt_dec a b); split; intros; auto; discriminate. Qed.

Lemma Rltb_false a b : Rltb a b = false <-> ~ a < b.
Proof. unfold Rltb; destruct (Rlt_dec a b); split; intros; auto; try discriminate; contradiction. Qed.

Lemma Rleb_true a b : Rleb a b = true <-> a <= b.
Proof. unfold Rleb; destruct (Rle_dec a b); split; intros; auto; discriminate. Qed.

Lemma Rleb_false a b : Rleb a b = false <-> ~ a <= b.
Proof. unfold Rleb; destruct (Rle_dec a b); split; intros; auto; try discriminate; contradiction. Qed.

Lemma std_max_Rmax a b : std_max a b = Rmax a b.
Proof.
  unfold std_max, Rmax.
  destruct (Rlt_dec a b), (Rle_dec a b); lra.
Qed.

Lemma std_min_Rmin a b : std_min a b = Rmin b a.
Proof.
  unfold std_min, Rmin.
  destruct (Rlt_dec b a), (Rle_dec b a); lra.
Qed.

End Comparacoes.

(** ** Rounding to the nearest double *)

Section Arredondamento.

Lemma ln_2_positivo : 0 < ln 2.
Proof. rewrite <- ln_1. apply ln_increasing; lra. Qed.

Lemma potencia_de_2 (z : Z) : powerRZ 2 z = exp (IZR z * ln 2).
Proof. rewrite powerRZ_Rpower by lra. reflexivity. Qed.

Lemma potencia_de_2_positiva (z : Z) : 0 < powerRZ 2 z.
Proof. apply powerRZ_lt. lra. Qed.

Lemma potencia_de_2_monotona (a b : Z) :
  (a <= b)%Z -> powerRZ 2 a <= powerRZ 2 b.
Proof.
  intros H. rewrite !potencia_de_2.
  pose proof ln_2_positivo as Hl.
  apply IZR_le in H.
  destruct (Req_dec (IZR a) (IZR b)) as [->|Hne]; [lra|].
  left. apply exp_increasing. nra.
Qed.

Lemma potencia_de_2_natural (n : Z) :
  (0 <= n)%Z -> powerRZ 2 n = IZR (2 ^ n).
Proof.
  intros H. rewrite <- (Z2Nat.id n H) at 1.
  rewrite <- pow_powerRZ, pow_IZR, Z2Nat.id by exact H. reflexivity.
Qed.

(** The binade of a number that is not zero. *)
Lemma expoente_cotas (x : R) :
  x <> 0 ->
  powerRZ 2 (expoente x) <= Rabs x < powerRZ 2 (expoente x + 1).
Proof.
  intros Hx. pose proof ln_2_positivo as Hl.
  assert (Ha : 0 < Rabs x) by (apply Rabs_pos_lt; exact Hx).
  unfold expoente.
  pose proof (Zfloor_bound (ln (Rabs x) / ln 2)) as [H1 H2].
  set (e := Zfloor (ln (Rabs x) / ln 2)) in *.
  assert (Hq : ln (Rabs x) = ln (Rabs x) / ln 2 * ln 2) by (field; lra).
  rewrite !potencia_de_2, plus_IZR.
  assert (Hlo : IZR e * ln 2 <= ln (Rabs x)) by (rewrite Hq; nra).
  assert (Hhi : ln (Rabs x) < (IZR e + 1) * ln 2) by (rewrite Hq; nra).
  assert (H : exp (IZR e * ln 2) <= exp (ln (Rabs x))
              < exp ((IZR e + 1) * ln 2)).
  { split; [|apply exp_increasing; exact Hhi].
    destruct Hlo as [Hlo|Hlo]; [left; apply exp_increasing; exact Hlo|].
    right. rewrite Hlo. reflexivity. }
  rewrite exp_ln in H by exact Ha. exact H.
Qed.

Lemma expoente_abaixo (x : R) (k : Z) :
  x <> 0 -> Rabs x < powerRZ 2 k -> (expoente x < k)%Z.
Proof.
  intros Hx Hk. destruct (expoente_cotas x Hx) as [H1 _].
  destruct (Z.lt_ge_cases (expoente x) k) as [|Hge]; [assumption|].
  pose proof (potencia_de_2_monotona _ _ Hge). lra.
Qed.

Lemma ulp_positivo (x : R) : 0 < ulp x.
Proof. apply potencia_de_2_positiva. Qed.

Lemma inteiro_mais_proximo_casos (q : R) :
  inteiro_mais_proximo q = Zfloor q
  \/ inteiro_mais_proximo q = (Zfloor q + 1)%Z /\ / 2 <= q - IZR (Zfloor q).
Proof.
  unfold inteiro_mais_proximo. cbv zeta.
  destruct (Rlt_dec _ _); [left; reflexivity|].
  destruct (Rlt_dec _ _); [right; split; [reflexivity | lra]|].
  destruct (Z.even _); [left; reflexivity | right; split; [reflexivity | lra]].
Qed.

Lemma inteiro_mais_proximo_erro (q : R) :
  Rabs (IZR (inteiro_mais_proximo q) - q) <= / 2.
Proof.
  pose proof (Zfloor_bound q) as [H1 H2].
  unfold inteiro_mais_proximo. cbv zeta.
  destruct (Rlt_dec _ _) as [Ha|Ha].
  { rewrite Rabs_left1; lra. }
  destruct (Rlt_dec _ _) as [Hb|Hb].
  { rewrite plus_IZR. rewrite Rabs_right; lra. }
  destruct (Z.even _).
  - rewrite Rabs_left1; lra.
  - rewrite plus_IZR. rewrite Rabs_right; lra.
Qed.

(** Rounding to the nearest integer does not cross an integer. *)
Lemma inteiro_mais_proximo_limiar (q : R) (N : Z) :
  (IZR N <= q -> (N <= inteiro_mais_proximo q)%Z)
  /\ (q <= IZR N -> (inteiro_mais_proximo q <= N)%Z).
Proof.
  pose proof (Zfloor_bound q) as [H1 H2].
  split; intros H.
  - pose proof (Zfloor_lub N q H).
    destruct (inteiro_mais_proximo_casos q) as [->|[-> _]]; lia.
  - destruct (inteiro_mais_proximo_casos q) as [->|[-> Hm]].
    + apply le_IZR. lra.
    + assert (Hlt : IZR (Zfloor q) < IZR N) by lra.
      apply lt_IZR in Hlt. lia.
Qed.

(** A number below [2^(53 - n)] is rounded on a grid that contains the
    multiples of [2^(-n)]: rounding does not cross them. *)
Lemma arredonda_double_limiar (x : R) (k : Z) (n : Z) :
  (0 <= n <= 1074)%Z ->
  Rabs x < powerRZ 2 (53 - n) ->
  let t := IZR k * powerRZ 2 (- n) in
  (t <= x -> t <= arredonda_double x)
  /\ (x <= t -> arredonda_double x <= t).
Proof.
  intros Hn Hx t. unfold arredonda_double.
  destruct (Req_dec_T x 0) as [->|Hx0]; [tauto|].
  pose proof (expoente_abaixo x (53 - n) Hx0 Hx) as He.
  unfold ulp. set (E := Z.max (expoente x) (-1022)).
  assert (HE : (E <= 52 - n)%Z) by (unfold E; lia).
  pose proof (potencia_de_2_positiva (E - 52)) as Hu.
  set (u := powerRZ 2 (E - 52)) in *.
  assert (Ht : t = IZR (k * 2 ^ (52 - n - E)) * u).
  { unfold t, u. rewrite mult_IZR, <- potencia_de_2_natural by lia.
    rewrite Rmult_assoc, <- powerRZ_add by lra.
    do 2 f_equal. lia. }
  set (N := (k * 2 ^ (52 - n - E))%Z) in *.
  destruct (inteiro_mais_proximo_limiar (x / u) N) as [Hlo Hhi].
  assert (Hq : x = x / u * u) by (field; lra).
  split; intros H; rewrite Ht in *.
  - apply Rmult_le_compat_r; [lra|]. apply IZR_le, Hlo.
    apply Rmult_le_reg_r with u; [exact Hu|]. rewrite <- Hq. exact H.
  - apply Rmult_le_compat_r; [lra|]. apply IZR_le, Hhi.
    apply Rmult_le_reg_r with u; [exact Hu|]. rewrite <- Hq. exact H.
Qed.

(** Multiples of [2^(-n)] below [2^(53 - n)] are doubles. *)
Lemma arredonda_double_exato (k : Z) (n : Z) :
  (0 <= n <= 1074)%Z ->
  Rabs (IZR k * powerRZ 2 (- n)) < powerRZ 2 (53 - n) ->
  arredonda_double (IZR k * powerRZ 2 (- n)) = IZR k * powerRZ 2 (- n).
Proof.
  intros Hn Hx.
  destruct (arredonda_double_limiar _ k n Hn Hx) as [H1 H2].
  cbv zeta in H1, H2. apply Rle_antisym; [apply H2 | apply H1]; lra.
Qed.

Lemma arredonda_double_erro (x : R) :
  Rabs (arredonda_double x - x) <= ulp x / 2.
Proof.
  pose proof (ulp_positivo x) as Hu.
  unfold arredonda_double. destruct (Req_dec_T x 0) as [->|Hx0].
  { rewrite Rminus_0_r, Rabs_R0. lra. }
  pose proof (inteiro_mais_proximo_erro (x / ulp x)) as He.
  set (u := ulp x) in *. set (m := inteiro_mais_proximo (x / u)) in *.
  replace (IZR m * u - x) with ((IZR m - x / u) * u) by (field; lra).
  rewrite Rabs_mult, (Rabs_right u) by lra.
  apply Rmult_le_compat_r with (r := u) in He; lra.
Qed.

Lemma ulp_abaixo (x : R) (k : Z) :
  x <> 0 -> (-1022 < k)%Z -> Rabs x < powerRZ 2 k ->
  ulp x <= powerRZ 2 (k - 53).
Proof.
  intros Hx Hk H. pose proof (expoente_abaixo x k Hx H).
  unfold ulp. apply potencia_de_2_monotona. lia.
Qed.

Lemma dois_a_53 : powerRZ 2 53 = 9007199254740992.
Proof. rewrite potencia_de_2_natural by lia. reflexivity. Qed.

(** Below [2^53] rounding does not cross an integer. *)
Lemma arredonda_double_inteiro (x : R) (k : Z) :
  Rabs x < 9007199254740992 ->
  (IZR k <= x -> IZR k <= arredonda_double x)
  /\ (x <= IZR k -> arredonda_double x <= IZR k).
Proof.
  intros Hx. rewrite <- dois_a_53 in Hx.
  pose proof (arredonda_double_limiar x k 0 ltac:(lia) Hx) as H.
  cbv zeta in H. change (powerRZ 2 (- 0)) with 1 in H.
  rewrite Rmult_1_r in H. exact H.
Qed.

Lemma arredonda_double_nao_negativo (x : R) :
  0 <= x -> 0 <= arredonda_double x.
Proof.
  intros Hx. unfold arredonda_double.
  destruct (Req_dec_T x 0); [lra|].
  pose proof (ulp_positivo x) as Hu.
  apply Rmult_le_pos; [|lra].
  apply IZR_le. apply (inteiro_mais_proximo_limiar (x / ulp x) 0).
  apply Rmult_le_pos; [exact Hx | left; apply Rinv_0_lt_compat; exact Hu].
Qed.

(** The product of a clamped channel by 255 stays in [[0, 255]], whose
    doubles are at most [2^(-45)] apart. *)
Lemma arredonda_double_ate_255 (y : R) :
  0 <= y <= 255 ->
  0 <= arredonda_double y <= 255
  /\ Rabs (arredonda_double y - y) <= powerRZ 2 (-46)
  /\ (forall k : Z, IZR k <= y -> IZR k <= arredonda_double y)
  /\ (forall k : Z, y <= IZR k -> arredonda_double y <= IZR k).
Proof.
  intros [H0 H1].
  assert (Hx : Rabs y < 9007199254740992) by (rewrite Rabs_right; lra).
  split.
  { split; [apply arredonda_double_nao_negativo; exact H0|].
    apply (arredonda_double_inteiro y 255 Hx). exact H1. }
  split.
  { destruct (Req_dec y 0) as [->|Hy0].
    - unfold arredonda_double. destruct (Req_dec_T 0 0); [|contradiction].
      rewrite Rminus_0_r, Rabs_R0. left. apply potencia_de_2_positiva.
    - pose proof (arredonda_double_erro y) as He.
      assert (Hu : ulp y <= powerRZ 2 (8 - 53)).
      { apply ulp_abaixo; [exact Hy0 | lia |].
        rewrite potencia_de_2_natural by lia. rewrite Rabs_right by lra.
        change (2 ^ 8)%Z with 256%Z. lra. }
      change (8 - 53)%Z with (-46 + 1)%Z in Hu.
      rewrite powerRZ_add in Hu by lra.
      change (powerRZ 2 1) with (2 * 1) in Hu. lra. }
  split; intros k Hk; apply (arredonda_double_inteiro y k Hx); exact Hk.
Qed.

End Arredondamento.


(** ** The integration loop *)

Section Laco.

Variable rt : RayTracer.t.

Lemma set_passo_set_passo I p q :
  IntegradorGeodesico.set_passo (IntegradorGeodesico.set_passo I p) q
  = IntegradorGeodesico.set_passo I q.
Proof. reflexivity. Qed.

Lemma captura_codigo e :
  RayTracer.tolerancia_horizonte_ rt = 1.001 ->
  Rltb (EstadoGeodesica.r e)
       (RayTracer.rs_ rt * RayTracer.tolerancia_horizonte_ rt) = true
  <-> captura rt e.
Proof.
  intros ->. rewrite Rltb_true. unfold captura. split; intros; lra.
Qed.

Lemma cruza_disco_codigo e :
  Rltb (Rabs (EstadoGeodesica.theta e - M_PI / 2.0)) 0.01
  && DiscoAcrecao.no_disco (RayTracer.disco_ rt) (EstadoGeodesica.r e) = true
  <-> cruza_disco rt e.
Proof.
  unfold cruza_disco, DiscoAcrecao.no_disco, DiscoAcrecao.raio_interno,
    DiscoAcrecao.raio_externo, Rgeb, M_PI.
  rewrite !andb_true_iff, Rltb_true, !Rleb_true.
  replace (PI / 2.0) with (PI / 2) by lra.
  tauto.
Qed.

Lemma escapou_codigo e :
  Rgtb (EstadoGeodesica.r e)
       (Camera.r_observador (RayTracer.camera_ rt) * 2.0) = true
  <-> escapou rt e.
Proof.
  unfold Rgtb, escapou, RayTracer.camera. rewrite Rltb_true.
  split; intros; lra.
Qed.

(** A turn without event hands the next state to the next turn. *)
Lemma laco_sem_evento n i I res e :
  RayTracer.tolerancia_horizonte_ rt = 1.001 ->
  integrador_do_laco rt I ->
  sem_evento rt e ->
  exists I' res',
    integrador_do_laco rt I'
    /\ RayTracer.laco rt (S n) i I res e
       = RayTracer.laco rt n (i + 1)%Z I' res' (proximo rt e).
Proof.
  intros Htol [p ->] (Hc & Hd & He).
  exists (integrador_da_volta rt e), (ResultadoRaio.com_passos res i).
  split; [eexists; reflexivity|].
  cbn [RayTracer.laco].
  destruct (Rltb _ _) eqn:E1; [apply captura_codigo in E1; tauto|].
  destruct (Rltb _ _ && _) eqn:E2; [apply cruza_disco_codigo in E2; tauto|].
  destruct (Rgtb _ _) eqn:E3; [apply escapou_codigo in E3; tauto|].
  reflexivity.
Qed.

(** [k] turns without event advance the loop by [k] states. *)
Lemma laco_avanca alfa beta k : forall n i I res,
  RayTracer.tolerancia_horizonte_ rt = 1.001 ->
  integrador_do_laco rt I ->
  (forall j, (j < k)%nat -> sem_evento rt (estado_na_volta rt alfa beta j)) ->
  exists I' res' i',
    integrador_do_laco rt I'
    /\ RayTracer.laco rt (k + n) i I res (RayTracer.estado_inicial rt alfa beta)
       = RayTracer.laco rt n i' I' res' (estado_na_volta rt alfa beta k).
Proof.
  induction k as [|k IH]; intros n i I res Htol HI Hsem.
  - exists I, res, i. split; [assumption | reflexivity].
  - destruct (IH (S n) i I res Htol HI) as (I1 & res1 & i1 & HI1 & Heq).
    { intros j Hj. apply Hsem. lia. }
    destruct (laco_sem_evento n i1 I1 res1 (estado_na_volta rt alfa beta k)
                Htol HI1) as (I2 & res2 & HI2 & Heq2).
    { apply Hsem. lia. }
    exists I2, res2, (i1 + 1)%Z. split; [assumption|].
    replace (S k + n)%nat with (k + S n)%nat by lia.
    rewrite Heq, Heq2. reflexivity.
Qed.

(** C2. In every turn of the loop of [tracar_raio] the events are tested
    in a fixed order.  If the turns before turn [k] fired no event, then
    at turn [k]: a radius below [1.001 r_s] ends the ray as horizon
    capture with the black pixel; otherwise a polar angle within [0.01] of
    [pi/2] at a radius inside the disk ends it with the disk's observed
    intensity at [(r, phi)]; otherwise a radius above [2 r_obs] ends it
    with the background colour at [(theta, phi)].  If none of the [10000]
    turns fires an event, the ray returns the magenta pixel. *)
Theorem tracar_raio_eventos_em_ordem (alfa beta : R) :
  parametros_de_fabrica rt ->
  let res := RayTracer.tracar_raio rt alfa beta in
  let e := estado_na_volta rt alfa beta in
  (forall k,
      (Z.of_nat k < 10000)%Z ->
      (forall j, (j < k)%nat -> sem_evento rt (e j)) ->
      (captura rt (e k) ->
       ResultadoRaio.destino res = ResultadoRaio.HORIZONTE
       /\ ResultadoRaio.cor res = Pixel.mk 0 0 0)
      /\ (~ captura rt (e k) -> cruza_disco rt (e k) ->
          ResultadoRaio.destino res = ResultadoRaio.DISCO
          /\ ResultadoRaio.cor res
             = pixel_de_cor
                 (DiscoAcrecao.intensidade_observada (RayTracer.disco_ rt)
                    (EstadoGeodesica.r (e k)) (EstadoGeodesica.phi (e k))))
      /\ (~ captura rt (e k) -> ~ cruza_disco rt (e k) -> escapou rt (e k) ->
          ResultadoRaio.destino res = ResultadoRaio.INFINITO
          /\ ResultadoRaio.cor res
             = RayTracer.cor_fundo (EstadoGeodesica.theta (e k))
                 (EstadoGeodesica.phi (e k))))
  /\ ((forall k, (Z.of_nat k < 10000)%Z -> sem_evento rt (e k)) ->
      ResultadoRaio.destino res = ResultadoRaio.ERRO
      /\ ResultadoRaio.cor res = Pixel.mk 1 0 1).
Proof.
  intros (Hmax & Htol & Hfundo) res e.
  assert (HI0 : integrador_do_laco rt
                  (IntegradorGeodesico.novo (RayTracer.metrica_ rt)
                     (RayTracer.passo_inicial_ rt))).
  { exists (RayTracer.passo_inicial_ rt). reflexivity. }
  split.
  - intros k Hk Hsem.
    destruct (laco_avanca alfa beta k (S (Z.to_nat 10000 - k - 1)) 0%Z _
                (ResultadoRaio.mk ResultadoRaio.INFINITO None None None 0
                   Pixel.padrao) Htol HI0 Hsem)
      as (I' & res' & i' & _ & Heq).
    replace (k + S (Z.to_nat 10000 - k - 1))%nat with (Z.to_nat 10000)
      in Heq by lia.
    assert (Hres : res = RayTracer.laco rt (S (Z.to_nat 10000 - k - 1)) i' I'
                           res' (e k)).
    { unfold res, RayTracer.tracar_raio. rewrite Hmax. exact Heq. }
    clearbody res. subst res.
    cbn [RayTracer.laco].
    destruct (Rltb _ _) eqn:E1.
    { apply captura_codigo in E1; [|assumption].
      repeat split; try tauto.
      cbn. f_equal; lra. }
    assert (Hc : ~ captura rt (e k)).
    { intro Hc. apply captura_codigo in Hc; [congruence | assumption]. }
    destruct (Rltb _ _ && _) eqn:E2.
    { apply cruza_disco_codigo in E2.
      repeat split; try tauto. }
    assert (Hd : ~ cruza_disco rt (e k)).
    { intro Hd. apply cruza_disco_codigo in Hd. congruence. }
    destruct (Rgtb _ _) eqn:E3.
    { rewrite Hfundo. repeat split; try tauto. }
    assert (He : ~ escapou rt (e k)).
    { intro He. apply escapou_codigo in He. congruence. }
    repeat split; tauto.
  - intros Hsem.
    destruct (laco_avanca alfa beta (Z.to_nat 10000) 0 0%Z _
                (ResultadoRaio.mk ResultadoRaio.INFINITO None None None 0
                   Pixel.padrao) Htol HI0)
      as (I' & res' & i' & _ & Heq).
    { intros j Hj. apply Hsem. lia. }
    rewrite Nat.add_0_r in Heq.
    assert (Hres : res = RayTracer.laco rt 0 i' I' res'
                           (e (Z.to_nat 10000))).
    { unfold res, RayTracer.tracar_raio. rewrite Hmax. exact Heq. }
    clearbody res. subst res.
    cbn. split; [reflexivity | f_equal; lra].
Qed.

End Laco.

(** ** Numbers of the ten-solar-mass configuration *)

Section DezMassasSolares.

Lemma rs_tracer_padrao :
  RayTracer.rs_ tracer_padrao
  = 2.0 * (G * (10.0 * MASSA_SOL) / C2).
Proof. reflexivity. Qed.

Lemma rs_tracer_padrao_cota :
  29000 < RayTracer.rs_ tracer_padrao < 30000.
Proof.
  rewrite rs_tracer_padrao.
  unfold G, MASSA_SOL, C2, C, CONSTANTE_GRAVITACIONAL, VELOCIDADE_LUZ.
  lra.
Qed.

Lemma parametros_novo ms te : parametros_de_fabrica (RayTracer.novo ms te).
Proof. repeat split. Qed.

Lemma parametros_set_camera rt cam :
  parametros_de_fabrica rt ->
  parametros_de_fabrica (RayTracer.set_camera rt cam).
Proof. intros H; exact H. Qed.

Lemma parametros_set_threads rt n :
  parametros_de_fabrica rt ->
  parametros_de_fabrica (RayTracer.set_threads rt n).
Proof. intros H; exact H. Qed.

Lemma parametros_set_resolucao rt w h :
  parametros_de_fabrica rt ->
  parametros_de_fabrica (RayTracer.set_resolucao rt w h).
Proof. intros H; exact H. Qed.

Lemma parametros_set_angulo_observador rt th :
  parametros_de_fabrica rt ->
  parametros_de_fabrica (RayTracer.set_angulo_observador rt th).
Proof. intros H; exact H. Qed.

Lemma captura_tracer_rente alfa beta :
  captura tracer_rente (estado_na_volta tracer_rente alfa beta 0).
Proof.
  unfold captura. cbn.
  pose proof rs_tracer_padrao_cota as H. rewrite rs_tracer_padrao in H.
  lra.
Qed.

(** C2, witness.  A ray of the camera at [1.0005 r_s] is captured in the
    first turn. *)
Lemma tracar_raio_eventos_em_ordem_witness :
  parametros_de_fabrica tracer_rente
  /\ captura tracer_rente (estado_na_volta tracer_rente 0 0 0)
  /\ ResultadoRaio.destino (RayTracer.tracar_raio tracer_rente 0 0)
     = ResultadoRaio.HORIZONTE
  /\ ResultadoRaio.cor (RayTracer.tracar_raio tracer_rente 0 0)
     = Pixel.mk 0 0 0.
Proof.
  assert (Hp : parametros_de_fabrica tracer_rente)
    by (apply parametros_set_camera, parametros_novo).
  assert (Hc : captura tracer_rente (estado_na_volta tracer_rente 0 0 0))
    by apply captura_tracer_rente.
  split; [exact Hp|]. split; [exact Hc|].
  destruct (tracar_raio_eventos_em_ordem tracer_rente 0 0 Hp) as [H _].
  destruct (H 0%nat) as [H1 _].
  - simpl. lia.
  - intros j Hj. lia.
  - exact (H1 Hc).
Defined.

End DezMassasSolares.

(** ** The initial photon state *)

Section EstadoInicial.

Variable rt : RayTracer.t.
Variables alfa beta : R.

Let e0 := RayTracer.estado_inicial rt alfa beta.
Let r0 := Camera.r_observador (RayTracer.camera rt).
Let theta0 := Camera.theta_observador (RayTracer.camera rt).

(** The quantity under the clamp is the radicand read off the state. *)
Lemma u_r_estado_inicial :
  EstadoGeodesica.u_r e0 = - sqrt (Rmax 0 (radicando (RayTracer.rs_ rt) e0)).
Proof.
  unfold e0, RayTracer.estado_inicial, radicando.
  cbn [EstadoGeodesica.u_r EstadoGeodesica.r EstadoGeodesica.u_t
       EstadoGeodesica.u_theta EstadoGeodesica.u_phi EstadoGeodesica.theta].
  rewrite std_max_Rmax. unfold Rsqr.
  do 2 f_equal.
  replace 0.0 with 0 by lra. f_equal. lra.
Qed.

(** For an observer outside the horizon ([r_obs > r_s > 0]) and off the
    polar axis ([sin theta_obs <> 0], so that the division in [u^phi] is
    defined) the initial photon state has [u^t = 1/f],
    [u^theta = beta / r_obs], [u^phi = alfa / (r_obs sin theta_obs)] and
    [u^r] the negative square root of the clamped radicand; whenever the
    radicand is not negative, so that [max(0, .)] leaves it unchanged, the
    null condition [g_{mu nu} u^mu u^nu = 0] holds exactly. *)
Lemma estado_inicial_nulo :
  RayTracer.rs_ rt = MetricaSchwarzschild.rs_ (RayTracer.metrica_ rt) ->
  0 < RayTracer.rs_ rt ->
  r0 > RayTracer.rs_ rt ->
  sin theta0 <> 0 ->
  0 <= radicando (RayTracer.rs_ rt) e0 ->
  EstadoGeodesica.u_t e0 = 1 / (1 - RayTracer.rs_ rt / r0)
  /\ EstadoGeodesica.u_theta e0 = beta / r0
  /\ EstadoGeodesica.u_phi e0 = alfa / (r0 * sin theta0)
  /\ EstadoGeodesica.u_r e0
     = - sqrt (Rmax 0 (radicando (RayTracer.rs_ rt) e0))
  /\ EstadoGeodesica.u_r e0 <= 0
  /\ norma_quadrivelocidade (RayTracer.metrica_ rt) e0 = 0.
Proof.
  intros Hrs Hpos Hobs Hsin Hrad.
  pose proof u_r_estado_inicial as Hur.
  assert (Hsq : EstadoGeodesica.u_r e0 * EstadoGeodesica.u_r e0
                = radicando (RayTracer.rs_ rt) e0).
  { rewrite Hur, Rmax_right by assumption.
    rewrite Rmult_opp_opp. apply sqrt_sqrt; assumption. }
  split.
  { unfold e0, r0, RayTracer.estado_inicial, RayTracer.camera.
    cbn [EstadoGeodesica.u_t].
    replace 1.0 with 1 by lra. reflexivity. }
  split; [reflexivity|]. split; [reflexivity|].
  split; [exact Hur|].
  split; [rewrite Hur; pose proof (sqrt_pos (Rmax 0 (radicando (RayTracer.rs_ rt) e0))); lra|].
  unfold norma_quadrivelocidade.
  rewrite Rmult_assoc with (r2 := EstadoGeodesica.u_r e0), Hsq.
  unfold radicando, MetricaSchwarzschild.g_tt, MetricaSchwarzschild.g_rr,
    MetricaSchwarzschild.g_theta_theta, MetricaSchwarzschild.g_phi_phi, Rsqr.
  rewrite <- Hrs.
  assert (Hr : EstadoGeodesica.r e0 = r0) by reflexivity.
  rewrite !Hr.
  destruct (Rle_dec r0 (RayTracer.rs_ rt)) as [Hle|_]; [lra|].
  set (rs := RayTracer.rs_ rt) in *.
  assert (Hf : 1 - rs / r0 <> 0).
  { assert (rs / r0 < 1); [|lra].
    apply Rmult_lt_reg_r with r0; [lra|].
    unfold Rdiv. rewrite Rmult_assoc, Rinv_l; lra. }
  replace (1.0 - rs / r0) with (1 - rs / r0) by lra.
  replace 1.0 with 1 by lra.
  set (f := 1 - rs / r0) in *. clearbody f.
  field. exact Hf.
Qed.

End EstadoInicial.

Section EstadoInicialConcreto.

Let rs := RayTracer.rs_ tracer_padrao.

Lemma rs_positivo : 29000 < rs < 30000.
Proof. exact rs_tracer_padrao_cota. Qed.

Lemma f_equatorial : 1 - rs / (100 * rs) = 99 / 100.
Proof. pose proof rs_positivo. field. lra. Qed.

Lemma estado_inicial_equatorial alfa beta :
  RayTracer.estado_inicial tracer_equatorial alfa beta
  = EstadoGeodesica.mk 0 (100 * rs) (PI / 2) 0
      (100 / 99)
      (- sqrt (Rmax 0 (1 - 99 / 100 * (beta² + alfa²))))
      (beta / (100 * rs))
      (alfa / (100 * rs)).
Proof.
  pose proof rs_positivo as Hrs.
  unfold RayTracer.estado_inicial.
  change (RayTracer.rs_ tracer_equatorial) with rs.
  change (Camera.r_observador (RayTracer.camera_ tracer_equatorial))
    with (100.0 * rs).
  change (Camera.theta_observador (RayTracer.camera_ tracer_equatorial))
    with (PI / 2.0).
  replace (PI / 2.0) with (PI / 2) by lra.
  replace (100.0 * rs) with (100 * rs) by lra.
  rewrite sin_PI2, std_max_Rmax.
  replace (1.0 - rs / (100 * rs)) with (99 / 100)
    by (rewrite <- f_equatorial; lra).
  f_equal; try lra.
  - replace 0.0 with 0 by lra. replace 1.0 with 1 by lra.
    do 3 f_equal. unfold Rsqr. field. lra.
  - f_equal. lra.
Qed.

(** On the axis of the edge-on camera the radicand is [1]: the clamp does
    not fire and the state is null. *)
Lemma estado_inicial_nulo_witness :
  RayTracer.rs_ tracer_equatorial
  = MetricaSchwarzschild.rs_ (RayTracer.metrica_ tracer_equatorial)
  /\ 0 < RayTracer.rs_ tracer_equatorial
  /\ Camera.r_observador (RayTracer.camera tracer_equatorial)
     > RayTracer.rs_ tracer_equatorial
  /\ sin (Camera.theta_observador (RayTracer.camera tracer_equatorial)) <> 0
  /\ 0 <= radicando (RayTracer.rs_ tracer_equatorial)
            (RayTracer.estado_inicial tracer_equatorial 0 0)
  /\ norma_quadrivelocidade (RayTracer.metrica_ tracer_equatorial)
       (RayTracer.estado_inicial tracer_equatorial 0 0) = 0.
Proof.
  pose proof rs_positivo as Hrs.
  assert (H1 : RayTracer.rs_ tracer_equatorial
               = MetricaSchwarzschild.rs_ (RayTracer.metrica_ tracer_equatorial))
    by reflexivity.
  assert (H2 : 0 < RayTracer.rs_ tracer_equatorial)
    by (change (0 < rs); lra).
  assert (H3 : Camera.r_observador (RayTracer.camera tracer_equatorial)
               > RayTracer.rs_ tracer_equatorial)
    by (change (100.0 * rs > rs); lra).
  assert (Hs : sin (Camera.theta_observador
                      (RayTracer.camera tracer_equatorial)) <> 0).
  { change (sin (PI / 2.0) <> 0). replace (PI / 2.0) with (PI / 2) by lra.
    rewrite sin_PI2. lra. }
  assert (H4 : 0 <= radicando (RayTracer.rs_ tracer_equatorial)
                      (RayTracer.estado_inicial tracer_equatorial 0 0)).
  { rewrite estado_inicial_equatorial. unfold radicando.
    change (RayTracer.rs_ tracer_equatorial) with rs.
    cbn [EstadoGeodesica.r EstadoGeodesica.u_t EstadoGeodesica.u_theta
         EstadoGeodesica.u_phi EstadoGeodesica.theta].
    rewrite f_equatorial. unfold Rsqr, Rdiv. rewrite !Rmult_0_l. lra. }
  repeat (split; [assumption|]).
  apply (estado_inicial_nulo tracer_equatorial 0 0 H1 H2 H3 Hs H4).
Defined.

(** For the ray one tenth of a radian above the axis
    of the edge-on camera at [100 r_s] the radicand is negative, the clamp
    makes [u^r = 0], and the norm of the four-velocity is not zero: it
    exceeds half of the sum of the magnitudes of its four terms. *)
Lemma estado_inicial_nao_nulo :
  Camera.r_observador (RayTracer.camera tracer_equatorial)
  > RayTracer.rs_ tracer_equatorial
  /\ EstadoGeodesica.u_r raio_obliquo = 0
  /\ norma_quadrivelocidade (RayTracer.metrica_ tracer_equatorial) raio_obliquo
     <> 0
  /\ Rabs (norma_quadrivelocidade (RayTracer.metrica_ tracer_equatorial)
             raio_obliquo)
     > / 2 * escala_da_norma (RayTracer.metrica_ tracer_equatorial)
               raio_obliquo.
Proof.
  pose proof rs_positivo as Hrs.
  assert (Hrs2 : 29000 * 29000 < rs * rs) by nra.
  split; [change (100.0 * rs > rs); lra|].
  assert (He : raio_obliquo
               = EstadoGeodesica.mk 0 (100 * rs) (PI / 2) 0 (100 / 99) 0
                   (/ 10) 0).
  { unfold raio_obliquo. rewrite estado_inicial_equatorial.
    change (Camera.r_observador (RayTracer.camera tracer_equatorial))
      with (100.0 * rs).
    replace 0.1 with (/ 10) by lra. replace 100.0 with 100 by lra.
    f_equal.
    - rewrite Rmax_left.
      + rewrite sqrt_0. lra.
      + unfold Rsqr. nra.
    - field. lra.
    - lra. }
  rewrite He.
  unfold norma_quadrivelocidade, escala_da_norma,
    MetricaSchwarzschild.g_tt, MetricaSchwarzschild.g_rr,
    MetricaSchwarzschild.g_theta_theta, MetricaSchwarzschild.g_phi_phi.
  cbn [EstadoGeodesica.r EstadoGeodesica.u_t EstadoGeodesica.u_r
       EstadoGeodesica.u_theta EstadoGeodesica.u_phi EstadoGeodesica.theta].
  change (MetricaSchwarzschild.rs_ (RayTracer.metrica_ tracer_equatorial))
    with rs.
  destruct (Rle_dec (100 * rs) rs) as [Hle|_]; [lra|].
  replace (1.0 - rs / (100 * rs)) with (99 / 100)
    by (rewrite <- f_equatorial; lra).
  rewrite !Rmult_0_r, Rabs_R0, !Rplus_0_r.
  replace (- (99 / 100) * (100 / 99) * (100 / 99)) with (- (100 / 99)) by lra.
  replace (100 * rs * (100 * rs) * / 10 * / 10) with (100 * (rs * rs)) by lra.
  rewrite (Rabs_left (- (100 / 99))) by lra.
  rewrite (Rabs_right (100 * (rs * rs))) by lra.
  split; [lra|].
  split; [lra|].
  rewrite Rabs_right by lra. lra.
Qed.

End EstadoInicialConcreto.

(** ** The initial photon states of the rendered pixels *)

Section EstadoInicialDosPixels.

Let rs := RayTracer.rs_ tracer_padrao.

Lemma sin_theta_padrao : 0 < sin (PI / 3.0).
Proof. pose proof PI_RGT_0. apply sin_gt_0; lra. Qed.

(** The state built for impact parameters [alfa], [beta] by the default
    tracer: radicand, radial velocity and norm. *)
Lemma estado_inicial_padrao (alfa beta : R) :
  let e0 := RayTracer.estado_inicial tracer_padrao alfa beta in
  radicando rs e0 = 1 - 99 / 100 * (alfa * alfa + beta * beta)
  /\ (radicando rs e0 <= 0 -> EstadoGeodesica.u_r e0 = 0)
  /\ (radicando rs e0 = 1 ->
      EstadoGeodesica.u_r e0 * EstadoGeodesica.u_r e0 = 1)
  /\ norma_quadrivelocidade (RayTracer.metrica_ tracer_padrao) e0
     = - (100 / 99)
       + 100 / 99 * (EstadoGeodesica.u_r e0 * EstadoGeodesica.u_r e0)
       + beta * beta + alfa * alfa
  /\ escala_da_norma (RayTracer.metrica_ tracer_padrao) e0
     = 100 / 99
       + 100 / 99 * (EstadoGeodesica.u_r e0 * EstadoGeodesica.u_r e0)
       + beta * beta + alfa * alfa.
Proof.
  intros e0.
  pose proof rs_tracer_padrao_cota as Hrs. fold rs in Hrs.
  pose proof sin_theta_padrao as Hsin.
  pose proof (u_r_estado_inicial tracer_padrao alfa beta) as Hur.
  fold rs in Hur. fold e0 in Hur.
  assert (Hf : 1 - rs / (100 * rs) = 99 / 100) by (field; lra).
  assert (Hr : EstadoGeodesica.r e0 = 100 * rs).
  { change (EstadoGeodesica.r e0) with (100.0 * rs). lra. }
  assert (Hth : EstadoGeodesica.theta e0 = PI / 3.0) by reflexivity.
  assert (Hut : EstadoGeodesica.u_t e0 = 100 / 99).
  { change (EstadoGeodesica.u_t e0) with (1.0 / (1.0 - rs / (100.0 * rs))).
    replace (1.0 - rs / (100.0 * rs)) with (99 / 100)
      by (rewrite <- Hf; f_equal; f_equal; f_equal; lra).
    lra. }
  assert (Huth : EstadoGeodesica.u_theta e0 = beta / (100 * rs)).
  { change (EstadoGeodesica.u_theta e0) with (beta / (100.0 * rs)).
    f_equal. lra. }
  assert (Huph : EstadoGeodesica.u_phi e0 = alfa / (100 * rs * sin (PI / 3.0))).
  { change (EstadoGeodesica.u_phi e0)
      with (alfa / (100.0 * rs * sin (PI / 3.0))).
    do 3 f_equal. lra. }
  assert (Hrad : radicando rs e0
                 = 1 - 99 / 100 * (alfa * alfa + beta * beta)).
  { unfold radicando. rewrite Hr, Hth, Hut, Huth, Huph, Hf.
    unfold Rsqr. field. lra. }
  split; [exact Hrad|].
  split.
  { intros Hneg. rewrite Hur, Rmax_left by lra. rewrite sqrt_0. lra. }
  split.
  { intros H1. rewrite Hur, H1, Rmax_right by lra. rewrite sqrt_1. lra. }
  unfold norma_quadrivelocidade, escala_da_norma,
    MetricaSchwarzschild.g_tt, MetricaSchwarzschild.g_rr,
    MetricaSchwarzschild.g_theta_theta, MetricaSchwarzschild.g_phi_phi.
  change (MetricaSchwarzschild.rs_ (RayTracer.metrica_ tracer_padrao))
    with rs.
  rewrite Hr, Hth, Hut, Huth, Huph.
  destruct (Rle_dec (100 * rs) rs) as [Hle|_]; [lra|].
  replace (1.0 - rs / (100 * rs)) with (99 / 100) by (rewrite <- Hf; lra).
  set (u := EstadoGeodesica.u_r e0).
  assert (E1 : - (99 / 100) * (100 / 99) * (100 / 99) = - (100 / 99))
    by lra.
  assert (E2 : 1.0 / (99 / 100) * u * u = 100 / 99 * (u * u)) by lra.
  assert (E3 : 100 * rs * (100 * rs) * (beta / (100 * rs))
               * (beta / (100 * rs)) = beta * beta) by (field; lra).
  assert (E4 : 100 * rs * (100 * rs) * sin (PI / 3.0) * sin (PI / 3.0)
               * (alfa / (100 * rs * sin (PI / 3.0)))
               * (alfa / (100 * rs * sin (PI / 3.0))) = alfa * alfa)
    by (field; lra).
  rewrite E1, E2, E3, E4.
  split; [reflexivity|].
  assert (Hu2 : 0 <= u * u) by nra.
  assert (Ha2 : 0 <= alfa * alfa) by nra.
  assert (Hb2 : 0 <= beta * beta) by nra.
  rewrite (Rabs_left (- (100 / 99))) by lra.
  rewrite (Rabs_right (100 / 99 * (u * u))) by lra.
  rewrite (Rabs_right (beta * beta)) by lra.
  rewrite (Rabs_right (alfa * alfa)) by lra.
  lra.
Qed.

(** One column or one row off the centre is an impact parameter of more
    than 2700 m. *)
Lemma alfa_do_pixel_padrao (i : Z) :
  alfa_do_pixel tracer_padrao i = (IZR i - 400) * (PI * rs / 32).
Proof.
  unfold alfa_do_pixel.
  change (Camera.largura (RayTracer.camera_ tracer_padrao)) with 800%Z.
  change (Camera.fov_horizontal (RayTracer.camera_ tracer_padrao))
    with (PI / 4.0).
  change (Camera.r_observador (RayTracer.camera_ tracer_padrao))
    with (100.0 * rs).
  lra.
Qed.

Lemma beta_do_pixel_padrao (j : Z) :
  beta_do_pixel tracer_padrao j = (IZR j - 300) * (PI * rs / 24).
Proof.
  unfold beta_do_pixel.
  change (Camera.altura (RayTracer.camera_ tracer_padrao)) with 600%Z.
  change (Camera.fov_vertical (RayTracer.camera_ tracer_padrao))
    with (PI / 4.0).
  change (Camera.r_observador (RayTracer.camera_ tracer_padrao))
    with (100.0 * rs).
  lra.
Qed.

Lemma fora_do_centro (n c : Z) (k : R) :
  n <> c -> 0 < k -> k * k <= (IZR n - IZR c) * k * ((IZR n - IZR c) * k).
Proof.
  intros Hn Hk.
  assert (H : (n <= c - 1 \/ c + 1 <= n)%Z) by lia.
  assert (H1 : 1 <= (IZR n - IZR c) * (IZR n - IZR c)).
  { destruct H as [H|H]; apply IZR_le in H;
      [rewrite minus_IZR in H | rewrite plus_IZR in H]; nra. }
  assert (Hk2 : 0 < k * k) by nra.
  replace ((IZR n - IZR c) * k * ((IZR n - IZR c) * k))
    with ((IZR n - IZR c) * (IZR n - IZR c) * (k * k)) by ring.
  nra.
Qed.

(** C3. The states the renderer constructs, for ten solar masses and the
    default camera (observer at [100 r_s], [theta_obs = pi/3], field of view
    [pi/4], 800 by 600 pixels). The ray of pixel [(i, j)] starts from
    [estado_inicial] at the impact parameters [alfa_do_pixel],
    [beta_do_pixel]. For the centre pixel [(400, 300)] the radicand is [1],
    the clamp does not fire and the null condition holds. For every other
    pixel the radicand [1 - f (alfa^2 + beta^2)] is negative, the clamp
    makes [u^r = 0], and the norm [g_{mu nu} u^mu u^nu] is
    [alfa^2 + beta^2 - 1/f > 7000000], more than half of the sum of the
    magnitudes of its terms: the null condition does not hold at
    construction. *)
Theorem estado_inicial_dos_pixels (i j : Z) :
  let alfa := alfa_do_pixel tracer_padrao i in
  let beta := beta_do_pixel tracer_padrao j in
  let e0 := RayTracer.estado_inicial tracer_padrao alfa beta in
  let m := RayTracer.metrica_ tracer_padrao in
  RayTracer.cor_do_pixel tracer_padrao j i
  = ResultadoRaio.cor (RayTracer.tracar_raio tracer_padrao alfa beta)
  /\ Camera.r_observador (RayTracer.camera tracer_padrao)
     > RayTracer.rs_ tracer_padrao
  /\ sin (Camera.theta_observador (RayTracer.camera tracer_padrao)) <> 0
  /\ (i = 400%Z /\ j = 300%Z ->
      radicando (RayTracer.rs_ tracer_padrao) e0 = 1
      /\ norma_quadrivelocidade m e0 = 0)
  /\ (i <> 400%Z \/ j <> 300%Z ->
      radicando (RayTracer.rs_ tracer_padrao) e0 < 0
      /\ EstadoGeodesica.u_r e0 = 0
      /\ norma_quadrivelocidade m e0
         = alfa * alfa + beta * beta - 100 / 99
      /\ 7000000 < norma_quadrivelocidade m e0
      /\ Rabs (norma_quadrivelocidade m e0) > / 2 * escala_da_norma m e0).
Proof.
  intros alfa beta e0 m.
  pose proof rs_tracer_padrao_cota as Hrs. fold rs in Hrs.
  pose proof PI2_3_2 as Hpi3. pose proof sin_theta_padrao as Hsin.
  destruct (estado_inicial_padrao alfa beta)
    as (Hrad & Hneg & Hum & Hnorma & Hescala).
  fold e0 in Hrad, Hneg, Hum, Hnorma, Hescala.
  fold m in Hnorma, Hescala. fold rs.
  split; [reflexivity|].
  split; [change (100.0 * rs > rs); lra|].
  split; [change (sin (PI / 3.0) <> 0); lra|].
  split.
  - intros [-> ->].
    assert (Ha : alfa = 0) by (unfold alfa; rewrite alfa_do_pixel_padrao; lra).
    assert (Hb : beta = 0) by (unfold beta; rewrite beta_do_pixel_padrao; lra).
    assert (H1 : radicando rs e0 = 1) by (rewrite Hrad, Ha, Hb; lra).
    split; [exact H1|].
    rewrite Hnorma, (Hum H1), Ha, Hb. lra.
  - intros Hij.
    assert (Hka : 2700 < PI * rs / 32) by nra.
    assert (Hkb : 2700 < PI * rs / 24) by nra.
    assert (Ha2 : 0 <= alfa * alfa) by nra.
    assert (Hb2 : 0 <= beta * beta) by nra.
    assert (Hsoma : 7290000 < alfa * alfa + beta * beta).
    { destruct Hij as [Hi|Hj].
      - pose proof (fora_do_centro i 400 (PI * rs / 32) Hi ltac:(lra)) as H.
        unfold alfa at 1 2. rewrite alfa_do_pixel_padrao. nra.
      - pose proof (fora_do_centro j 300 (PI * rs / 24) Hj ltac:(lra)) as H.
        unfold beta at 1 2. rewrite beta_do_pixel_padrao. nra. }
    assert (Hr : radicando rs e0 < 0) by (rewrite Hrad; lra).
    assert (Hu : EstadoGeodesica.u_r e0 = 0) by (apply Hneg; lra).
    split; [exact Hr|]. split; [exact Hu|].
    rewrite Hnorma, Hescala, Hu.
    split; [lra|]. split; [lra|].
    rewrite Rabs_right by lra. lra.
Qed.

End EstadoInicialDosPixels.

(** ** The polar-angle correction *)

Section ReflexaoPolar.

Lemma manter_theta_casos (e : EstadoGeodesica.estado) :
  let th := EstadoGeodesica.theta e in
  let u := EstadoGeodesica.u_theta e in
  let e' := RayTracer.manter_theta e in
  (th < 0 -> - th > PI ->
   EstadoGeodesica.theta e' = 2 * PI + th /\ EstadoGeodesica.u_theta e' = u)
  /\ (th < 0 -> ~ - th > PI ->
      EstadoGeodesica.theta e' = - th /\ EstadoGeodesica.u_theta e' = - u)
  /\ (~ th < 0 -> th > PI ->
      EstadoGeodesica.theta e' = 2 * PI - th
      /\ EstadoGeodesica.u_theta e' = - u)
  /\ (~ th < 0 -> ~ th > PI ->
      EstadoGeodesica.theta e' = th /\ EstadoGeodesica.u_theta e' = u).
Proof.
  intros th u e'. unfold e', RayTracer.manter_theta, Rgtb, M_PI.
  fold th u.
  replace 0.0 with 0 by lra.
  destruct (Rltb th 0) eqn:E1;
    cbn [EstadoGeodesica.theta EstadoGeodesica.u_theta];
    [apply Rltb_true in E1 | apply Rltb_false in E1].
  - destruct (Rltb PI (- th)) eqn:E2;
      cbn [EstadoGeodesica.theta EstadoGeodesica.u_theta];
      [apply Rltb_true in E2 | apply Rltb_false in E2];
      repeat split; intros; try lra.
  - fold th. destruct (Rltb PI th) eqn:E2;
      cbn [EstadoGeodesica.theta EstadoGeodesica.u_theta]; fold th u;
      [apply Rltb_true in E2 | apply Rltb_false in E2];
      repeat split; intros; try lra.
Qed.

(** C5, amended.  For every polar angle in [[-2 pi, 2 pi]] and every
    [u^theta], the correction returns an angle in [[0, pi]]; [u^theta] is
    negated when exactly one of the two reflections applies (angle in
    [[-pi, 0)] or in [(pi, 2 pi]]) and is returned unchanged when none
    applies (angle in [[0, pi]]) or both do (angle in [[-2 pi, -pi)]). *)
Theorem manter_theta_intervalo (e : EstadoGeodesica.estado) :
  - (2 * PI) <= EstadoGeodesica.theta e <= 2 * PI ->
  let e' := RayTracer.manter_theta e in
  0 <= EstadoGeodesica.theta e' <= PI
  /\ (- PI <= EstadoGeodesica.theta e < 0 \/ PI < EstadoGeodesica.theta e ->
      EstadoGeodesica.u_theta e' = - EstadoGeodesica.u_theta e)
  /\ (0 <= EstadoGeodesica.theta e <= PI \/ EstadoGeodesica.theta e < - PI ->
      EstadoGeodesica.u_theta e' = EstadoGeodesica.u_theta e).
Proof.
  intros Hth e'.
  pose proof PI_RGT_0 as Hpi.
  destruct (manter_theta_casos e) as (H1 & H2 & H3 & H4).
  fold e' in H1, H2, H3, H4.
  destruct (Rlt_dec (EstadoGeodesica.theta e) 0) as [Hn|Hn].
  - destruct (Rgt_dec (- EstadoGeodesica.theta e) PI) as [Hg|Hg].
    + destruct (H1 Hn Hg) as [-> ->].
      repeat split; try lra; intros [?|?]; lra.
    + destruct (H2 Hn Hg) as [-> ->].
      repeat split; try lra; intros [?|?]; lra.
  - destruct (Rgt_dec (EstadoGeodesica.theta e) PI) as [Hg|Hg].
    + destruct (H3 Hn Hg) as [-> ->].
      repeat split; try lra; intros [?|?]; lra.
    + destruct (H4 Hn Hg) as [-> ->].
      repeat split; try lra; intros [?|?]; lra.
Qed.

(** C5, witness.  The angle [-1] is reflected once, to [1]. *)
Lemma manter_theta_intervalo_witness :
  - (2 * PI) <= EstadoGeodesica.theta (EstadoGeodesica.mk 0 1 (-1) 0 1 0 1 0)
              <= 2 * PI
  /\ 0 <= EstadoGeodesica.theta
            (RayTracer.manter_theta (EstadoGeodesica.mk 0 1 (-1) 0 1 0 1 0))
       <= PI.
Proof.
  assert (H : - (2 * PI)
              <= EstadoGeodesica.theta (EstadoGeodesica.mk 0 1 (-1) 0 1 0 1 0)
              <= 2 * PI).
  { pose proof PI2_1. simpl. lra. }
  split; [exact H|].
  exact (proj1 (manter_theta_intervalo (EstadoGeodesica.mk 0 1 (-1) 0 1 0 1 0) H)).
Defined.

(** C5, counterexample.  The angle [9 > 2 pi] is sent to [2 pi - 9 < 0],
    outside [[0, pi]]; and the angle [-5 < -pi] is reflected twice, so a
    reflection occurs and [u^theta = 1] is returned unchanged. *)
Lemma manter_theta_fora_do_intervalo :
  EstadoGeodesica.theta
    (RayTracer.manter_theta (EstadoGeodesica.mk 0 1 9 0 1 0 1 0)) < 0
  /\ EstadoGeodesica.theta (EstadoGeodesica.mk 0 1 (-5) 0 1 0 1 0) < 0
  /\ EstadoGeodesica.u_theta
       (RayTracer.manter_theta (EstadoGeodesica.mk 0 1 (-5) 0 1 0 1 0)) = 1.
Proof.
  pose proof PI_4 as Hpi. pose proof PI_RGT_0 as Hpi0.
  split; [|split].
  - destruct (manter_theta_casos (EstadoGeodesica.mk 0 1 9 0 1 0 1 0))
      as (_ & _ & H3 & _).
    cbn [EstadoGeodesica.theta EstadoGeodesica.u_theta] in H3.
    destruct H3 as [-> _]; lra.
  - simpl. lra.
  - destruct (manter_theta_casos (EstadoGeodesica.mk 0 1 (-5) 0 1 0 1 0))
      as (H1 & _).
    cbn [EstadoGeodesica.theta EstadoGeodesica.u_theta] in H1.
    destruct H1 as [_ ->]; lra.
Qed.

End ReflexaoPolar.

(** ** The camera setter *)

Section SetCamera.

Lemma set_camera_escala_aux (rt : RayTracer.t) (cam : Camera.t) :
  Camera.r_observador (RayTracer.camera (RayTracer.set_camera rt cam))
  = Camera.r_observador cam * RayTracer.rs_ rt
  /\ Camera.r_observador
       (RayTracer.camera
          (RayTracer.set_camera (RayTracer.set_camera rt cam) cam))
     = Camera.r_observador cam * RayTracer.rs_ rt.
Proof. split; reflexivity. Qed.

(** C8, amended.  Each call of [set_camera cam] first overwrites the
    stored camera with [cam] and then multiplies its observer radius by
    the Schwarzschild radius once: after one call, and equally after two
    calls with the same [cam], the stored radius is
    [cam.r_observador * r_s].  The radius is scaled twice, to
    [cam.r_observador * r_s^2], only when the stored camera itself is
    passed back to the setter. *)
Theorem set_camera_escala (rt : RayTracer.t) (cam : Camera.t) :
  let rt1 := RayTracer.set_camera rt cam in
  let rt2 := RayTracer.set_camera rt1 cam in
  let rt2' := RayTracer.set_camera rt1 (RayTracer.camera rt1) in
  Camera.r_observador (RayTracer.camera rt1)
  = Camera.r_observador cam * RayTracer.rs_ rt
  /\ Camera.r_observador (RayTracer.camera rt2)
     = Camera.r_observador cam * RayTracer.rs_ rt
  /\ rt2 = rt1
  /\ Camera.r_observador (RayTracer.camera rt2')
     = Camera.r_observador cam * (RayTracer.rs_ rt * RayTracer.rs_ rt).
Proof.
  cbn. repeat split. ring.
Qed.

(** C8, counterexample.  For ten solar masses and the default camera, two
    calls of [set_camera] with the same camera leave the stored radius at
    [100 r_s], which is not [100 r_s^2]. *)
Lemma set_camera_duas_vezes :
  Camera.r_observador
    (RayTracer.camera
       (RayTracer.set_camera
          (RayTracer.set_camera tracer_padrao Camera.padrao) Camera.padrao))
  = Camera.r_observador Camera.padrao * RayTracer.rs_ tracer_padrao
  /\ Camera.r_observador
       (RayTracer.camera
          (RayTracer.set_camera
             (RayTracer.set_camera tracer_padrao Camera.padrao)
             Camera.padrao))
     <> Camera.r_observador Camera.padrao
        * (RayTracer.rs_ tracer_padrao * RayTracer.rs_ tracer_padrao).
Proof.
  pose proof rs_tracer_padrao_cota as Hrs.
  destruct (set_camera_escala_aux tracer_padrao Camera.padrao) as [H1 H2].
  rewrite H2. split; [reflexivity|].
  change (Camera.r_observador Camera.padrao) with 100.0.
  nra.
Qed.

End SetCamera.

(** ** The accretion disk *)

Section Disco.

Lemma C_positivo : 0 < C.
Proof. unfold C, VELOCIDADE_LUZ. lra. Qed.

Lemma G_positivo : 0 < G.
Proof. unfold G, CONSTANTE_GRAVITACIONAL. lra. Qed.

Lemma MASSA_SOL_positiva : 0 < MASSA_SOL.
Proof. unfold MASSA_SOL. lra. Qed.

Lemma C2_positivo : 0 < C2.
Proof. unfold C2. pose proof C_positivo. nra. Qed.

Lemma rs_do_disco_positivo d :
  0 < DiscoAcrecao.massa_bh_ d -> 0 < rs_do_disco d.
Proof.
  intros Hm. unfold rs_do_disco.
  pose proof G_positivo. pose proof C2_positivo.
  apply Rdiv_lt_0_compat; nra.
Qed.

Lemma massa_novo ms te spin :
  0 < ms -> 0 < DiscoAcrecao.massa_bh_ (DiscoAcrecao.novo ms te spin).
Proof.
  intros Hms. cbn. pose proof MASSA_SOL_positiva. nra.
Qed.

Lemma spin_novo_baixo ms te spin :
  spin < 0.01 ->
  DiscoAcrecao.raio_interno_ (DiscoAcrecao.novo ms te spin)
  = 3 * rs_do_disco (DiscoAcrecao.novo ms te spin).
Proof.
  intros Hs. unfold DiscoAcrecao.novo, rs_do_disco.
  cbn [DiscoAcrecao.raio_interno_ DiscoAcrecao.massa_bh_].
  rewrite std_max_Rmax, std_min_Rmin.
  destruct (Rlt_dec _ _) as [_|Hn]; [lra|].
  exfalso. apply Hn.
  unfold Rmax, Rmin.
  destruct (Rle_dec spin 0.998), (Rle_dec 0.0 _); lra.
Qed.

(** The square of the Keplerian speed fraction. *)
Lemma beta_quadrado d raio :
  0 < DiscoAcrecao.massa_bh_ d -> 0 < raio ->
  let beta := DiscoAcrecao.velocidade_kepleriana d raio / C in
  0 <= beta /\ beta * beta = rs_do_disco d / (2 * raio).
Proof.
  intros Hm Hr beta.
  pose proof G_positivo as HG. pose proof C_positivo as HC.
  assert (Hq : 0 < G * DiscoAcrecao.massa_bh_ d / raio)
    by (apply Rdiv_lt_0_compat; nra).
  split.
  - unfold beta, DiscoAcrecao.velocidade_kepleriana.
    apply Rmult_le_pos; [apply sqrt_pos|].
    left. apply Rinv_0_lt_compat. exact HC.
  - unfold beta, DiscoAcrecao.velocidade_kepleriana, rs_do_disco, C2.
    set (q := G * DiscoAcrecao.massa_bh_ d / raio) in *.
    replace (sqrt q / C * (sqrt q / C)) with (sqrt q * sqrt q / (C * C))
      by (field; lra).
    rewrite sqrt_sqrt by lra.
    unfold q. replace 2.0 with 2 by lra. field. lra.
Qed.

(** C10.  For a disk built for a positive mass with spin below [0.01],
    the inner radius is [3 r_s]; for every radius [r >= r_in] the Keplerian
    speed fraction [beta = v_K / c] satisfies
    [beta^2 = r_s / (2 r) <= 1/6 < 1], so the argument of the square root
    in the Lorentz factor is positive, and for every sight angle the
    denominator [gamma (1 - beta cos phi)] and the Doppler factor are
    strictly positive. *)
Theorem fator_doppler_positivo (ms te spin raio angulo : R) :
  0 < ms -> spin < 0.01 ->
  let d := DiscoAcrecao.novo ms te spin in
  raio >= DiscoAcrecao.raio_interno d ->
  let beta := DiscoAcrecao.velocidade_kepleriana d raio / C in
  let gamma := 1 / sqrt (1 - beta * beta) in
  DiscoAcrecao.raio_interno d = 3 * rs_do_disco d
  /\ beta * beta = rs_do_disco d / (2 * raio)
  /\ beta * beta <= 1 / 6
  /\ 0 < 1 - beta * beta
  /\ 0 < gamma * (1 - beta * cos angulo)
  /\ DiscoAcrecao.fator_doppler d raio angulo
     = 1 / (gamma * (1 - beta * cos angulo))
  /\ 0 < DiscoAcrecao.fator_doppler d raio angulo.
Proof.
  intros Hms Hspin d Hraio beta gamma.
  assert (Hm : 0 < DiscoAcrecao.massa_bh_ d) by (apply massa_novo; exact Hms).
  pose proof (rs_do_disco_positivo d Hm) as Hrs.
  assert (Hin : DiscoAcrecao.raio_interno d = 3 * rs_do_disco d)
    by (apply spin_novo_baixo; exact Hspin).
  rewrite Hin in Hraio.
  assert (Hr : 0 < raio) by lra.
  destruct (beta_quadrado d raio Hm Hr) as [Hb0 Hb2]. fold beta in Hb0, Hb2.
  assert (Hsexto : beta * beta <= 1 / 6).
  { rewrite Hb2. apply Rmult_le_reg_r with (2 * raio); [lra|].
    unfold Rdiv at 1. rewrite Rmult_assoc, Rinv_l by lra. lra. }
  assert (Hb1 : beta < 1) by nra.
  assert (Hraiz : 0 < sqrt (1 - beta * beta)) by (apply sqrt_lt_R0; lra).
  assert (Hgamma : 0 < gamma).
  { unfold gamma. apply Rdiv_lt_0_compat; lra. }
  assert (Hcos : 0 < 1 - beta * cos angulo).
  { pose proof (COS_bound angulo) as [_ Hc]. nra. }
  assert (Hden : 0 < gamma * (1 - beta * cos angulo))
    by (apply Rmult_lt_0_compat; assumption).
  assert (Hd : DiscoAcrecao.fator_doppler d raio angulo
               = 1 / (gamma * (1 - beta * cos angulo))).
  { unfold DiscoAcrecao.fator_doppler. fold beta.
    replace 1.0 with 1 by lra. reflexivity. }
  assert (Hpos : 0 < 1 - beta * beta) by lra.
  repeat (split; [assumption|]).
  rewrite Hd. apply Rdiv_lt_0_compat; lra.
Qed.

(** C10, witness.  Ten solar masses, spin zero, at the inner radius, seen
    along the orbital velocity. *)
Lemma fator_doppler_positivo_witness :
  0 < 10 /\ 0 < 0.01
  /\ 0 < DiscoAcrecao.fator_doppler (DiscoAcrecao.novo 10 0.1 0)
           (DiscoAcrecao.raio_interno (DiscoAcrecao.novo 10 0.1 0)) 0.
Proof.
  assert (H1 : 0 < 10) by lra.
  assert (H2 : 0 < 0.01) by lra.
  assert (H3 : DiscoAcrecao.raio_interno (DiscoAcrecao.novo 10 0.1 0)
               >= DiscoAcrecao.raio_interno (DiscoAcrecao.novo 10 0.1 0))
    by apply Rle_refl.
  split; [exact H1|]. split; [exact H2|].
  apply (fator_doppler_positivo 10 0.1 0 _ 0 H1 H2 H3).
Defined.

End Disco.

(** ** The temperature profile *)

Section Temperatura.

Lemma std_pow_positivo x y : 0 < x -> std_pow x y = Rpower x y.
Proof. intros H. unfold std_pow. destruct (Rlt_dec 0 x); [reflexivity | lra]. Qed.

Lemma std_pow_zero y : 0 < y -> std_pow 0 y = 0.
Proof.
  intros H. unfold std_pow.
  destruct (Rlt_dec 0 0); [lra|].
  destruct (Req_dec_T 0 0); [|lra].
  destruct (Rlt_dec 0 y); [reflexivity | lra].
Qed.

Lemma Rpower_positivo x y : 0 < Rpower x y.
Proof. unfold Rpower. apply exp_pos. Qed.

Lemma sqrt_acima x : 0 <= x <= 1 -> x <= sqrt x.
Proof.
  intros [H0 H1].
  assert (Hs : sqrt x <= 1) by (rewrite <- sqrt_1; apply sqrt_le_1_alt; lra).
  pose proof (sqrt_pos x) as Hp.
  pose proof (sqrt_sqrt x H0) as Hq.
  nra.
Qed.

Variable d : DiscoAcrecao.t.
Hypothesis massa_positiva : 0 < DiscoAcrecao.massa_bh_ d.
Hypothesis taxa_positiva : 0 < DiscoAcrecao.taxa_acrecao_ d.
Hypothesis interno_positivo : 0 < DiscoAcrecao.raio_interno_ d.
Hypothesis interno_externo :
  DiscoAcrecao.raio_interno_ d < DiscoAcrecao.raio_externo_ d.

Let r_in := DiscoAcrecao.raio_interno_ d.
Let r_out := DiscoAcrecao.raio_externo_ d.

(** The characteristic temperature at the inner edge. *)
Let T_estrela : R :=
  std_pow (3.0 * G * DiscoAcrecao.massa_bh_ d * DiscoAcrecao.taxa_acrecao_ d
           / (8.0 * M_PI * DiscoAcrecao.SIGMA_SB * std_pow r_in 3))
          0.25.

Lemma cotas_dos_raios : 0 < r_in /\ r_in < r_out.
Proof. split; assumption. Qed.

Lemma T_estrela_positiva : 0 < T_estrela.
Proof.
  unfold T_estrela.
  pose proof G_positivo. pose proof PI_RGT_0.
  assert (0 < DiscoAcrecao.SIGMA_SB) by (unfold DiscoAcrecao.SIGMA_SB; lra).
  assert (Hp : 0 < std_pow r_in 3).
  { rewrite std_pow_positivo by exact interno_positivo. apply Rpower_positivo. }
  rewrite std_pow_positivo; [apply Rpower_positivo|].
  apply Rdiv_lt_0_compat.
  - assert (0 < G * DiscoAcrecao.massa_bh_ d * DiscoAcrecao.taxa_acrecao_ d)
      by (apply Rmult_lt_0_compat; [apply Rmult_lt_0_compat|]; assumption).
    lra.
  - unfold M_PI.
    assert (0 < PI * DiscoAcrecao.SIGMA_SB * std_pow r_in 3)
      by (apply Rmult_lt_0_compat; [apply Rmult_lt_0_compat|]; assumption).
    lra.
Qed.

Lemma temperatura_fora raio :
  raio < r_in \/ raio > r_out -> DiscoAcrecao.temperatura d raio = 0.
Proof.
  intros H. unfold DiscoAcrecao.temperatura, Rgtb.
  fold r_in r_out.
  destruct (Rltb raio r_in) eqn:E1; [cbn; lra|].
  destruct (Rltb r_out raio) eqn:E2; [cbn; lra|].
  apply Rltb_false in E1, E2. lra.
Qed.

Lemma temperatura_dentro raio :
  r_in <= raio <= r_out ->
  DiscoAcrecao.temperatura d raio
  = T_estrela * std_pow (raio / r_in) (-0.75)
    * std_pow (1 - sqrt (1 / (raio / r_in))) 0.25.
Proof.
  intros H. unfold DiscoAcrecao.temperatura, Rgtb.
  fold r_in r_out.
  destruct (Rltb raio r_in) eqn:E1; [apply Rltb_true in E1; lra|].
  destruct (Rltb r_out raio) eqn:E2; [apply Rltb_true in E2; lra|].
  cbn [orb]. fold T_estrela.
  replace 1.0 with 1 by lra. reflexivity.
Qed.

Lemma temperatura_na_borda_interna : DiscoAcrecao.temperatura d r_in = 0.
Proof.
  destruct cotas_dos_raios as [Hp Hio].
  rewrite temperatura_dentro by lra.
  replace (r_in / r_in) with 1 by (field; lra).
  replace (1 / 1) with 1 by lra.
  rewrite sqrt_1, Rminus_diag, std_pow_zero by lra.
  ring.
Qed.

(** The edge factor [1 - sqrt (1/x)] for [x > 1]. *)
Lemma fator_borda_cotas x :
  1 < x -> 0 < 1 - sqrt (1 / x) <= x - 1.
Proof.
  intros Hx.
  assert (Hi : 0 < 1 / x < 1).
  { split; [apply Rdiv_lt_0_compat; lra|].
    apply Rmult_lt_reg_r with x; [lra|].
    unfold Rdiv. rewrite Rmult_assoc, Rinv_l; lra. }
  assert (Hs1 : sqrt (1 / x) < 1)
    by (rewrite <- sqrt_1 at 2; apply sqrt_lt_1_alt; lra).
  assert (Hs2 : 1 / x <= sqrt (1 / x)) by (apply sqrt_acima; lra).
  assert (Hx2 : 2 - x <= 1 / x).
  { apply Rmult_le_reg_r with x; [lra|].
    unfold Rdiv at 1. rewrite Rmult_assoc, Rinv_l by lra. nra. }
  lra.
Qed.

Lemma temperatura_positiva raio :
  r_in < raio <= r_out -> 0 < DiscoAcrecao.temperatura d raio.
Proof.
  intros H. destruct cotas_dos_raios as [Hp Hio].
  rewrite temperatura_dentro by lra.
  assert (Hx : 1 < raio / r_in).
  { apply Rmult_lt_reg_r with r_in; [exact Hp|].
    unfold Rdiv. rewrite Rmult_assoc, Rinv_l; lra. }
  destruct (fator_borda_cotas _ Hx) as [Hb _].
  rewrite !std_pow_positivo by lra.
  pose proof T_estrela_positiva.
  apply Rmult_lt_0_compat; [apply Rmult_lt_0_compat|];
    try assumption; apply Rpower_positivo.
Qed.

(** Just above the inner edge the temperature is below any positive
    bound. *)
Lemma temperatura_pequena eps raio :
  0 < eps ->
  r_in < raio <= r_out ->
  raio - r_in < r_in * Rpower (eps / T_estrela) 4 ->
  DiscoAcrecao.temperatura d raio < eps.
Proof.
  intros Heps H Hperto. destruct cotas_dos_raios as [Hp Hio].
  pose proof T_estrela_positiva as HT.
  rewrite temperatura_dentro by lra.
  set (x := raio / r_in).
  assert (Hx : 1 < x).
  { unfold x. apply Rmult_lt_reg_r with r_in; [exact Hp|].
    unfold Rdiv. rewrite Rmult_assoc, Rinv_l; lra. }
  assert (Hx1 : x - 1 < Rpower (eps / T_estrela) 4).
  { apply Rmult_lt_reg_l with r_in; [exact Hp|].
    replace (r_in * (x - 1)) with (raio - r_in); [exact Hperto|].
    unfold x. field. lra. }
  destruct (fator_borda_cotas x Hx) as [Hb0 Hb1].
  set (b := 1 - sqrt (1 / x)) in *.
  rewrite !std_pow_positivo by lra.
  assert (Hq : 0 < eps / T_estrela) by (apply Rdiv_lt_0_compat; lra).
  assert (Hrad : Rpower x (-0.75) < 1).
  { rewrite <- (Rpower_O x) by lra. apply Rpower_lt; lra. }
  assert (Hborda : Rpower b 0.25 < eps / T_estrela).
  { replace (eps / T_estrela)
      with (Rpower (Rpower (eps / T_estrela) 4) 0.25).
    - apply Rlt_Rpower_l; lra.
    - rewrite Rpower_mult. replace (4 * 0.25) with 1 by lra.
      apply Rpower_1. exact Hq. }
  pose proof (Rpower_positivo x (-0.75)) as Hrad0.
  pose proof (Rpower_positivo b 0.25) as Hborda0.
  apply Rlt_le_trans with (T_estrela * 1 * (eps / T_estrela));
    [|right; field; lra].
  apply Rmult_le_0_lt_compat.
  - apply Rmult_le_pos; lra.
  - lra.
  - apply Rmult_lt_compat_l; lra.
  - exact Hborda.
Qed.

Lemma temperatura_continua_na_borda_interna :
  continuity_pt (DiscoAcrecao.temperatura d) r_in.
Proof.
  destruct cotas_dos_raios as [Hp Hio].
  pose proof T_estrela_positiva as HT.
  intros eps Heps.
  exists (r_in * Rpower (eps / T_estrela) 4). split.
  - apply Rmult_lt_0_compat; [exact Hp | apply Rpower_positivo].
  - intros raio [_ Hdist]. cbn in Hdist |- *. unfold R_dist in *.
    rewrite temperatura_na_borda_interna, Rminus_0_r.
    destruct (Rle_dec raio r_in) as [Hle|Hgt].
    + destruct Hle as [Hlt|Heq].
      * rewrite temperatura_fora by lra. rewrite Rabs_R0. lra.
      * rewrite Heq, temperatura_na_borda_interna, Rabs_R0. lra.
    + destruct (Rle_dec raio r_out) as [Hle|Hfora].
      * rewrite Rabs_right
          by (left; apply Rlt_gt, temperatura_positiva; lra).
        apply temperatura_pequena; [lra | lra |].
        rewrite Rabs_right in Hdist by lra. exact Hdist.
      * rewrite temperatura_fora by lra. rewrite Rabs_R0. lra.
Qed.

End Temperatura.

Section TemperaturaDoDiscoConstruido.

Variables ms te spin : R.
Hypothesis massa_solar_positiva : 0 < ms.
Hypothesis taxa_eddington_positiva : 0 < te.

Let d := DiscoAcrecao.novo ms te spin.

Lemma taxa_novo : 0 < DiscoAcrecao.taxa_acrecao_ d.
Proof.
  unfold d, DiscoAcrecao.novo. cbn [DiscoAcrecao.taxa_acrecao_].
  pose proof C2_positivo.
  apply Rdiv_lt_0_compat; [|lra].
  assert (0 < te * ms) by (apply Rmult_lt_0_compat; assumption).
  lra.
Qed.

(** The stored spin lies in [[0, 0.998]]. *)
Lemma spin_novo : 0 <= DiscoAcrecao.spin_ d <= 0.998.
Proof.
  unfold d, DiscoAcrecao.novo. cbn [DiscoAcrecao.spin_].
  rewrite std_max_Rmax, std_min_Rmin.
  unfold Rmax, Rmin.
  destruct (Rle_dec spin 0.998); destruct (Rle_dec 0.0 _); lra.
Qed.

(** The inner radius lies between [r_s] and [4 r_s] for every spin. *)
Lemma raio_interno_novo :
  rs_do_disco d <= DiscoAcrecao.raio_interno_ d <= 4 * rs_do_disco d.
Proof.
  pose proof (rs_do_disco_positivo d (massa_novo ms te spin massa_solar_positiva))
    as Hrs.
  pose proof spin_novo as Hs.
  unfold d, DiscoAcrecao.novo, rs_do_disco in *.
  cbn [DiscoAcrecao.raio_interno_ DiscoAcrecao.massa_bh_ DiscoAcrecao.spin_] in *.
  set (s := std_max 0.0 (std_min 0.998 spin)) in *.
  set (rs := 2.0 * G * (ms * MASSA_SOL) / C2) in *.
  destruct (Rlt_dec s 0.01) as [_|_]; [lra|].
  assert (Hq0 : 0 <= sqrt ((3.0 - s) * (1.0 + s))) by apply sqrt_pos.
  assert (Hq2 : sqrt ((3.0 - s) * (1.0 + s)) <= 2).
  { replace 2 with (sqrt (2 * 2)) by (apply sqrt_square; lra).
    apply sqrt_le_1_alt. nra. }
  split; nra.
Qed.

Lemma raios_novo :
  0 < DiscoAcrecao.raio_interno_ d
  /\ DiscoAcrecao.raio_interno_ d < DiscoAcrecao.raio_externo_ d.
Proof.
  pose proof (rs_do_disco_positivo d (massa_novo ms te spin massa_solar_positiva))
    as Hrs.
  pose proof raio_interno_novo as Hin.
  split; [lra|].
  replace (DiscoAcrecao.raio_externo_ d) with (500 * rs_do_disco d); [lra|].
  unfold d, DiscoAcrecao.novo, rs_do_disco.
  cbn [DiscoAcrecao.raio_externo_ DiscoAcrecao.massa_bh_]. lra.
Qed.

End TemperaturaDoDiscoConstruido.

(** C4, amended.  For a disk built for a positive mass and a positive
    accretion rate: the temperature is strictly positive for every radius in
    [(r_in, r_out]]; it is zero at [r_in]; it is zero for every radius
    outside [[r_in, r_out]]; and it is continuous at [r_in]. *)
Theorem temperatura_no_anel (ms te spin : R) :
  0 < ms -> 0 < te ->
  let d := DiscoAcrecao.novo ms te spin in
  (forall raio,
      DiscoAcrecao.raio_interno d < raio <= DiscoAcrecao.raio_externo d ->
      DiscoAcrecao.temperatura d raio > 0)
  /\ DiscoAcrecao.temperatura d (DiscoAcrecao.raio_interno d) = 0
  /\ (forall raio,
         raio < DiscoAcrecao.raio_interno d
         \/ raio > DiscoAcrecao.raio_externo d ->
         DiscoAcrecao.temperatura d raio = 0)
  /\ continuity_pt (DiscoAcrecao.temperatura d) (DiscoAcrecao.raio_interno d).
Proof.
  intros Hms Hte d.
  pose proof (massa_novo ms te spin Hms) as Hm.
  pose proof (taxa_novo ms te spin Hms Hte) as Ht.
  destruct (raios_novo ms te spin Hms) as [Hp Hio].
  fold d in Hm, Ht, Hp, Hio.
  unfold DiscoAcrecao.raio_interno, DiscoAcrecao.raio_externo.
  split; [|split; [|split]].
  - intros raio H. apply Rlt_gt. apply temperatura_positiva; assumption.
  - apply temperatura_na_borda_interna; assumption.
  - intros raio H. apply temperatura_fora. exact H.
  - apply temperatura_continua_na_borda_interna; assumption.
Qed.

(** C4, witness.  Ten solar masses at a tenth of the Eddington rate. *)
Lemma temperatura_no_anel_witness :
  0 < 10 /\ 0 < 0.1
  /\ DiscoAcrecao.temperatura (DiscoAcrecao.novo 10 0.1 0)
       (DiscoAcrecao.raio_interno (DiscoAcrecao.novo 10 0.1 0)) = 0.
Proof.
  assert (H1 : 0 < 10) by lra.
  assert (H2 : 0 < 0.1) by lra.
  repeat (split; [assumption|]).
  exact (proj1 (proj2 (temperatura_no_anel 10 0.1 0 H1 H2))).
Defined.

(** C4, counterexample.  For the disk of the ten-solar-mass tracer the inner
    radius lies in the closed annulus [[r_in, r_out]] and the temperature
    there is zero, not positive. *)
Lemma temperatura_nula_na_borda :
  DiscoAcrecao.raio_interno (RayTracer.disco_ tracer_padrao)
  <= DiscoAcrecao.raio_interno (RayTracer.disco_ tracer_padrao)
  <= DiscoAcrecao.raio_externo (RayTracer.disco_ tracer_padrao)
  /\ ~ DiscoAcrecao.temperatura (RayTracer.disco_ tracer_padrao)
         (DiscoAcrecao.raio_interno (RayTracer.disco_ tracer_padrao)) > 0.
Proof.
  change (RayTracer.disco_ tracer_padrao) with (DiscoAcrecao.novo 10.0 0.1 0.0).
  assert (Hms : 0 < 10.0) by lra.
  destruct (raios_novo 10.0 0.1 0.0 Hms) as [Hp Hio].
  pose proof (temperatura_na_borda_interna (DiscoAcrecao.novo 10.0 0.1 0.0)
                Hp Hio) as H0.
  unfold DiscoAcrecao.raio_interno, DiscoAcrecao.raio_externo.
  split; [lra|]. rewrite H0. lra.
Qed.

(** ** PPM export *)

Section PPM.

Lemma clamp_codigo c : std_max 0.0 (std_min 1.0 c) = clamp01 c.
Proof.
  unfold clamp01. rewrite std_max_Rmax, std_min_Rmin.
  replace 0.0 with 0 by lra. replace 1.0 with 1 by lra.
  rewrite Rmin_comm. reflexivity.
Qed.

Lemma clamp01_cotas c : 0 <= clamp01 c <= 1.
Proof.
  unfold clamp01, Rmax, Rmin.
  destruct (Rle_dec 1 c); destruct (Rle_dec 0 _); lra.
Qed.

Lemma produto_do_canal c : 0 <= clamp01 c * 255 <= 255.
Proof. pose proof (clamp01_cotas c). lra. Qed.

Lemma byte_codigo c :
  Pixel.uint8_de_double
    (arredonda_double (std_max 0.0 (std_min 1.0 c) * 255))
  = byte_truncado c.
Proof.
  rewrite clamp_codigo. unfold Pixel.uint8_de_double, Rtrunc, byte_truncado.
  destruct (arredonda_double_ate_255 _ (produto_do_canal c)) as [[H0 _] _].
  destruct (Rle_dec 0 (arredonda_double (clamp01 c * 255)));
    [reflexivity | lra].
Qed.

Lemma byte_truncado_cotas c : (0 <= byte_truncado c <= 255)%Z.
Proof.
  unfold byte_truncado.
  destruct (arredonda_double_ate_255 _ (produto_do_canal c)) as [[H0 H1] _].
  split.
  - apply Zfloor_lub. exact H0.
  - apply le_IZR.
    pose proof (Zfloor_bound (arredonda_double (clamp01 c * 255))). lra.
Qed.

(** [127.5] is a double. *)
Lemma arredonda_double_127_5 : arredonda_double (/ 2 * 255) = / 2 * 255.
Proof.
  assert (H : / 2 * 255 = IZR 255 * powerRZ 2 (- 1)).
  { change (powerRZ 2 (- 1)) with (/ (2 * 1)). rewrite Rmult_1_r. ring. }
  rewrite H. apply (arredonda_double_exato 255 1); [lia|].
  change (IZR 255 * powerRZ 2 (- (1))) with (255 * powerRZ 2 (- 1)).
  rewrite <- H, Rabs_right by lra.
  rewrite potencia_de_2_natural by lia.
  change (2 ^ (53 - 1))%Z with 4503599627370496%Z. lra.
Qed.

Lemma bytes_do_pixel p :
  [Pixel.r_byte (Pixel.clamp p); Pixel.g_byte (Pixel.clamp p);
   Pixel.b_byte (Pixel.clamp p)]
  = map (fun k => byte_truncado (canal p k)) [0; 1; 2]%nat.
Proof.
  unfold Pixel.r_byte, Pixel.g_byte, Pixel.b_byte, Pixel.clamp.
  cbn [Pixel.r Pixel.g Pixel.b map canal].
  rewrite !byte_codigo. reflexivity.
Qed.

(** Position [i * n + k] of a concatenation of blocks of length [n]. *)
Lemma nth_flat_map_uniforme {A B : Type} (f : A -> list B) (n : nat)
  (dA : A) (dB : B) : forall (l : list A) (i k : nat),
  (forall x, In x l -> List.length (f x) = n) ->
  (i < List.length l)%nat -> (k < n)%nat ->
  nth (i * n + k) (flat_map f l) dB = nth k (f (nth i l dA)) dB.
Proof.
  induction l as [|x l IH]; intros i k Hn Hi Hk; [simpl in Hi; lia|].
  assert (Hx : List.length (f x) = n) by (apply Hn; left; reflexivity).
  cbn [flat_map]. destruct i as [|i].
  - cbn [nth Nat.mul Nat.add]. rewrite app_nth1; [reflexivity | lia].
  - rewrite app_nth2 by lia.
    rewrite Hx. replace (S i * n + k - n)%nat with (i * n + k)%nat by lia.
    cbn [nth]. apply IH; [|simpl in Hi; lia | assumption].
    intros y Hy. apply Hn. right. exact Hy.
Qed.

Lemma length_flat_map_uniforme {A B : Type} (f : A -> list B) (n : nat)
  (l : list A) :
  (forall x, In x l -> List.length (f x) = n) ->
  List.length (flat_map f l) = (List.length l * n)%nat.
Proof.
  induction l as [|x l IH]; intros Hn; [reflexivity|].
  cbn [flat_map]. rewrite length_app, Hn by (left; reflexivity).
  rewrite IH by (intros; apply Hn; right; assumption).
  simpl. lia.
Qed.

Lemma corpo_ppm_linhas imagem :
  RayTracer.corpo_ppm imagem = flat_map bytes_da_linha imagem.
Proof.
  unfold RayTracer.corpo_ppm, bytes_da_linha.
  apply flat_map_ext. intros linha.
  apply flat_map_ext. intros p. apply bytes_do_pixel.
Qed.

Lemma length_bytes_da_linha linha :
  List.length (bytes_da_linha linha) = (List.length linha * 3)%nat.
Proof.
  unfold bytes_da_linha. apply length_flat_map_uniforme. reflexivity.
Qed.

(** C7, amended.  When the stream opens, the file written for a
    non-empty raster of [H] rows of [W] pixels is the header
    ["P6\n<W> <H>\n255\n"] followed by a body of exactly [3 W H] bytes;
    the byte at position [3 (j W + i) + k] is the value of channel [k] of
    pixel [(i, j)] computed as the integer part of the double product
    [clamp(c, 0, 1) * 255], the fraction of that double being dropped
    rather than rounded; every byte lies in [[0, 255]].  The rounding of
    the product counts: the double nearest to [3/255] is written as 3, see
    [byte_de_3_sobre_255]. *)
Theorem salvar_ppm_conteudo (imagem : list (list Pixel.t)) (W : nat) :
  imagem <> [] ->
  (forall linha, In linha imagem -> List.length linha = W) ->
  exists corpo,
    RayTracer.salvar_ppm imagem true
    = Some (bytes_de_string
              ("P6" ++ LF ++ decimal (Z.of_nat W) ++ " "
               ++ decimal (Z.of_nat (List.length imagem)) ++ LF
               ++ "255" ++ LF)%string
            ++ corpo)
    /\ List.length corpo = (3 * W * List.length imagem)%nat
    /\ (forall j i k,
           (j < List.length imagem)%nat -> (i < W)%nat -> (k < 3)%nat ->
           nth (3 * (j * W + i) + k) corpo 0%Z
           = byte_truncado (canal (nth i (nth j imagem []) Pixel.padrao) k))
    /\ Forall (fun b => (0 <= b <= 255)%Z) corpo.
Proof.
  intros Hne Hl.
  exists (RayTracer.corpo_ppm imagem).
  assert (Hbl : forall linha, In linha imagem ->
                  List.length (bytes_da_linha linha) = (W * 3)%nat).
  { intros linha Hin. rewrite length_bytes_da_linha, (Hl linha Hin).
    reflexivity. }
  split; [|split; [|split]].
  - unfold RayTracer.salvar_ppm, RayTracer.cabecalho_ppm. cbn [negb].
    destruct imagem as [|l0 resto]; [contradiction|].
    cbn [nth]. rewrite (Hl l0) by (left; reflexivity). reflexivity.
  - rewrite corpo_ppm_linhas.
    rewrite (length_flat_map_uniforme bytes_da_linha (W * 3)) by exact Hbl.
    lia.
  - intros j i k Hj Hi Hk.
    rewrite corpo_ppm_linhas.
    replace (3 * (j * W + i) + k)%nat with (j * (W * 3) + (i * 3 + k))%nat
      by lia.
    rewrite (nth_flat_map_uniforme bytes_da_linha (W * 3) [] 0%Z)
      by (try exact Hbl; try exact Hj; nia).
    unfold bytes_da_linha.
    rewrite (nth_flat_map_uniforme _ 3 Pixel.padrao 0%Z);
      [| reflexivity | rewrite (Hl (nth j imagem [])); [exact Hi|] | exact Hk].
    + destruct k as [|[|[|k]]]; try lia; reflexivity.
    + apply nth_In. exact Hj.
  - rewrite corpo_ppm_linhas. apply Forall_flat_map.
    apply Forall_forall. intros linha _.
    unfold bytes_da_linha. apply Forall_flat_map.
    apply Forall_forall. intros p _.
    repeat constructor; apply byte_truncado_cotas.
Qed.

(** C7, witness.  A raster of one pixel: the header is ["P6\n1 1\n255\n"] and
    the body has three bytes. *)
Lemma salvar_ppm_conteudo_witness :
  [[Pixel.mk 1 0 (/ 2)]] <> []
  /\ (forall linha, In linha [[Pixel.mk 1 0 (/ 2)]] -> List.length linha = 1%nat)
  /\ exists corpo,
       RayTracer.salvar_ppm [[Pixel.mk 1 0 (/ 2)]] true
       = Some ([80; 54; 10; 49; 32; 49; 10; 50; 53; 53; 10]%Z ++ corpo)
       /\ List.length corpo = 3%nat.
Proof.
  assert (H1 : [[Pixel.mk 1 0 (/ 2)]] <> []) by discriminate.
  assert (H2 : forall linha,
             In linha [[Pixel.mk 1 0 (/ 2)]] -> List.length linha = 1%nat).
  { intros linha [<-|[]]. reflexivity. }
  split; [exact H1|]. split; [exact H2|].
  destruct (salvar_ppm_conteudo [[Pixel.mk 1 0 (/ 2)]] 1 H1 H2)
    as (corpo & Hs & Hlen & _).
  exists corpo. split; [exact Hs | exact Hlen].
Defined.

(** C7, counterexample.  The channel value [0.5] is written as byte
    [127]: the product [0.5 * 255 = 127.5] is a double, computed without
    rounding error, and the conversion drops its fraction, while rounding
    it gives [128]. *)
Lemma byte_nao_arredondado :
  RayTracer.corpo_ppm [[Pixel.mk 0.5 0.5 0.5]] = [127; 127; 127]%Z
  /\ arredonda (clamp01 0.5 * 255) = 128%Z.
Proof.
  assert (Hc : clamp01 0.5 = / 2).
  { unfold clamp01. rewrite Rmin_right by lra. rewrite Rmax_right; lra. }
  split.
  - rewrite corpo_ppm_linhas. cbn. unfold byte_truncado.
    rewrite Hc, arredonda_double_127_5.
    repeat f_equal; apply Zfloor_eq; simpl; lra.
  - unfold arredonda. rewrite Hc. apply Zfloor_eq. simpl. lra.
Qed.

End PPM.

(** ** Row blocks *)

Section Blocos.

Local Open Scope Z_scope.

Lemma intervalo_vazio a b : b <= a -> intervalo a b = [].
Proof.
  intros H. unfold intervalo.
  replace (Z.to_nat (b - a)) with 0%nat by lia. reflexivity.
Qed.

Lemma intervalo_snoc a b : a <= b -> intervalo a (b + 1) = intervalo a b ++ [b].
Proof.
  intros H. unfold intervalo.
  replace (Z.to_nat (b + 1 - a)) with (Z.to_nat (b - a) + 1)%nat by lia.
  rewrite seq_app, map_app. cbn [seq map Nat.add]. do 2 f_equal. lia.
Qed.

Lemma In_intervalo a b k : In k (intervalo a b) <-> a <= k < b.
Proof.
  unfold intervalo. rewrite in_map_iff. split.
  - intros (n & <- & Hn). apply in_seq in Hn. lia.
  - intros H. exists (Z.to_nat (k - a)). split; [lia|].
    apply in_seq. lia.
Qed.

Lemma length_intervalo a b : List.length (intervalo a b) = Z.to_nat (b - a).
Proof. unfold intervalo. rewrite length_map, length_seq. reflexivity. Qed.

Lemma nth_intervalo a b (n : nat) :
  (n < Z.to_nat (b - a))%nat -> nth n (intervalo a b) 0 = a + Z.of_nat n.
Proof.
  intros H. unfold intervalo.
  rewrite (nth_indep _ 0 (a + Z.of_nat 0))
    by (rewrite length_map, length_seq; exact H).
  rewrite (map_nth (fun k => a + Z.of_nat k) _ 0%nat n).
  rewrite seq_nth by exact H. reflexivity.
Qed.

Lemma NoDup_intervalo a b : NoDup (intervalo a b).
Proof.
  unfold intervalo. apply Injective_map_NoDup; [|apply seq_NoDup].
  intros x y Hxy. lia.
Qed.

Lemma intervalo_app a b c :
  a <= b <= c -> intervalo a b ++ intervalo b c = intervalo a c.
Proof.
  intros [Hab Hbc].
  replace c with (b + Z.of_nat (Z.to_nat (c - b))) by lia.
  induction (Z.to_nat (c - b)) as [|n IH].
  - rewrite Z.add_0_r, (intervalo_vazio b b), app_nil_r by lia. reflexivity.
  - replace (b + Z.of_nat (S n)) with (b + Z.of_nat n + 1) by lia.
    rewrite !intervalo_snoc by lia. rewrite app_assoc, IH. reflexivity.
Qed.

(** The first [m] blocks of [q] rows each cover the rows below [m q]. *)
Lemma blocos_regulares q (m : nat) :
  0 <= q ->
  List.concat (map (fun t => intervalo (t * q) ((t + 1) * q))
              (intervalo 0 (Z.of_nat m)))
  = intervalo 0 (Z.of_nat m * q).
Proof.
  intros Hq. induction m as [|m IH].
  - reflexivity.
  - replace (Z.of_nat (S m)) with (Z.of_nat m + 1) by lia.
    rewrite intervalo_snoc, map_app, concat_app, IH by lia.
    cbn [map List.concat]. rewrite app_nil_r.
    apply intervalo_app. nia.
Qed.

Lemma In_todos_os_pixels w h j i :
  In (j, i) (todos_os_pixels w h) <-> 0 <= j < h /\ 0 <= i < w.
Proof.
  unfold todos_os_pixels. rewrite in_flat_map. split.
  - intros (j' & Hj & Hi). apply in_map_iff in Hi.
    destruct Hi as (i' & Heq & Hi). inversion Heq; subst.
    apply In_intervalo in Hj, Hi. lia.
  - intros [Hj Hi]. exists j. split; [apply In_intervalo; lia|].
    apply in_map_iff. exists i. split; [reflexivity | apply In_intervalo; lia].
Qed.

Lemma NoDup_todos_os_pixels w h : NoDup (todos_os_pixels w h).
Proof.
  unfold todos_os_pixels.
  pose proof (NoDup_intervalo 0 h) as Hnd.
  assert (Hin : forall j, In j (intervalo 0 h) -> 0 <= j < h)
    by (intros j Hj; apply In_intervalo; exact Hj).
  induction (intervalo 0 h) as [|j l IH]; [constructor|].
  cbn [flat_map]. inversion Hnd as [|? ? Hj Hl]; subst.
  apply NoDup_app.
  - apply Injective_map_NoDup; [|apply NoDup_intervalo].
    intros x y Hxy. inversion Hxy. reflexivity.
  - apply IH; [exact Hl|]. intros j' Hj'. apply Hin. right. exact Hj'.
  - intros [j' i'] H1 H2.
    apply in_map_iff in H1. destruct H1 as (i1 & Heq & _).
    inversion Heq; subst.
    apply in_flat_map in H2. destruct H2 as (j2 & Hj2 & Hi2).
    apply in_map_iff in Hi2. destruct Hi2 as (i2 & Heq2 & _).
    inversion Heq2; subst. contradiction.
Qed.

Variable rt : RayTracer.t.

Let W := Camera.largura (RayTracer.camera_ rt).
Let H := Camera.altura (RayTracer.camera_ rt).

(** With at least one thread the blocks, taken in creation order, are the
    rows [0 .. H-1] in order. *)
Lemma blocos_cobrem :
  1 <= RayTracer.num_threads_ rt -> 0 <= H ->
  List.concat (map (fun b => intervalo (fst b) (snd b)) (RayTracer.blocos rt))
  = intervalo 0 H.
Proof.
  intros HT HH. unfold RayTracer.blocos. fold H.
  set (T := RayTracer.num_threads_ rt) in *.
  rewrite Z.quot_div_nonneg by lia.
  set (q := H / T).
  assert (Hq : 0 <= q) by (apply Z.div_pos; lia).
  assert (HqT : T * q <= H) by (apply Z.mul_div_le; lia).
  replace T with (T - 1 + 1) at 1 by lia.
  rewrite intervalo_snoc, !map_app, concat_app by lia.
  cbn [map List.concat fst snd]. rewrite Z.eqb_refl, app_nil_r.
  rewrite map_map.
  rewrite (map_ext_in _ (fun t => intervalo (t * q) ((t + 1) * q))).
  - replace (T - 1) with (Z.of_nat (Z.to_nat (T - 1))) at 1 by lia.
    rewrite blocos_regulares by exact Hq.
    replace (Z.of_nat (Z.to_nat (T - 1))) with (T - 1) by lia.
    apply intervalo_app. nia.
  - intros t Ht. apply In_intervalo in Ht. cbn [fst snd].
    destruct (Z.eqb_spec t (T - 1)); [lia | reflexivity].
Qed.

Lemma escritas_app l1 l2 : escritas (l1 ++ l2) = escritas l1 ++ escritas l2.
Proof. unfold escritas. apply flat_map_app. Qed.

Lemma escritas_linha j (l : list Z) :
  escritas (map (fun i => Escreve j i) l ++ [ContaLinha])
  = map (fun i => (j, i)) l.
Proof.
  rewrite escritas_app. cbn. rewrite app_nil_r.
  induction l as [|i l IH]; [reflexivity|].
  cbn. f_equal. exact IH.
Qed.

Lemma escritas_processar_bloco a b :
  escritas (RayTracer.processar_bloco rt a b)
  = flat_map (fun j => map (fun i => (j, i)) (intervalo 0 W)) (intervalo a b).
Proof.
  unfold RayTracer.processar_bloco. fold W.
  induction (intervalo a b) as [|j l IH]; [reflexivity|].
  cbn [flat_map]. rewrite escritas_app, escritas_linha, IH. reflexivity.
Qed.

Lemma escritas_threads :
  escritas (List.concat (RayTracer.threads rt))
  = flat_map (fun j => map (fun i => (j, i)) (intervalo 0 W))
      (List.concat (map (fun b => intervalo (fst b) (snd b))
                        (RayTracer.blocos rt))).
Proof.
  unfold RayTracer.threads.
  induction (RayTracer.blocos rt) as [|b l IH]; [reflexivity|].
  cbn [map List.concat].
  rewrite escritas_app, flat_map_app, IH, escritas_processar_bloco.
  reflexivity.
Qed.

End Blocos.

(** C9.  For every requested thread count [n], also zero or negative, and
    every image height [H >= 1], the tracer configured by [set_threads n]
    renders with [max(1, n)] threads: the divisor of [linhas_por_thread] is
    not zero, thread [t < T - 1] receives the rows
    [[t * (H / T), (t + 1) * (H / T))], the last thread the rows up to [H],
    the blocks taken in order are the rows [0 .. H - 1], and the pixels
    stored by all threads are every pixel of the raster exactly once. *)
Theorem threads_particionam_linhas (rt : RayTracer.t) (n : Z) :
  (1 <= Camera.altura (RayTracer.camera_ rt))%Z ->
  let rt' := RayTracer.set_threads rt n in
  let T := RayTracer.num_threads_ rt' in
  let W := Camera.largura (RayTracer.camera_ rt') in
  let H := Camera.altura (RayTracer.camera_ rt') in
  T = Z.max 1 n
  /\ T <> 0%Z
  /\ List.length (RayTracer.threads rt') = Z.to_nat T
  /\ (forall t, (0 <= t < T)%Z ->
        nth (Z.to_nat t) (RayTracer.blocos rt') (0, 0)%Z
        = ((t * (H / T))%Z,
           if (t =? T - 1)%Z then H else ((t + 1) * (H / T))%Z))
  /\ List.concat (map (fun b => intervalo (fst b) (snd b)) (RayTracer.blocos rt'))
     = intervalo 0 H
  /\ escritas (List.concat (RayTracer.threads rt')) = todos_os_pixels W H
  /\ NoDup (escritas (List.concat (RayTracer.threads rt'))).
Proof.
  intros HH rt' T W H.
  assert (HT : (1 <= T)%Z) by (unfold T, rt'; cbn; lia).
  assert (HH' : (0 <= H)%Z) by (unfold H, rt'; cbn; lia).
  assert (Hcob : List.concat (map (fun b => intervalo (fst b) (snd b))
                                  (RayTracer.blocos rt'))
                 = intervalo 0 H)
    by (apply blocos_cobrem; assumption).
  assert (Hesc : escritas (List.concat (RayTracer.threads rt'))
                 = todos_os_pixels W H)
    by (rewrite escritas_threads, Hcob; reflexivity).
  split; [reflexivity|]. split; [lia|]. split.
  { unfold RayTracer.threads, RayTracer.blocos.
    rewrite !length_map, length_intervalo. fold T. f_equal. lia. }
  split.
  { intros t Ht. unfold RayTracer.blocos. fold T H.
    rewrite Z.quot_div_nonneg by lia.
    set (f := fun t0 : Z => _).
    rewrite (nth_indep _ (0, 0)%Z (f 0%Z))
      by (rewrite length_map, length_intervalo; lia).
    rewrite (map_nth f), nth_intervalo by lia.
    unfold f. replace (0 + Z.of_nat (Z.to_nat t))%Z with t by lia.
    reflexivity. }
  split; [exact Hcob|]. split; [exact Hesc|].
  rewrite Hesc. apply NoDup_todos_os_pixels.
Qed.

(** C9, witness.  A request for zero threads on the default raster of 600
    rows runs one thread with all the rows. *)
Lemma threads_particionam_linhas_witness :
  (1 <= Camera.altura (RayTracer.camera_ tracer_padrao))%Z
  /\ RayTracer.num_threads_ (RayTracer.set_threads tracer_padrao 0) = 1%Z
  /\ RayTracer.blocos (RayTracer.set_threads tracer_padrao 0) = [(0, 600)%Z].
Proof.
  assert (H : (1 <= Camera.altura (RayTracer.camera_ tracer_padrao))%Z)
    by (simpl; lia).
  split; [exact H|].
  destruct (threads_particionam_linhas tracer_padrao 0 H) as (HT & _).
  split; [exact HT | reflexivity].
Defined.

(** ** Schedules and the rendered image *)

Section Agenda.

Lemma intercala_Permutation {A : Type} (ts : list (list A)) (s : list A) :
  intercala ts s -> Permutation (List.concat ts) s.
Proof.
  induction 1 as [ts Hnil | ts1 a t ts2 s _ IH].
  - induction Hnil as [|t ts Ht _ IH]; [constructor|].
    subst t. exact IH.
  - rewrite concat_app in *. cbn [List.concat] in *.
    cbn [app]. apply Permutation_sym.
    apply Permutation_cons_app. apply Permutation_sym. exact IH.
Qed.

Lemma length_atualiza {A : Type} (f : A -> A) : forall (v : list A) n,
  List.length (atualiza n f v) = List.length v.
Proof.
  induction v as [|x v IH]; intros [|n]; cbn; try reflexivity.
  rewrite IH. reflexivity.
Qed.

Lemma nth_atualiza_mesmo {A : Type} (f : A -> A) (d : A) :
  forall (v : list A) n,
  (n < List.length v)%nat -> nth n (atualiza n f v) d = f (nth n v d).
Proof.
  induction v as [|x v IH]; intros [|n] Hn; cbn in *; try lia.
  - reflexivity.
  - apply IH. lia.
Qed.

Lemma nth_atualiza_outro {A : Type} (f : A -> A) (d : A) :
  forall (v : list A) n m,
  n <> m -> nth m (atualiza n f v) d = nth m v d.
Proof.
  induction v as [|x v IH]; intros [|n] [|m] Hnm; cbn; try reflexivity.
  - contradiction.
  - apply IH. lia.
Qed.

Lemma atualiza_fora {A : Type} (f : A -> A) : forall (v : list A) n,
  (List.length v <= n)%nat -> atualiza n f v = v.
Proof.
  induction v as [|x v IH]; intros [|n] Hn; cbn in *; try reflexivity; try lia.
  rewrite IH by lia. reflexivity.
Qed.

(** Two rasters of the same shape with the same pixels are equal. *)
Lemma imagens_iguais W H a b :
  forma W H a -> forma W H b ->
  (forall j i, (j < H)%nat -> (i < W)%nat -> pixel_em a j i = pixel_em b j i) ->
  a = b.
Proof.
  intros [Ha1 Ha2] [Hb1 Hb2] Hpx.
  apply (nth_ext a b [] []); [congruence|].
  intros j Hj. rewrite Ha1 in Hj.
  apply (nth_ext _ _ Pixel.padrao Pixel.padrao).
  - rewrite Ha2, Hb2 by exact Hj. reflexivity.
  - intros i Hi. rewrite Ha2 in Hi by exact Hj. apply Hpx; assumption.
Qed.

End Agenda.

Section Execucao.

Variable rt : RayTracer.t.
Variables W H : nat.

Lemma forma_executar st a :
  forma W H (imagem st) -> forma W H (imagem (RayTracer.executar rt st a)).
Proof.
  intros [Hl Hr]. destruct a as [j i|]; cbn [RayTracer.executar]; [|split; assumption].
  destruct ((0 <=? j)%Z && (0 <=? i)%Z); [|split; assumption].
  cbn [imagem]. split.
  - rewrite length_atualiza. exact Hl.
  - intros j' Hj'.
    destruct (Nat.eq_dec (Z.to_nat j) j') as [<-|Hne].
    + rewrite nth_atualiza_mesmo by lia. rewrite length_atualiza.
      apply Hr. exact Hj'.
    + rewrite nth_atualiza_outro by exact Hne. apply Hr. exact Hj'.
Qed.

Lemma forma_fold acoes : forall st,
  forma W H (imagem st) ->
  forma W H (imagem (fold_left (RayTracer.executar rt) acoes st)).
Proof.
  induction acoes as [|a acoes IH]; intros st Hst; [exact Hst|].
  cbn [fold_left]. apply IH. apply forma_executar. exact Hst.
Qed.

(** A stored pixel holds the colour of its ray; the others are untouched. *)
Lemma pixel_executar_escreve st j0 i0 j i :
  forma W H (imagem st) -> (j < H)%nat -> (i < W)%nat ->
  pixel_em (imagem (RayTracer.executar rt st (Escreve j0 i0))) j i
  = if Z.eq_dec j0 (Z.of_nat j) then
      if Z.eq_dec i0 (Z.of_nat i) then RayTracer.cor_do_pixel rt j0 i0
      else pixel_em (imagem st) j i
    else pixel_em (imagem st) j i.
Proof.
  intros [Hl Hr] Hj Hi. cbn [RayTracer.executar].
  destruct (Z.leb_spec 0 j0); destruct (Z.leb_spec 0 i0); cbn [andb];
    try (destruct (Z.eq_dec j0 (Z.of_nat j));
         destruct (Z.eq_dec i0 (Z.of_nat i)); try reflexivity; lia).
  cbn [imagem]. unfold pixel_em.
  destruct (Z.eq_dec j0 (Z.of_nat j)) as [Ej|Ej].
  - replace (Z.to_nat j0) with j by lia.
    rewrite nth_atualiza_mesmo by lia.
    destruct (Z.eq_dec i0 (Z.of_nat i)) as [Ei|Ei].
    + replace (Z.to_nat i0) with i by lia.
      rewrite nth_atualiza_mesmo by (rewrite Hr; lia). reflexivity.
    + rewrite nth_atualiza_outro by lia. reflexivity.
  - rewrite nth_atualiza_outro by lia. reflexivity.
Qed.

Lemma par_eq_dec (x y : Z * Z) : {x = y} + {x <> y}.
Proof. decide equality; apply Z.eq_dec. Qed.

(** After any sequence of actions a pixel holds the colour of its ray if
    the sequence stores it, and its former value otherwise. *)
Lemma pixel_fold j i : forall acoes st,
  forma W H (imagem st) -> (j < H)%nat -> (i < W)%nat ->
  pixel_em (imagem (fold_left (RayTracer.executar rt) acoes st)) j i
  = if in_dec par_eq_dec (Z.of_nat j, Z.of_nat i) (escritas acoes)
    then RayTracer.cor_do_pixel rt (Z.of_nat j) (Z.of_nat i)
    else pixel_em (imagem st) j i.
Proof.
  induction acoes as [|a acoes IH]; intros st Hst Hj Hi; [reflexivity|].
  cbn [fold_left].
  rewrite IH by (try apply forma_executar; assumption).
  destruct a as [j0 i0|].
  - rewrite pixel_executar_escreve by assumption.
    change (escritas (Escreve j0 i0 :: acoes))
      with ((j0, i0) :: escritas acoes).
    destruct (in_dec par_eq_dec (Z.of_nat j, Z.of_nat i) (escritas acoes))
      as [Hin|Hnin];
      destruct (in_dec par_eq_dec (Z.of_nat j, Z.of_nat i)
                  ((j0, i0) :: escritas acoes)) as [Hin'|Hnin'];
      try reflexivity.
    + exfalso. apply Hnin'. right. exact Hin.
    + destruct Hin' as [Heq|Hin']; [|contradiction].
      inversion Heq; subst.
      destruct (Z.eq_dec (Z.of_nat j) (Z.of_nat j)); [|contradiction].
      destruct (Z.eq_dec (Z.of_nat i) (Z.of_nat i)); [|contradiction].
      reflexivity.
    + destruct (Z.eq_dec j0 (Z.of_nat j)) as [Ej|Ej]; [|reflexivity].
      destruct (Z.eq_dec i0 (Z.of_nat i)) as [Ei|Ei]; [|reflexivity].
      exfalso. apply Hnin'. left. subst. reflexivity.
  - reflexivity.
Qed.

End Execucao.

Section Determinismo.

(** The trace reads neither [num_threads_] nor the progress counter. *)
Lemma laco_set_threads rt n fuel : forall i I res e,
  RayTracer.laco (RayTracer.set_threads rt n) fuel i I res e
  = RayTracer.laco rt fuel i I res e.
Proof.
  induction fuel as [|fuel IH]; intros i I res e; [reflexivity|].
  cbn [RayTracer.laco]. unfold RayTracer.set_threads at 1 2 3 4 5 6 7 8.
  cbn [RayTracer.rs_ RayTracer.tolerancia_horizonte_ RayTracer.disco_
       RayTracer.camera_ RayTracer.usar_fundo_ RayTracer.passo_inicial_].
  rewrite IH. reflexivity.
Qed.

Lemma cor_do_pixel_set_threads rt n j i :
  RayTracer.cor_do_pixel (RayTracer.set_threads rt n) j i
  = RayTracer.cor_do_pixel rt j i.
Proof.
  unfold RayTracer.cor_do_pixel, RayTracer.tracar_raio.
  rewrite laco_set_threads. reflexivity.
Qed.

Variable rt : RayTracer.t.

Let W := Camera.largura (RayTracer.camera rt).
Let H := Camera.altura (RayTracer.camera rt).

Lemma forma_render_inicial :
  forma (Z.to_nat W) (Z.to_nat H) (imagem (RayTracer.render_inicial rt)).
Proof.
  unfold RayTracer.render_inicial. cbn [imagem]. fold W H. split.
  - apply repeat_length.
  - intros j Hj.
    rewrite (nth_indep _ [] (repeat Pixel.padrao (Z.to_nat W)))
      by (rewrite repeat_length; exact Hj).
    rewrite nth_repeat. apply repeat_length.
Qed.

Lemma forma_imagem_dos_raios :
  forma (Z.to_nat W) (Z.to_nat H) (imagem_dos_raios rt).
Proof.
  unfold imagem_dos_raios. fold W H. split.
  - rewrite length_map, length_intervalo. f_equal. lia.
  - intros j Hj.
    set (f := fun j0 : Z => _).
    rewrite (nth_indep _ [] (f 0%Z))
      by (rewrite length_map, length_intervalo; lia).
    rewrite (map_nth f). unfold f.
    rewrite length_map, length_intervalo. f_equal. lia.
Qed.

Lemma pixel_imagem_dos_raios j i :
  (j < Z.to_nat H)%nat -> (i < Z.to_nat W)%nat ->
  pixel_em (imagem_dos_raios rt) j i
  = RayTracer.cor_do_pixel rt (Z.of_nat j) (Z.of_nat i).
Proof.
  intros Hj Hi. unfold pixel_em, imagem_dos_raios. fold W H.
  set (f := fun j0 : Z => _).
  rewrite (nth_indep _ [] (f 0%Z))
    by (rewrite length_map, length_intervalo; lia).
  rewrite (map_nth f), nth_intervalo by lia. unfold f.
  set (g := fun i0 : Z => _).
  rewrite (nth_indep _ Pixel.padrao (g 0%Z))
    by (rewrite length_map, length_intervalo; lia).
  rewrite (map_nth g), nth_intervalo by lia. unfold g.
  reflexivity.
Qed.

(** Any schedule of the threads' actions yields the raster of the rays. *)
Lemma renderizar_agenda n agenda :
  (0 <= H)%Z ->
  intercala (RayTracer.threads (RayTracer.set_threads rt n)) agenda ->
  RayTracer.renderizar (RayTracer.set_threads rt n) agenda
  = imagem_dos_raios rt.
Proof.
  intros HH Hag.
  set (rt' := RayTracer.set_threads rt n) in *.
  assert (Hesc : escritas (List.concat (RayTracer.threads rt'))
                 = todos_os_pixels W H).
  { unfold rt'. rewrite escritas_threads, blocos_cobrem;
      [reflexivity | cbn; lia | exact HH]. }
  apply intercala_Permutation in Hag.
  apply (imagens_iguais (Z.to_nat W) (Z.to_nat H)).
  - unfold RayTracer.renderizar. apply forma_fold.
    exact forma_render_inicial.
  - exact forma_imagem_dos_raios.
  - intros j i Hj Hi. unfold RayTracer.renderizar.
    rewrite (pixel_fold rt' (Z.to_nat W) (Z.to_nat H))
      by (try exact forma_render_inicial; assumption).
    rewrite pixel_imagem_dos_raios by assumption.
    destruct (in_dec _ _ _) as [_|Hnin].
    + apply cor_do_pixel_set_threads.
    + exfalso. apply Hnin.
      apply (Permutation_in _ (Permutation_flat_map _ Hag)).
      fold (escritas (List.concat (RayTracer.threads rt'))).
      rewrite Hesc. apply In_todos_os_pixels. lia.
Qed.

End Determinismo.

Section AgendaSequencial.

Context {A : Type}.

Lemma intercala_thread_vazia (ts : list (list A)) (s : list A) :
  intercala ts s -> intercala ([] :: ts) s.
Proof.
  induction 1 as [ts Hnil | ts1 a t ts2 s _ IH].
  - apply intercala_fim. constructor; [reflexivity | exact Hnil].
  - apply (intercala_passo ([] :: ts1)). exact IH.
Qed.

(** Running the threads one after the other is one of the schedules. *)
Lemma intercala_sequencial (ts : list (list A)) :
  intercala ts (List.concat ts).
Proof.
  induction ts as [|t ts IH].
  - apply intercala_fim. constructor.
  - cbn [List.concat]. induction t as [|a t IHt].
    + apply intercala_thread_vazia. exact IH.
    + cbn [app]. apply (intercala_passo []). exact IHt.
Qed.

End AgendaSequencial.

(** C6.  A render is a function of the configuration alone.  For every two
    thread counts [T1, T2 >= 1] and every schedule of the worker threads'
    actions under each count, the two rasters are identical; each is the
    raster whose pixel [(i, j)] is the colour returned by the trace of the
    ray of [(i, j)], whatever the partition into row blocks and the order in
    which the threads run. *)
Theorem renderizar_deterministico (rt : RayTracer.t) (T1 T2 : Z)
  (agenda1 agenda2 : list Acao) :
  (1 <= T1)%Z -> (1 <= T2)%Z ->
  (0 <= Camera.largura (RayTracer.camera rt))%Z ->
  (0 <= Camera.altura (RayTracer.camera rt))%Z ->
  intercala (RayTracer.threads (RayTracer.set_threads rt T1)) agenda1 ->
  intercala (RayTracer.threads (RayTracer.set_threads rt T2)) agenda2 ->
  RayTracer.renderizar (RayTracer.set_threads rt T1) agenda1
  = RayTracer.renderizar (RayTracer.set_threads rt T2) agenda2
  /\ RayTracer.renderizar (RayTracer.set_threads rt T1) agenda1
     = imagem_dos_raios rt
  /\ forall j i,
       (0 <= j < Camera.altura (RayTracer.camera rt))%Z ->
       (0 <= i < Camera.largura (RayTracer.camera rt))%Z ->
       pixel_em (RayTracer.renderizar (RayTracer.set_threads rt T1) agenda1)
                (Z.to_nat j) (Z.to_nat i)
       = ResultadoRaio.cor
           (RayTracer.tracar_raio rt
              ((IZR i - IZR (Camera.largura (RayTracer.camera rt)) / 2)
               / IZR (Camera.largura (RayTracer.camera rt))
               * Camera.fov_horizontal (RayTracer.camera rt)
               * Camera.r_observador (RayTracer.camera rt))
              ((IZR j - IZR (Camera.altura (RayTracer.camera rt)) / 2)
               / IZR (Camera.altura (RayTracer.camera rt))
               * Camera.fov_vertical (RayTracer.camera rt)
               * Camera.r_observador (RayTracer.camera rt))).
Proof.
  intros _ _ HW HH Hag1 Hag2.
  pose proof (renderizar_agenda rt T1 agenda1 HH Hag1) as H1.
  pose proof (renderizar_agenda rt T2 agenda2 HH Hag2) as H2.
  split; [congruence|]. split; [exact H1|].
  intros j i Hj Hi. rewrite H1.
  rewrite pixel_imagem_dos_raios by lia.
  rewrite !Z2Nat.id by lia.
  unfold RayTracer.cor_do_pixel, RayTracer.camera.
  replace 2.0 with 2 by lra. reflexivity.
Qed.

(** C6, witness.  The one-pixel raster under one thread and under two
    threads: the schedules and the rasters coincide. *)
Lemma renderizar_deterministico_witness :
  (1 <= 1)%Z /\ (1 <= 2)%Z
  /\ (0 <= Camera.largura (RayTracer.camera tracer_um_pixel))%Z
  /\ (0 <= Camera.altura (RayTracer.camera tracer_um_pixel))%Z
  /\ intercala (RayTracer.threads (RayTracer.set_threads tracer_um_pixel 1))
       [Escreve 0 0; ContaLinha]
  /\ intercala (RayTracer.threads (RayTracer.set_threads tracer_um_pixel 2))
       [Escreve 0 0; ContaLinha]
  /\ RayTracer.renderizar (RayTracer.set_threads tracer_um_pixel 1)
       [Escreve 0 0; ContaLinha]
     = RayTracer.renderizar (RayTracer.set_threads tracer_um_pixel 2)
         [Escreve 0 0; ContaLinha].
Proof.
  assert (H1 : (1 <= 1)%Z) by lia.
  assert (H2 : (1 <= 2)%Z) by lia.
  assert (HW : (0 <= Camera.largura (RayTracer.camera tracer_um_pixel))%Z)
    by (change (0 <= 1)%Z; lia).
  assert (HH : (0 <= Camera.altura (RayTracer.camera tracer_um_pixel))%Z)
    by (change (0 <= 1)%Z; lia).
  assert (Hag1 : intercala
                   (RayTracer.threads (RayTracer.set_threads tracer_um_pixel 1))
                   [Escreve 0 0; ContaLinha]).
  { change (RayTracer.threads (RayTracer.set_threads tracer_um_pixel 1))
      with ([] ++ [Escreve 0 0; ContaLinha] :: []).
    apply intercala_passo. apply (intercala_passo []).
    apply intercala_fim. repeat constructor. }
  assert (Hag2 : intercala
                   (RayTracer.threads (RayTracer.set_threads tracer_um_pixel 2))
                   [Escreve 0 0; ContaLinha]).
  { change (RayTracer.threads (RayTracer.set_threads tracer_um_pixel 2))
      with ([[]] ++ [Escreve 0 0; ContaLinha] :: []).
    apply intercala_passo. apply (intercala_passo [[]]).
    apply intercala_fim. repeat constructor. }
  do 6 (split; [assumption|]).
  exact (proj1 (renderizar_deterministico tracer_um_pixel 1 2 _ _
                  H1 H2 HW HH Hag1 Hag2)).
Defined.

(** ** The grid loops of the background *)

Section Fundo.

(** Once the loop condition fails after [k] turns, further turns change
    nothing: [k] turns run the loop to its exit. *)
Lemma busca_linha_voltas continua teste passo : forall k n l,
  continua (avanca_l k passo l) = false ->
  busca_linha (k + n) continua teste passo l
  = busca_linha k continua teste passo l.
Proof.
  induction k as [|k IH]; intros n l Hsai.
  - cbn [avanca_l] in Hsai. destruct n; cbn; [reflexivity|].
    rewrite Hsai. reflexivity.
  - cbn [avanca_l] in Hsai. cbn [Nat.add busca_linha].
    rewrite IH by exact Hsai. reflexivity.
Qed.

(** The latitude loop leaves after its thirteen turns. *)
Lemma laco_latitude_sai :
  Rleb (avanca_l 13 (M_PI / 12.0) (- M_PI / 2.0)) (M_PI / 2.0) = false.
Proof.
  apply Rleb_false. cbn [avanca_l]. unfold M_PI.
  pose proof PI_RGT_0. lra.
Qed.

(** The longitude loop leaves after its twenty-four turns. *)
Lemma laco_longitude_sai :
  Rltb (avanca_l 24 (M_PI / 12.0) 0.0) (2.0 * M_PI) = false.
Proof.
  apply Rltb_false. cbn [avanca_l]. unfold M_PI.
  pose proof PI_RGT_0. lra.
Qed.

End Fundo.

(** ** Worked configurations *)

Section Exemplos.

(** The header of an 800 by 600 image, byte by byte: ["P6\n800 600\n255\n"]. *)
Example cabecalho_800_600 :
  bytes_de_string (RayTracer.cabecalho_ppm 800 600)
  = [80; 54; 10; 56; 48; 48; 32; 54; 48; 48; 10; 50; 53; 53; 10]%Z.
Proof. reflexivity. Qed.

(** Four threads on 600 rows: four blocks of 150 rows. *)
Example blocos_padrao :
  RayTracer.blocos tracer_padrao
  = [(0, 150); (150, 300); (300, 450); (450, 600)]%Z.
Proof. reflexivity. Qed.

(** Seven threads on 600 rows: six blocks of 85 rows, the last one takes
    the 90 rows that remain. *)
Example blocos_sete_threads :
  RayTracer.blocos (RayTracer.set_threads tracer_padrao 7)
  = [(0, 85); (85, 170); (170, 255); (255, 340); (340, 425); (425, 510);
     (510, 600)]%Z.
Proof. reflexivity. Qed.

(** More threads than rows: every thread but the last gets no row. *)
Example blocos_mais_threads_que_linhas :
  RayTracer.blocos (RayTracer.set_threads tracer_um_pixel 3)
  = [(0, 0); (0, 0); (0, 1)]%Z.
Proof. reflexivity. Qed.

(** A negative thread count is replaced by one thread. *)
Example blocos_threads_negativas :
  RayTracer.blocos (RayTracer.set_threads tracer_padrao (-2))
  = [(0, 600)]%Z.
Proof. reflexivity. Qed.

(** The actions of the only working thread of the one-pixel raster. *)
Example threads_um_pixel :
  RayTracer.threads (RayTracer.set_threads tracer_um_pixel 2)
  = [[]; [Escreve 0 0; ContaLinha]].
Proof. reflexivity. Qed.

(** Full-scale and half-scale channels. *)
Example bytes_de_um_pixel :
  RayTracer.corpo_ppm [[Pixel.mk 1 0 (/ 2)]] = [255; 0; 127]%Z.
Proof.
  rewrite corpo_ppm_linhas. cbn. unfold byte_truncado, clamp01.
  repeat f_equal; apply Zfloor_eq.
  - rewrite Rmin_left, Rmax_right by lra. rewrite Rmult_1_l.
    destruct (arredonda_double_ate_255 255 ltac:(lra)) as (_ & _ & Hlo & Hhi).
    specialize (Hlo 255%Z ltac:(lra)). specialize (Hhi 255%Z ltac:(lra)).
    simpl. lra.
  - rewrite Rmin_right, Rmax_left by lra. rewrite Rmult_0_l.
    unfold arredonda_double. destruct (Req_dec_T 0 0); [simpl; lra|].
    contradiction.
  - rewrite Rmin_right, Rmax_right by lra.
    rewrite arredonda_double_127_5. simpl. lra.
Qed.

End Exemplos.

(** * Further properties of the code *)

(** Decimal literals as quotients of integers, for [field]. *)
Ltac decimais :=
  unfold Q2R in *;
  cbn [QArith_base.Qnum QArith_base.Qden] in *.

(** ** The Schwarzschild metric *)

Section MetricaExterior.

Variable m : MetricaSchwarzschild.t.
Hypothesis rs_positivo_m : 0 < MetricaSchwarzschild.rs_ m.

Let rs := MetricaSchwarzschild.rs_ m.

Lemma fator_metrico r : rs < r -> 0 < 1 - rs / r < 1.
Proof.
  intros Hr. assert (Hrs : 0 < rs) by exact rs_positivo_m.
  assert (H0 : 0 < rs / r) by (apply Rdiv_lt_0_compat; lra).
  assert (H1 : rs / r < 1).
  { apply Rmult_lt_reg_r with r; [lra|].
    unfold Rdiv. rewrite Rmult_assoc, Rinv_l; lra. }
  lra.
Qed.

(** X1.  Outside the horizon the time and radial components of the metric
    have opposite signs and are inverse to each other:
    [g_tt < 0 < g_rr], [g_tt * g_rr = -1] and [g_rr > 1]; at and inside
    the horizon the guards return [0] and [1e10]. *)
Theorem metrica_fora_e_dentro (r : R) :
  (rs < r ->
   MetricaSchwarzschild.g_tt m r < 0
   /\ 1 < MetricaSchwarzschild.g_rr m r
   /\ MetricaSchwarzschild.g_tt m r * MetricaSchwarzschild.g_rr m r = -1)
  /\ (r <= rs ->
      MetricaSchwarzschild.g_tt m r = 0
      /\ MetricaSchwarzschild.g_rr m r = 1e10).
Proof.
  unfold MetricaSchwarzschild.g_tt, MetricaSchwarzschild.g_rr. fold rs.
  split; intros Hr; destruct (Rle_dec r rs) as [Hle|Hgt]; try lra.
  pose proof (fator_metrico r Hr) as Hf.
  replace (1.0 - rs / r) with (1 - rs / r) by lra.
  replace 1.0 with 1 by lra.
  set (f := 1 - rs / r) in *.
  split; [lra|]. split.
  - apply Rmult_lt_reg_r with f; [lra|].
    unfold Rdiv. rewrite Rmult_assoc, Rinv_l; lra.
  - field. lra.
Qed.

(** The time-dilation factor against the metric and along the radius. *)
Lemma dilatacao_temporal_cotas (r r' : R) :
  MetricaSchwarzschild.dilatacao_temporal m r
  * MetricaSchwarzschild.dilatacao_temporal m r
  = - MetricaSchwarzschild.g_tt m r
  /\ (rs < r ->
      0 < MetricaSchwarzschild.dilatacao_temporal m r < 1)
  /\ (rs < r -> r < r' ->
      MetricaSchwarzschild.dilatacao_temporal m r
      < MetricaSchwarzschild.dilatacao_temporal m r').
Proof.
  unfold MetricaSchwarzschild.dilatacao_temporal, MetricaSchwarzschild.g_tt.
  fold rs. assert (Hrs : 0 < rs) by exact rs_positivo_m.
  split; [|split].
  - destruct (Rle_dec r rs) as [Hle|Hgt]; [lra|].
    pose proof (fator_metrico r ltac:(lra)) as Hf.
    rewrite sqrt_sqrt; lra.
  - intros Hr. destruct (Rle_dec r rs) as [Hle|Hgt]; [lra|].
    pose proof (fator_metrico r Hr) as Hf.
    replace (1.0 - rs / r) with (1 - rs / r) by lra.
    split; [apply sqrt_lt_R0; lra|].
    rewrite <- sqrt_1 at 2. apply sqrt_lt_1_alt. lra.
  - intros Hr Hr'.
    destruct (Rle_dec r rs) as [Hle|_]; [lra|].
    destruct (Rle_dec r' rs) as [Hle|_]; [lra|].
    pose proof (fator_metrico r Hr) as Hf.
    apply sqrt_lt_1_alt. split; [lra|].
    assert (rs / r' < rs / r); [|lra].
    unfold Rdiv. apply Rmult_lt_compat_l; [lra|].
    apply Rinv_lt_contravar; [nra | lra].
Qed.

(** X2.  The time-dilation factor is the square root of [-g_tt] at every
    radius, horizon and interior included; outside the horizon it lies
    strictly between [0] and [1] and grows with the radius. *)
Theorem dilatacao_temporal_metrica (r r' : R) :
  MetricaSchwarzschild.dilatacao_temporal m r
  * MetricaSchwarzschild.dilatacao_temporal m r
  = - MetricaSchwarzschild.g_tt m r
  /\ (rs < r ->
      0 < MetricaSchwarzschild.dilatacao_temporal m r < 1)
  /\ (rs < r -> r < r' ->
      MetricaSchwarzschild.dilatacao_temporal m r
      < MetricaSchwarzschild.dilatacao_temporal m r').
Proof. exact (dilatacao_temporal_cotas r r'). Qed.

(** X3.  Between two radii outside the horizon, light received farther out
    than it was emitted has a positive [redshift], light received at the
    emission radius has none, and light received farther in has a negative
    one. *)
Theorem redshift_sinal (r_emissor r_observador : R) :
  rs < r_emissor -> rs < r_observador ->
  (r_emissor < r_observador ->
   0 < MetricaSchwarzschild.redshift m r_emissor r_observador)
  /\ (r_emissor = r_observador ->
      MetricaSchwarzschild.redshift m r_emissor r_observador = 0)
  /\ (r_observador < r_emissor ->
      MetricaSchwarzschild.redshift m r_emissor r_observador < 0).
Proof.
  intros He Ho. unfold MetricaSchwarzschild.redshift.
  destruct (dilatacao_temporal_cotas r_emissor r_observador)
    as (_ & Hde & Hmono).
  destruct (dilatacao_temporal_cotas r_observador r_emissor)
    as (_ & Hdo & Hmono').
  specialize (Hde He). specialize (Hdo Ho).
  set (de := MetricaSchwarzschild.dilatacao_temporal m r_emissor) in *.
  set (do_ := MetricaSchwarzschild.dilatacao_temporal m r_observador) in *.
  replace 1.0 with 1 by lra.
  split; [|split].
  - intros Hlt. specialize (Hmono He Hlt).
    assert (1 < do_ / de); [|lra].
    apply Rmult_lt_reg_r with de; [lra|].
    unfold Rdiv. rewrite Rmult_assoc, Rinv_l; lra.
  - intros Heq. unfold de, do_. rewrite Heq. fold do_.
    unfold Rdiv. rewrite Rinv_r; lra.
  - intros Hlt. specialize (Hmono' Ho Hlt).
    assert (do_ / de < 1); [|lra].
    apply Rmult_lt_reg_r with de; [lra|].
    unfold Rdiv. rewrite Rmult_assoc, Rinv_l; lra.
Qed.

End MetricaExterior.

Section MetricaExteriorConcreta.

Let m10 := RayTracer.metrica_ tracer_padrao.

Lemma rs_m10 : 29000 < MetricaSchwarzschild.rs_ m10 < 30000.
Proof. exact rs_tracer_padrao_cota. Qed.

(** X1, witness.  Ten solar masses at a radius of one hundred kilometres. *)
Lemma metrica_fora_e_dentro_witness :
  0 < MetricaSchwarzschild.rs_ m10
  /\ MetricaSchwarzschild.rs_ m10 < 100000
  /\ MetricaSchwarzschild.g_tt m10 100000 * MetricaSchwarzschild.g_rr m10 100000
     = -1.
Proof.
  pose proof rs_m10 as Hrs.
  assert (H0 : 0 < MetricaSchwarzschild.rs_ m10) by lra.
  assert (H1 : MetricaSchwarzschild.rs_ m10 < 100000) by lra.
  split; [exact H0|]. split; [exact H1|].
  exact (proj2 (proj2 (proj1 (metrica_fora_e_dentro m10 H0 100000) H1))).
Defined.

(** X2, witness.  Ten solar masses at one hundred kilometres. *)
Lemma dilatacao_temporal_metrica_witness :
  0 < MetricaSchwarzschild.rs_ m10
  /\ MetricaSchwarzschild.rs_ m10 < 100000
  /\ 0 < MetricaSchwarzschild.dilatacao_temporal m10 100000 < 1.
Proof.
  pose proof rs_m10 as Hrs.
  assert (H0 : 0 < MetricaSchwarzschild.rs_ m10) by lra.
  assert (H1 : MetricaSchwarzschild.rs_ m10 < 100000) by lra.
  split; [exact H0|]. split; [exact H1|].
  exact (proj1 (proj2 (dilatacao_temporal_metrica m10 H0 100000 100000)) H1).
Defined.

(** X3, witness.  Light emitted at one hundred kilometres and received at
    two hundred. *)
Lemma redshift_sinal_witness :
  0 < MetricaSchwarzschild.rs_ m10
  /\ MetricaSchwarzschild.rs_ m10 < 100000
  /\ MetricaSchwarzschild.rs_ m10 < 200000
  /\ 100000 < 200000
  /\ 0 < MetricaSchwarzschild.redshift m10 100000 200000.
Proof.
  pose proof rs_m10 as Hrs.
  assert (H0 : 0 < MetricaSchwarzschild.rs_ m10) by lra.
  assert (H1 : MetricaSchwarzschild.rs_ m10 < 100000) by lra.
  assert (H2 : MetricaSchwarzschild.rs_ m10 < 200000) by lra.
  assert (H3 : 100000 < 200000) by lra.
  do 4 (split; [assumption|]).
  exact (proj1 (redshift_sinal m10 H0 100000 200000 H1 H2) H3).
Defined.

End MetricaExteriorConcreta.

(** ** Orbits and the effective potential *)

Section Orbitas.

Variable m : MetricaSchwarzschild.t.
Hypothesis rs_positivo_m : 0 < MetricaSchwarzschild.rs_ m.

Let rs := MetricaSchwarzschild.rs_ m.

(** X4.  For photons the effective potential is largest on the photon
    sphere: at every positive radius it is at most its value at
    [raio_esfera_fotons = 1.5 r_s], which is [4 L^2 / (27 r_s^2)]. *)
Theorem potencial_fotons_maximo (r L : R) :
  0 < r ->
  MetricaSchwarzschild.potencial_efetivo m r L false
  <= MetricaSchwarzschild.potencial_efetivo m
       (MetricaSchwarzschild.raio_esfera_fotons m) L false
  /\ MetricaSchwarzschild.potencial_efetivo m
       (MetricaSchwarzschild.raio_esfera_fotons m) L false
     = 4 * (L * L) / (27 * (rs * rs)).
Proof.
  intros Hr. assert (Hrs : 0 < rs) by exact rs_positivo_m.
  unfold MetricaSchwarzschild.potencial_efetivo,
    MetricaSchwarzschild.raio_esfera_fotons. fold rs. decimais.
  assert (Hpico : (10 * / 10 - rs / (15 * / 10 * rs)) * (L * L)
                  / (15 * / 10 * rs * (15 * / 10 * rs))
                  = 4 * (L * L) / (27 * (rs * rs))) by (field; lra).
  split; [|exact Hpico]. rewrite Hpico.
  replace ((10 * / 10 - rs / r) * (L * L) / (r * r))
    with ((L * L) * ((r - rs) / (r * r * r))) by (field; lra).
  replace (4 * (L * L) / (27 * (rs * rs)))
    with ((L * L) * (4 / (27 * (rs * rs)))) by (field; lra).
  apply Rmult_le_compat_l; [nra|].
  assert (Hr3 : 0 < r * r * r) by (repeat apply Rmult_lt_0_compat; lra).
  assert (Hrs2 : 0 < 27 * (rs * rs)) by nra.
  apply Rmult_le_reg_r with (r * r * r * (27 * (rs * rs))); [nra|].
  replace ((r - rs) / (r * r * r) * (r * r * r * (27 * (rs * rs))))
    with (27 * (rs * rs) * (r - rs)) by (field; lra).
  replace (4 / (27 * (rs * rs)) * (r * r * r * (27 * (rs * rs))))
    with (4 * (r * r * r)) by (field; lra).
  assert (Hfat : 4 * (r * r * r) - 27 * (rs * rs) * (r - rs)
                 = (2 * r - 3 * rs) * (2 * r - 3 * rs) * (r + 3 * rs)) by ring.
  assert (0 <= (2 * r - 3 * rs) * (2 * r - 3 * rs) * (r + 3 * rs)); [|lra].
  apply Rmult_le_pos; [|lra].
  pose proof (Rle_0_sqr (2 * r - 3 * rs)) as Hq. unfold Rsqr in Hq. exact Hq.
Qed.

(** X5.  The photon built by [foton_inicial] at a radius [r] with
    [r <> 0] and [r <> r_s], outside the horizon or inside it, has specific
    energy [1], whatever its direction. *)
Theorem foton_inicial_energia (passo r theta phi dr dtheta dphi : R) :
  r <> 0 -> r <> rs ->
  MetricaSchwarzschild.energia_especifica m r
    (EstadoGeodesica.u_t
       (IntegradorGeodesico.foton_inicial (IntegradorGeodesico.novo m passo)
          r theta phi dr dtheta dphi))
  = 1.
Proof.
  intros Hr0 Hr.
  assert (Hf : 1 - rs / r <> 0).
  { intros H0.
    assert (H : (1 - rs / r) * r = r - rs) by (field; exact Hr0).
    rewrite H0 in H. lra. }
  unfold MetricaSchwarzschild.energia_especifica,
    IntegradorGeodesico.foton_inicial.
  cbn [EstadoGeodesica.u_t IntegradorGeodesico.metrica_
       IntegradorGeodesico.novo].
  unfold MetricaSchwarzschild.raio_schwarzschild. fold rs.
  replace (1.0 - rs / r) with (1 - rs / r) by lra.
  replace 1.0 with 1 by lra.
  set (f := 1 - rs / r) in *.
  unfold Rdiv. rewrite Rmult_1_l. apply Rinv_r. exact Hf.
Qed.

End Orbitas.

(** ** Constants of motion *)

Section ConstantesDoMovimento.

Lemma deriv_linha (c a x : R) : derivable_pt_lim (fun h => c + h * a) x a.
Proof.
  intros eps Heps. exists (mkposreal 1 Rlt_0_1). intros h Hh _.
  replace ((c + (x + h) * a - (c + x * a)) / h - a) with 0 by (field; exact Hh).
  rewrite Rabs_R0. exact Heps.
Qed.

Variable m : MetricaSchwarzschild.t.
Hypothesis rs_positivo_m : 0 < MetricaSchwarzschild.rs_ m.

Variable pos : Coordenadas.
Variable vel : Quadrivelocidade.

Let rs := MetricaSchwarzschild.rs_ m.
Let k := MetricaSchwarzschild.derivadas_geodesica m pos vel.

(** X6.  The right-hand side of the geodesic equation conserves the
    specific energy to first order: outside the horizon, along the
    direction [derivadas_geodesica] gives for a state, the derivative of
    [energia_especifica] at that state is zero. *)
Theorem energia_conservada_primeira_ordem :
  rs < pos_r pos ->
  derivable_pt_lim
    (fun h =>
       MetricaSchwarzschild.energia_especifica m
         (pos_r pos + h * idx k 1) (vel_u_t vel + h * idx k 4))
    0 0.
Proof.
  intros Hr. assert (Hrs : 0 < rs) by exact rs_positivo_m.
  set (r := pos_r pos) in *. set (u := vel_u_t vel).
  assert (Hk1 : idx k 1 = vel_u_r vel) by reflexivity.
  assert (Hk4 : idx k 4
                = - 2 * (rs / (2 * r * (r - rs))) * u * vel_u_r vel).
  { unfold k, MetricaSchwarzschild.derivadas_geodesica, idx.
    cbn [nth]. unfold MetricaSchwarzschild.christoffel_t_tr.
    fold rs r u. destruct (Rle_dec r rs); [lra|].
    decimais. field. split; lra. }
  set (a := idx k 1) in *. set (b := idx k 4) in *.
  unfold MetricaSchwarzschild.energia_especifica. fold rs.
  pose (linha_r := fun h : R => r + h * a).
  pose (linha_u := fun h : R => u + h * b).
  eassert (H : derivable_pt_lim
                 ((fct_cte 1.0 - fct_cte rs / linha_r) * linha_u)%F 0 _).
  { apply derivable_pt_lim_mult.
    - apply derivable_pt_lim_minus.
      + apply derivable_pt_lim_const.
      + apply derivable_pt_lim_div.
        * apply derivable_pt_lim_const.
        * apply deriv_linha.
        * unfold linha_r. rewrite Rmult_0_l, Rplus_0_r. lra.
    - apply deriv_linha. }
  match type of H with
  | derivable_pt_lim _ _ ?l => replace l with 0 in H
  end; [exact H|].
  unfold fct_cte, minus_fct, div_fct, mult_fct, Rsqr, linha_r, linha_u.
  cbv beta. rewrite Hk4, Hk1.
  decimais. field. split; lra.
Qed.

(** X7.  The right-hand side of the geodesic equation conserves the
    specific angular momentum to first order: at a state with [r <> 0],
    away from the poles ([sin theta <> 0]) and from the equatorial plane
    ([cos theta <> 0]), along the direction [derivadas_geodesica] gives,
    the derivative of [momento_angular] is zero. *)
Theorem momento_angular_conservado_primeira_ordem :
  pos_r pos <> 0 ->
  sin (pos_theta pos) <> 0 -> cos (pos_theta pos) <> 0 ->
  derivable_pt_lim
    (fun h =>
       MetricaSchwarzschild.momento_angular
         (pos_r pos + h * idx k 1) (pos_theta pos + h * idx k 2)
         (vel_u_phi vel + h * idx k 7))
    0 0.
Proof.
  intros Hr Hsin Hcos.
  set (r := pos_r pos) in *. set (th := pos_theta pos) in *.
  set (u := vel_u_phi vel).
  assert (Hk1 : idx k 1 = vel_u_r vel) by reflexivity.
  assert (Hk2 : idx k 2 = vel_u_theta vel) by reflexivity.
  assert (Hk7 : idx k 7
                = - 2 * (1 / r) * vel_u_r vel * u
                  - 2 * (cos th / sin th) * vel_u_theta vel * u).
  { unfold k, MetricaSchwarzschild.derivadas_geodesica, idx.
    cbn [nth]. unfold MetricaSchwarzschild.christoffel_phi_r_phi,
      MetricaSchwarzschild.christoffel_phi_theta_phi, tan.
    fold r th u. decimais. field. repeat split; assumption. }
  set (a := idx k 1) in *. set (c := idx k 2) in *. set (d := idx k 7) in *.
  unfold MetricaSchwarzschild.momento_angular.
  pose (linha_r := fun h : R => r + h * a).
  pose (linha_th := fun h : R => th + h * c).
  pose (linha_u := fun h : R => u + h * d).
  eassert (H : derivable_pt_lim
                 (linha_r * linha_r * comp sin linha_th * comp sin linha_th
                  * linha_u)%F 0 _).
  { repeat apply derivable_pt_lim_mult;
      try apply deriv_linha;
      (apply derivable_pt_lim_comp;
       [apply deriv_linha | apply derivable_pt_lim_sin]). }
  match type of H with
  | derivable_pt_lim _ _ ?l => replace l with 0 in H
  end; [exact H|].
  unfold comp, mult_fct, linha_r, linha_th, linha_u.
  cbv beta. rewrite Hk7, Hk2, Hk1, !Rmult_0_l, !Rplus_0_r.
  field. split; assumption.
Qed.

End ConstantesDoMovimento.

Section OrbitasConcretas.

Let m10 := RayTracer.metrica_ tracer_padrao.

(** X4, witness.  Ten solar masses, angular momentum one, at one hundred
    kilometres. *)
Lemma potencial_fotons_maximo_witness :
  0 < MetricaSchwarzschild.rs_ m10 /\ 0 < 100000
  /\ MetricaSchwarzschild.potencial_efetivo m10 100000 1 false
     <= MetricaSchwarzschild.potencial_efetivo m10
          (MetricaSchwarzschild.raio_esfera_fotons m10) 1 false.
Proof.
  pose proof rs_m10 as Hrs.
  assert (H0 : 0 < MetricaSchwarzschild.rs_ m10) by (unfold m10; lra).
  assert (H1 : 0 < 100000) by lra.
  split; [exact H0|]. split; [exact H1|].
  exact (proj1 (potencial_fotons_maximo m10 H0 100000 1 H1)).
Defined.

(** X5, witness.  A photon started at one hundred kilometres. *)
Lemma foton_inicial_energia_witness :
  100000 <> 0
  /\ 100000 <> MetricaSchwarzschild.rs_ m10
  /\ MetricaSchwarzschild.energia_especifica m10 100000
       (EstadoGeodesica.u_t
          (IntegradorGeodesico.foton_inicial
             (IntegradorGeodesico.novo m10 0.01) 100000 1 0 (-1) 0 0))
     = 1.
Proof.
  pose proof rs_m10 as Hrs.
  assert (H0 : 100000 <> 0) by lra.
  assert (H1 : 100000 <> MetricaSchwarzschild.rs_ m10) by (unfold m10; lra).
  split; [exact H0|]. split; [exact H1|].
  exact (foton_inicial_energia m10 0.01 100000 1 0 (-1) 0 0 H0 H1).
Defined.

(** X6, witness.  An inbound state at one hundred kilometres. *)
Lemma energia_conservada_primeira_ordem_witness :
  0 < MetricaSchwarzschild.rs_ m10
  /\ MetricaSchwarzschild.rs_ m10 < pos_r (mkCoordenadas 0 100000 1 0)
  /\ derivable_pt_lim
       (fun h =>
          MetricaSchwarzschild.energia_especifica m10
            (pos_r (mkCoordenadas 0 100000 1 0)
             + h * idx (MetricaSchwarzschild.derivadas_geodesica m10
                          (mkCoordenadas 0 100000 1 0)
                          (mkQuadrivelocidade 1 (-1) 0 0)) 1)
            (vel_u_t (mkQuadrivelocidade 1 (-1) 0 0)
             + h * idx (MetricaSchwarzschild.derivadas_geodesica m10
                          (mkCoordenadas 0 100000 1 0)
                          (mkQuadrivelocidade 1 (-1) 0 0)) 4))
       0 0.
Proof.
  pose proof rs_m10 as Hrs.
  assert (H0 : 0 < MetricaSchwarzschild.rs_ m10) by (unfold m10; lra).
  assert (H1 : MetricaSchwarzschild.rs_ m10
               < pos_r (mkCoordenadas 0 100000 1 0))
    by (unfold m10; cbn [pos_r]; lra).
  split; [exact H0|]. split; [exact H1|].
  exact (energia_conservada_primeira_ordem m10 H0
           (mkCoordenadas 0 100000 1 0) (mkQuadrivelocidade 1 (-1) 0 0) H1).
Defined.

(** X7, witness.  The same radius, one radian from the pole. *)
Lemma momento_angular_conservado_primeira_ordem_witness :
  pos_r (mkCoordenadas 0 100000 1 0) <> 0
  /\ sin (pos_theta (mkCoordenadas 0 100000 1 0)) <> 0
  /\ cos (pos_theta (mkCoordenadas 0 100000 1 0)) <> 0
  /\ derivable_pt_lim
       (fun h =>
          MetricaSchwarzschild.momento_angular
            (pos_r (mkCoordenadas 0 100000 1 0)
             + h * idx (MetricaSchwarzschild.derivadas_geodesica m10
                          (mkCoordenadas 0 100000 1 0)
                          (mkQuadrivelocidade 1 (-1) 1 1)) 1)
            (pos_theta (mkCoordenadas 0 100000 1 0)
             + h * idx (MetricaSchwarzschild.derivadas_geodesica m10
                          (mkCoordenadas 0 100000 1 0)
                          (mkQuadrivelocidade 1 (-1) 1 1)) 2)
            (vel_u_phi (mkQuadrivelocidade 1 (-1) 1 1)
             + h * idx (MetricaSchwarzschild.derivadas_geodesica m10
                          (mkCoordenadas 0 100000 1 0)
                          (mkQuadrivelocidade 1 (-1) 1 1)) 7))
       0 0.
Proof.
  pose proof PI2_1 as Hpi.
  assert (H1 : pos_r (mkCoordenadas 0 100000 1 0) <> 0)
    by (cbn [pos_r]; lra).
  assert (H2 : sin (pos_theta (mkCoordenadas 0 100000 1 0)) <> 0).
  { cbn [pos_theta]. assert (0 < sin 1); [apply sin_gt_0; lra | lra]. }
  assert (H3 : cos (pos_theta (mkCoordenadas 0 100000 1 0)) <> 0).
  { cbn [pos_theta]. assert (0 < cos 1); [apply cos_gt_0; lra | lra]. }
  do 3 (split; [assumption|]).
  exact (momento_angular_conservado_primeira_ordem m10
           (mkCoordenadas 0 100000 1 0) (mkQuadrivelocidade 1 (-1) 1 1)
           H1 H2 H3).
Defined.

End OrbitasConcretas.

(** ** Components the Runge-Kutta step leaves alone *)

Section ComponentesInvariantes.

Lemma idx_para_i_ate_8 (body : nat -> R) (j : nat) :
  (j < 8)%nat -> idx (para_i_ate_8 body) j = body j.
Proof.
  intros Hj. unfold idx, para_i_ate_8.
  do 8 (destruct j as [|j]; [reflexivity|]). lia.
Qed.

Variable I : IntegradorGeodesico.t.
Variable s : EstadoGeodesica.estado.
Variable J : list nat.

Let arr := EstadoGeodesica.como_array s.

Hypothesis J_menor : forall j, In j J -> (j < 8)%nat.

(** Whenever a state agrees with [s] on the components [J], the derivative
    vanishes on [J]. *)
Hypothesis derivada_nula : forall y,
  (forall j, In j J -> idx y j = idx arr j) ->
  forall j, In j J -> idx (IntegradorGeodesico.derivs I y) j = 0.

Lemma estagio_invariante (c : R) (k : list R) :
  (forall j, In j J -> idx k j = 0) ->
  forall j, In j J ->
    idx (para_i_ate_8 (fun i => idx arr i + c * idx k i)) j = idx arr j.
Proof.
  intros Hk j Hj. rewrite idx_para_i_ate_8 by (apply J_menor; exact Hj).
  rewrite (Hk j Hj). ring.
Qed.

(** The step keeps the components [J] of the state. *)
Lemma passo_rk4_invariante : forall j, In j J ->
  idx (EstadoGeodesica.como_array (IntegradorGeodesico.passo_rk4 I s)) j
  = idx arr j.
Proof.
  intros j Hj. unfold IntegradorGeodesico.passo_rk4. fold arr.
  set (h := IntegradorGeodesico.passo_ I).
  set (k1 := IntegradorGeodesico.derivs I arr).
  assert (H1 : forall j, In j J -> idx k1 j = 0)
    by (apply derivada_nula; reflexivity).
  set (y2 := para_i_ate_8 (fun i => idx arr i + 0.5 * h * idx k1 i)).
  set (k2 := IntegradorGeodesico.derivs I y2).
  assert (H2 : forall j, In j J -> idx k2 j = 0)
    by (apply derivada_nula; apply estagio_invariante; exact H1).
  set (y3 := para_i_ate_8 (fun i => idx arr i + 0.5 * h * idx k2 i)).
  set (k3 := IntegradorGeodesico.derivs I y3).
  assert (H3 : forall j, In j J -> idx k3 j = 0)
    by (apply derivada_nula; apply estagio_invariante; exact H2).
  set (y4 := para_i_ate_8 (fun i => idx arr i + h * idx k3 i)).
  set (k4 := IntegradorGeodesico.derivs I y4).
  assert (H4 : forall j, In j J -> idx k4 j = 0)
    by (apply derivada_nula; apply estagio_invariante; exact H3).
  set (novo := para_i_ate_8 _).
  assert (Hn : idx novo j = idx arr j).
  { unfold novo. rewrite idx_para_i_ate_8 by (apply J_menor; exact Hj).
    rewrite (H1 j Hj), (H2 j Hj), (H3 j Hj), (H4 j Hj). lra. }
  rewrite <- Hn. clearbody novo.
  specialize (J_menor j Hj) as Hlt.
  unfold EstadoGeodesica.como_array, EstadoGeodesica.de_array.
  do 8 (destruct j as [|j]; [reflexivity|]). lia.
Qed.

End ComponentesInvariantes.

Section PlanoEOrbitaRadial.

Lemma manter_theta_identidade (e : EstadoGeodesica.estado) :
  0 <= EstadoGeodesica.theta e <= PI -> RayTracer.manter_theta e = e.
Proof.
  intros H. unfold RayTracer.manter_theta, Rgtb, M_PI.
  replace 0.0 with 0 by lra.
  destruct (Rltb _ 0) eqn:E1; [apply Rltb_true in E1; lra|].
  destruct (Rltb PI _) eqn:E2; [apply Rltb_true in E2; lra|].
  reflexivity.
Qed.

(** A step started with [u^theta = u^phi = 0] keeps both angles and both
    angular velocities. *)
Lemma passo_rk4_radial (I : IntegradorGeodesico.t) (e : EstadoGeodesica.estado) :
  EstadoGeodesica.u_theta e = 0 -> EstadoGeodesica.u_phi e = 0 ->
  let e' := IntegradorGeodesico.passo_rk4 I e in
  EstadoGeodesica.theta e' = EstadoGeodesica.theta e
  /\ EstadoGeodesica.phi e' = EstadoGeodesica.phi e
  /\ EstadoGeodesica.u_theta e' = 0
  /\ EstadoGeodesica.u_phi e' = 0.
Proof.
  intros Hth Hph e'.
  assert (H : forall j, In j [2; 3; 6; 7]%nat ->
            idx (EstadoGeodesica.como_array e') j
            = idx (EstadoGeodesica.como_array e) j).
  { apply passo_rk4_invariante.
    - intros j Hj. cbn in Hj. lia.
    - intros y Hy j Hj.
      pose proof (Hy 6%nat ltac:(cbn; tauto)) as H6.
      pose proof (Hy 7%nat ltac:(cbn; tauto)) as H7.
      change (idx (EstadoGeodesica.como_array e) 6)
        with (EstadoGeodesica.u_theta e) in H6.
      change (idx (EstadoGeodesica.como_array e) 7)
        with (EstadoGeodesica.u_phi e) in H7.
      rewrite Hth in H6. rewrite Hph in H7.
      unfold IntegradorGeodesico.derivs,
        MetricaSchwarzschild.derivadas_geodesica.
      cbn [pos_r pos_theta vel_u_t vel_u_r vel_u_theta vel_u_phi].
      rewrite H6, H7.
      destruct Hj as [<-|[<-|[<-|[<-|[]]]]]; unfold idx at 1; cbn [nth]; ring. }
  pose proof (H 2%nat ltac:(cbn; tauto)) as H2.
  pose proof (H 3%nat ltac:(cbn; tauto)) as H3.
  pose proof (H 6%nat ltac:(cbn; tauto)) as H6.
  pose proof (H 7%nat ltac:(cbn; tauto)) as H7.
  change (EstadoGeodesica.theta e' = EstadoGeodesica.theta e) in H2.
  change (EstadoGeodesica.phi e' = EstadoGeodesica.phi e) in H3.
  change (EstadoGeodesica.u_theta e' = EstadoGeodesica.u_theta e) in H6.
  change (EstadoGeodesica.u_phi e' = EstadoGeodesica.u_phi e) in H7.
  rewrite H6, H7. auto.
Qed.

(** A step started in the equatorial plane with [u^theta = 0] stays in it. *)
Lemma passo_rk4_equatorial (I : IntegradorGeodesico.t)
  (e : EstadoGeodesica.estado) :
  EstadoGeodesica.theta e = PI / 2 -> EstadoGeodesica.u_theta e = 0 ->
  let e' := IntegradorGeodesico.passo_rk4 I e in
  EstadoGeodesica.theta e' = PI / 2 /\ EstadoGeodesica.u_theta e' = 0.
Proof.
  intros Hth Hu e'.
  assert (H : forall j, In j [2; 6]%nat ->
            idx (EstadoGeodesica.como_array e') j
            = idx (EstadoGeodesica.como_array e) j).
  { apply passo_rk4_invariante.
    - intros j Hj. cbn in Hj. lia.
    - intros y Hy j Hj.
      pose proof (Hy 2%nat ltac:(cbn; tauto)) as H2.
      pose proof (Hy 6%nat ltac:(cbn; tauto)) as H6.
      change (idx (EstadoGeodesica.como_array e) 2)
        with (EstadoGeodesica.theta e) in H2.
      change (idx (EstadoGeodesica.como_array e) 6)
        with (EstadoGeodesica.u_theta e) in H6.
      rewrite Hth in H2. rewrite Hu in H6.
      unfold IntegradorGeodesico.derivs,
        MetricaSchwarzschild.derivadas_geodesica,
        MetricaSchwarzschild.christoffel_theta_phi_phi.
      cbn [pos_r pos_theta vel_u_t vel_u_r vel_u_theta vel_u_phi].
      rewrite H2, H6, cos_PI2.
      destruct Hj as [<-|[<-|[]]]; unfold idx at 1; cbn [nth]; ring. }
  pose proof (H 2%nat ltac:(cbn; tauto)) as H2.
  pose proof (H 6%nat ltac:(cbn; tauto)) as H6.
  change (EstadoGeodesica.theta e' = EstadoGeodesica.theta e) in H2.
  change (EstadoGeodesica.u_theta e' = EstadoGeodesica.u_theta e) in H6.
  rewrite H2, H6. auto.
Qed.

End PlanoEOrbitaRadial.

Section RaiosEspeciais.

Variable rt : RayTracer.t.

Let r_obs := Camera.r_observador (RayTracer.camera rt).
Let theta_obs := Camera.theta_observador (RayTracer.camera rt).

(** X8.  The central ray ([alfa = beta = 0]) of an observer at a positive
    radius and off the polar axis ([0 < theta_obs < pi]) is radial at every
    turn of the integration loop: the polar angle stays at the observer's,
    the azimuth at zero, and both angular velocities at zero.  When the
    observer is at least [0.01] radian off the equatorial plane, the disk
    test fails at every turn. *)
Theorem raio_central_radial (k : nat) :
  0 < r_obs -> 0 < theta_obs < PI ->
  let e := estado_na_volta rt 0 0 k in
  EstadoGeodesica.theta e = theta_obs
  /\ EstadoGeodesica.phi e = 0
  /\ EstadoGeodesica.u_theta e = 0
  /\ EstadoGeodesica.u_phi e = 0
  /\ (0.01 <= Rabs (theta_obs - PI / 2) -> ~ cruza_disco rt e).
Proof.
  intros Hr Hth'.
  assert (Hth : 0 <= theta_obs <= PI) by lra.
  assert (Hinv : EstadoGeodesica.theta (estado_na_volta rt 0 0 k) = theta_obs
                 /\ EstadoGeodesica.phi (estado_na_volta rt 0 0 k) = 0
                 /\ EstadoGeodesica.u_theta (estado_na_volta rt 0 0 k) = 0
                 /\ EstadoGeodesica.u_phi (estado_na_volta rt 0 0 k) = 0).
  { induction k as [|k IH].
    - cbn [estado_na_volta]. unfold RayTracer.estado_inicial.
      cbn [EstadoGeodesica.theta EstadoGeodesica.phi EstadoGeodesica.u_theta
           EstadoGeodesica.u_phi].
      unfold Rdiv. rewrite !Rmult_0_l. repeat split; try reflexivity. lra.
    - destruct IH as (H2 & H3 & H6 & H7).
      cbn [estado_na_volta]. unfold proximo.
      set (e := estado_na_volta rt 0 0 k) in *.
      destruct (passo_rk4_radial (integrador_da_volta rt e) e H6 H7)
        as (H2' & H3' & H6' & H7').
      rewrite manter_theta_identidade by (rewrite H2', H2; exact Hth).
      rewrite H2', H3', H6', H7'. auto. }
  destruct Hinv as (H2 & H3 & H6 & H7).
  cbv zeta. repeat (split; [assumption|]).
  intros Hfora [Hperto _]. rewrite H2 in Hperto. lra.
Qed.

(** X9.  A ray sent in the equatorial plane by an observer in that plane
    ([theta_obs = pi/2], [beta = 0], any [alfa]) stays in the plane at every
    turn of the integration loop, so the disk test reduces to the radius
    lying between the inner and the outer radius of the disk. *)
Theorem raio_no_plano_equatorial (alfa : R) (k : nat) :
  0 < r_obs -> theta_obs = PI / 2 ->
  let e := estado_na_volta rt alfa 0 k in
  EstadoGeodesica.theta e = PI / 2
  /\ EstadoGeodesica.u_theta e = 0
  /\ (cruza_disco rt e <->
      DiscoAcrecao.raio_interno (RayTracer.disco_ rt) <= EstadoGeodesica.r e
      <= DiscoAcrecao.raio_externo (RayTracer.disco_ rt)).
Proof.
  intros Hr Hth.
  assert (Hinv : EstadoGeodesica.theta (estado_na_volta rt alfa 0 k) = PI / 2
                 /\ EstadoGeodesica.u_theta (estado_na_volta rt alfa 0 k) = 0).
  { induction k as [|k IH].
    - cbn [estado_na_volta]. unfold RayTracer.estado_inicial.
      cbn [EstadoGeodesica.theta EstadoGeodesica.u_theta].
      unfold Rdiv. rewrite Rmult_0_l. split; [exact Hth | reflexivity].
    - destruct IH as (H2 & H6).
      cbn [estado_na_volta]. unfold proximo.
      set (e := estado_na_volta rt alfa 0 k) in *.
      destruct (passo_rk4_equatorial (integrador_da_volta rt e) e H2 H6)
        as (H2' & H6').
      rewrite manter_theta_identidade
        by (rewrite H2'; pose proof PI_RGT_0; lra).
      auto. }
  destruct Hinv as (H2 & H6).
  cbv zeta. split; [exact H2|]. split; [exact H6|].
  unfold cruza_disco. rewrite H2, Rminus_diag, Rabs_R0.
  split; [tauto|]. intros H. split; [lra | exact H].
Qed.

End RaiosEspeciais.

(** X8, witness.  The default tracer looks from [pi/3]. *)
Lemma raio_central_radial_witness :
  0 < Camera.r_observador (RayTracer.camera tracer_padrao)
  /\ 0 < Camera.theta_observador (RayTracer.camera tracer_padrao) < PI
  /\ EstadoGeodesica.u_phi (estado_na_volta tracer_padrao 0 0 3) = 0.
Proof.
  pose proof rs_tracer_padrao_cota as Hrs. pose proof PI_RGT_0 as Hpi.
  assert (H1 : 0 < Camera.r_observador (RayTracer.camera tracer_padrao)).
  { change (0 < 100.0 * RayTracer.rs_ tracer_padrao). lra. }
  assert (H2 : 0 < Camera.theta_observador (RayTracer.camera tracer_padrao)
               < PI).
  { change (0 < PI / 3.0 < PI). lra. }
  do 2 (split; [assumption|]).
  exact (proj1 (proj2 (proj2 (proj2
           (raio_central_radial tracer_padrao 3 H1 H2))))).
Defined.

(** X9, witness.  The edge-on camera at [100 r_s]. *)
Lemma raio_no_plano_equatorial_witness :
  0 < Camera.r_observador (RayTracer.camera tracer_equatorial)
  /\ Camera.theta_observador (RayTracer.camera tracer_equatorial) = PI / 2
  /\ EstadoGeodesica.theta (estado_na_volta tracer_equatorial 1 0 3) = PI / 2.
Proof.
  pose proof rs_tracer_padrao_cota as Hrs.
  assert (H1 : 0 < Camera.r_observador (RayTracer.camera tracer_equatorial)).
  { change (0 < 100.0 * RayTracer.rs_ tracer_padrao). lra. }
  assert (H2 : Camera.theta_observador (RayTracer.camera tracer_equatorial)
               = PI / 2).
  { change (PI / 2.0 = PI / 2). lra. }
  do 2 (split; [assumption|]).
  exact (proj1 (raio_no_plano_equatorial tracer_equatorial 1 3 H1 H2)).
Defined.

(** ** Trajectories *)

Section Trajetoria.

Variable I : IntegradorGeodesico.t.
Variable lambda_max : R.
Variable limite : Z.

Let passo := IntegradorGeodesico.passo_ I.

Lemma esfera_cartesiana (r th ph : R) :
  r * sin th * cos ph * (r * sin th * cos ph)
  + r * sin th * sin ph * (r * sin th * sin ph)
  + r * cos th * (r * cos th)
  = r * r.
Proof.
  pose proof (sin2_cos2 th) as Ht. pose proof (sin2_cos2 ph) as Hp.
  unfold Rsqr in Ht, Hp.
  replace (r * sin th * cos ph * (r * sin th * cos ph)
           + r * sin th * sin ph * (r * sin th * sin ph)
           + r * cos th * (r * cos th))
    with (r * r * (sin th * sin th * (sin ph * sin ph + cos ph * cos ph)
                   + cos th * cos th)) by ring.
  rewrite Hp, Rmult_1_r, Ht. ring.
Qed.

(** The loop only appends, and what it appends is valid. *)
Lemma integrar_laco_acrescenta : forall voltas trajetoria estado lambda,
  exists novos,
    IntegradorGeodesico.integrar_laco I voltas lambda_max limite
      trajetoria estado lambda
    = trajetoria ++ novos
    /\ Forall (ponto_valido I lambda_max) novos
    /\ (novos <> [] ->
        (Z.of_nat (List.length trajetoria + List.length novos) <= limite)%Z)
    /\ (novos <> [] -> ponto_lambda (nth 0 novos ponto_nulo) = lambda)
    /\ (forall j, (S j < List.length novos)%nat ->
          ponto_lambda (nth (S j) novos ponto_nulo)
          = arredonda_double (ponto_lambda (nth j novos ponto_nulo) + passo))
    /\ (novos <> [] ->
        ponto_r (nth 0 novos ponto_nulo) = EstadoGeodesica.r estado
        /\ ponto_theta (nth 0 novos ponto_nulo) = EstadoGeodesica.theta estado
        /\ ponto_phi (nth 0 novos ponto_nulo) = EstadoGeodesica.phi estado
        /\ ponto_t (nth 0 novos ponto_nulo) = EstadoGeodesica.t estado)
    /\ (lambda_max <= lambda
        \/ (limite <= Z.of_nat (List.length trajetoria))%Z
        \/ EstadoGeodesica.r estado < IntegradorGeodesico.r_min_ I ->
        novos = []).
Proof.
  induction voltas as [|n IH]; intros trajetoria estado lambda.
  - exists []. cbn [IntegradorGeodesico.integrar_laco]. rewrite app_nil_r.
    repeat split; try constructor; try contradiction.
    intros j Hj. cbn in Hj. lia.
  - cbn [IntegradorGeodesico.integrar_laco].
    destruct (Rltb lambda lambda_max) eqn:E1; cbn [andb];
      [apply Rltb_true in E1 | apply Rltb_false in E1].
    2:{ exists []. rewrite app_nil_r.
        repeat split; try constructor; try contradiction.
        intros j Hj. cbn in Hj. lia. }
    destruct (Z.ltb_spec (Z.of_nat (List.length trajetoria)) limite) as [E2|E2].
    2:{ exists []. rewrite app_nil_r.
        repeat split; try constructor; try contradiction.
        intros j Hj. cbn in Hj. lia. }
    destruct (Rltb (EstadoGeodesica.r estado) (IntegradorGeodesico.r_min_ I))
      eqn:E3; [apply Rltb_true in E3 | apply Rltb_false in E3].
    { exists []. rewrite app_nil_r.
      repeat split; try constructor; try contradiction.
      intros j Hj. cbn in Hj. lia. }
    match goal with
    | |- context [trajetoria ++ [?p0]] => set (p := p0)
    end.
    destruct (IH (trajetoria ++ [p])
                (IntegradorGeodesico.passo_rk4 I estado)
                (arredonda_double (lambda + IntegradorGeodesico.passo_ I)))
      as (novos & Heq & Hval & Hlen & Hprim & Hlam & _ & _).
    exists (p :: novos). rewrite Heq, <- app_assoc. cbn [app].
    split; [reflexivity|]. split.
    { constructor; [|exact Hval].
      unfold ponto_valido, p.
      cbn [ponto_r ponto_lambda ponto_x ponto_y ponto_z].
      split; [exact E3|]. split; [exact E1|]. apply esfera_cartesiana. }
    split.
    { intros _. destruct novos as [|q novos].
      - cbn [List.length]. lia.
      - rewrite length_app in Hlen. cbn [List.length] in *.
        specialize (Hlen ltac:(discriminate)). lia. }
    split.
    { intros _. reflexivity. }
    split.
    { intros [|j] Hj.
      - cbn [nth]. rewrite Hprim.
        + reflexivity.
        + destruct novos; [cbn in Hj; lia | discriminate].
      - cbn [List.length] in Hj.
        change (nth (S (S j)) (p :: novos) ponto_nulo)
          with (nth (S j) novos ponto_nulo).
        change (nth (S j) (p :: novos) ponto_nulo)
          with (nth j novos ponto_nulo).
        apply Hlam. lia. }
    split.
    { intros _. cbn [nth]. unfold p.
      cbn [ponto_r ponto_theta ponto_phi ponto_t]. auto. }
    intros [H|[H|H]]; lra || lia.
Qed.

(** With at least [limite - size] turns the loop has run to its exit. *)
Lemma integrar_laco_voltas : forall n extra trajetoria estado lambda,
  (Z.to_nat limite - List.length trajetoria <= n)%nat ->
  IntegradorGeodesico.integrar_laco I (n + extra) lambda_max limite
    trajetoria estado lambda
  = IntegradorGeodesico.integrar_laco I n lambda_max limite
      trajetoria estado lambda.
Proof.
  induction n as [|n IH]; intros extra trajetoria estado lambda Hn.
  - cbn [Nat.add]. destruct extra as [|extra]; [reflexivity|].
    cbn [IntegradorGeodesico.integrar_laco].
    destruct (Z.ltb_spec (Z.of_nat (List.length trajetoria)) limite) as [E|E];
      [lia|].
    rewrite andb_false_r. reflexivity.
  - cbn [Nat.add IntegradorGeodesico.integrar_laco].
    destruct (Rltb lambda lambda_max && _); [|reflexivity].
    destruct (Rltb _ _); [reflexivity|].
    apply IH. rewrite length_app. cbn [List.length]. lia.
Qed.

End Trajetoria.

(** X10.  A trajectory returned by [integrar] has at most [max_pontos]
    points (for a bound that is not negative); none of its points lies
    below [r_min = 1.001 r_s], each has its affine parameter below
    [lambda_max] and Cartesian coordinates with [x^2 + y^2 + z^2 = r^2];
    the first point is the initial position at parameter 0, and the
    parameter of each later point is the double nearest to the previous
    parameter plus the step; the trajectory is empty when
    [lambda_max <= 0], when [max_pontos = 0] or when the initial radius is
    below [r_min]; and the loop has run to its exit.  The number of points
    is the one the accumulated doubles give: eleven for the step [0.1] and
    [lambda_max = 1], see [integrar_onze_pontos]. *)
Theorem integrar_trajetoria (I : IntegradorGeodesico.t)
  (inicial : EstadoGeodesica.estado) (lambda_max : R) (max_pontos : Z) :
  let trajetoria := IntegradorGeodesico.integrar I inicial lambda_max max_pontos in
  ((0 <= max_pontos)%Z ->
   (Z.of_nat (List.length trajetoria) <= max_pontos)%Z)
  /\ Forall (ponto_valido I lambda_max) trajetoria
  /\ (forall j, (S j < List.length trajetoria)%nat ->
        ponto_lambda (nth (S j) trajetoria ponto_nulo)
        = arredonda_double
            (ponto_lambda (nth j trajetoria ponto_nulo)
             + IntegradorGeodesico.passo_ I))
  /\ (trajetoria <> [] ->
      ponto_lambda (nth 0 trajetoria ponto_nulo) = 0
      /\ ponto_r (nth 0 trajetoria ponto_nulo) = EstadoGeodesica.r inicial
      /\ ponto_theta (nth 0 trajetoria ponto_nulo) = EstadoGeodesica.theta inicial
      /\ ponto_phi (nth 0 trajetoria ponto_nulo) = EstadoGeodesica.phi inicial
      /\ ponto_t (nth 0 trajetoria ponto_nulo) = EstadoGeodesica.t inicial)
  /\ (lambda_max <= 0 \/ max_pontos = 0%Z
      \/ EstadoGeodesica.r inicial < IntegradorGeodesico.r_min_ I ->
      trajetoria = [])
  /\ (forall extra,
        IntegradorGeodesico.integrar_laco I
          (Z.to_nat (IntegradorGeodesico.limite_de_pontos max_pontos) + extra)
          lambda_max (IntegradorGeodesico.limite_de_pontos max_pontos)
          [] inicial 0.0
        = trajetoria).
Proof.
  intros trajetoria. unfold trajetoria, IntegradorGeodesico.integrar.
  set (limite := IntegradorGeodesico.limite_de_pontos max_pontos).
  destruct (integrar_laco_acrescenta I lambda_max limite (Z.to_nat limite)
              [] inicial 0.0)
    as (novos & Heq & Hval & Hlen & Hzero & Hlam & Hprim & Hvazio).
  rewrite Heq. cbn [app].
  split.
  { intros Hmax. destruct novos as [|p novos]; [cbn; lia|].
    specialize (Hlen ltac:(discriminate)). cbn [List.length Nat.add] in Hlen.
    unfold limite, IntegradorGeodesico.limite_de_pontos in Hlen.
    destruct (Z.ltb_spec max_pontos 0); [lia | exact Hlen]. }
  split; [exact Hval|]. split; [exact Hlam|].
  split.
  { intros Hne. split; [rewrite (Hzero Hne); lra | exact (Hprim Hne)]. }
  split.
  { intros H. apply Hvazio. destruct H as [H|[H|H]].
    - left. lra.
    - right. left. unfold limite, IntegradorGeodesico.limite_de_pontos.
      rewrite H. cbn. lia.
    - right. right. exact H. }
  intros extra. rewrite integrar_laco_voltas by (cbn [List.length]; lia).
  exact Heq.
Qed.

(** ** Colours of the disk *)

Section CoresDoDisco.

Lemma clamp_unitario c : 0 <= std_max 0.0 (std_min 1.0 c) <= 1.
Proof. rewrite clamp_codigo. apply clamp01_cotas. Qed.

Lemma std_pow_4_nao_negativo x : 0 <= std_pow x 4.
Proof.
  unfold std_pow.
  destruct (Rlt_dec 0 x); [left; apply Rpower_positivo|].
  destruct (Req_dec_T x 0).
  - destruct (Rlt_dec 0 4); [lra|]. destruct (Req_dec_T 4 0); lra.
  - rewrite (ZfloorZ 4).
    destruct (Req_dec_T (IZR 4) 4) as [_|Hn]; [|lra].
    change (powerRZ x 4) with (x ^ 4). simpl.
    pose proof (Rle_0_sqr (x * x)) as H. unfold Rsqr in H. nra.
Qed.

Variable d : DiscoAcrecao.t.

(** The channels of the blackbody colour. *)
Lemma cor_corpo_negro_cotas (T : R) :
  let c := DiscoAcrecao.cor_corpo_negro T in
  (0 <= CorRGB.r c <= 1 /\ 0 <= CorRGB.g c <= 1 /\ 0 <= CorRGB.b c <= 1)
  /\ (T <= 0 -> c = CorRGB.mk 0 0 0)
  /\ (0 < T <= 6600 -> CorRGB.r c = 1)
  /\ (0 < T <= 1900 -> CorRGB.b c = 0)
  /\ (6600 <= T -> CorRGB.b c = 1).
Proof.
  unfold DiscoAcrecao.cor_corpo_negro.
  destruct (Rleb T 0.0) eqn:E0;
    [apply Rleb_true in E0 | apply Rleb_false in E0].
  - cbn [CorRGB.r CorRGB.g CorRGB.b].
    split; [lra|]. split; [intros _; f_equal; lra|].
    repeat split; intros; lra.
  - unfold CorRGB.clamp. cbn [CorRGB.r CorRGB.g CorRGB.b].
    split; [split; [apply clamp_unitario | split; apply clamp_unitario]|].
    split; [intros; lra|].
    unfold Rgeb. rewrite !clamp_codigo.
    assert (Hum : clamp01 1.0 = 1).
    { unfold clamp01. rewrite Rmin_left, Rmax_right; lra. }
    assert (Hzero : clamp01 0.0 = 0).
    { unfold clamp01. rewrite Rmin_right, Rmax_left; lra. }
    split; [|split].
    + intros [_ H]. destruct (Rleb (T / 100.0) 66.0) eqn:E;
        [exact Hum | apply Rleb_false in E; lra].
    + intros [_ H].
      destruct (Rleb 66.0 (T / 100.0)) eqn:E1;
        [apply Rleb_true in E1; lra|].
      destruct (Rleb (T / 100.0) 19.0) eqn:E2;
        [exact Hzero | apply Rleb_false in E2; lra].
    + intros H. destruct (Rleb 66.0 (T / 100.0)) eqn:E1;
        [exact Hum | apply Rleb_false in E1; lra].
Qed.

(** X11.  Every channel of the blackbody colour lies in [[0, 1]]; the colour
    is black for a temperature that is not positive; the red channel is
    saturated up to 6600 K, the blue one is zero up to 1900 K and saturated
    from 6600 K on. *)
Theorem cor_corpo_negro_canais (T : R) :
  let c := DiscoAcrecao.cor_corpo_negro T in
  (0 <= CorRGB.r c <= 1 /\ 0 <= CorRGB.g c <= 1 /\ 0 <= CorRGB.b c <= 1)
  /\ (T <= 0 -> c = CorRGB.mk 0 0 0)
  /\ (0 < T <= 6600 -> CorRGB.r c = 1)
  /\ (0 < T <= 1900 -> CorRGB.b c = 0)
  /\ (6600 <= T -> CorRGB.b c = 1).
Proof. exact (cor_corpo_negro_cotas T). Qed.

(** X12.  Every channel of the observed intensity lies between 0 and the
    beaming factor [(D z)^4], the fourth power of the Doppler factor times
    the gravitational factor, and the intensity is black wherever the
    temperature is not positive. *)
Theorem intensidade_observada_canais (raio angulo : R) :
  let c := DiscoAcrecao.intensidade_observada d raio angulo in
  let fator_total :=
    std_pow (DiscoAcrecao.fator_doppler d raio angulo
             * DiscoAcrecao.fator_redshift d raio) 4 in
  (0 <= CorRGB.r c <= fator_total
   /\ 0 <= CorRGB.g c <= fator_total
   /\ 0 <= CorRGB.b c <= fator_total)
  /\ (DiscoAcrecao.temperatura d raio <= 0 -> c = CorRGB.mk 0 0 0).
Proof.
  cbv zeta.
  pose proof (std_pow_4_nao_negativo
                (DiscoAcrecao.fator_doppler d raio angulo
                 * DiscoAcrecao.fator_redshift d raio)) as Hf.
  unfold DiscoAcrecao.intensidade_observada.
  destruct (Rleb _ 0.0) eqn:E0;
    [apply Rleb_true in E0 | apply Rleb_false in E0].
  - cbn [CorRGB.r CorRGB.g CorRGB.b].
    split; [lra | intros _; f_equal; lra].
  - split; [|intros; lra].
    destruct (cor_corpo_negro_cotas (DiscoAcrecao.temperatura d raio))
      as ((Hr & Hg & Hb) & _).
    cbv zeta in Hr, Hg, Hb.
    unfold CorRGB.escala. cbn [CorRGB.r CorRGB.g CorRGB.b].
    set (F := std_pow _ 4) in *.
    set (cor := DiscoAcrecao.cor_corpo_negro _) in *.
    repeat split; nra.
Qed.

End CoresDoDisco.

(** ** Doppler beaming and the gravitational factor *)

Section Beaming.

Variable d : DiscoAcrecao.t.
Hypothesis massa_positiva : 0 < DiscoAcrecao.massa_bh_ d.

(** X13.  At every radius beyond half the Schwarzschild radius the Doppler
    factor is largest for the sight angle [0] and smallest for the sight
    angle [pi]: [D(r, pi) <= D(r, phi) <= D(r, 0)] for every [phi], and
    [D(r, pi) < D(r, 0)]. *)
Theorem fator_doppler_extremos (raio angulo : R) :
  rs_do_disco d < 2 * raio ->
  DiscoAcrecao.fator_doppler d raio PI
  <= DiscoAcrecao.fator_doppler d raio angulo
  <= DiscoAcrecao.fator_doppler d raio 0
  /\ DiscoAcrecao.fator_doppler d raio PI
     < DiscoAcrecao.fator_doppler d raio 0.
Proof.
  intros Hraio.
  pose proof (rs_do_disco_positivo d massa_positiva) as Hrs.
  assert (Hr : 0 < raio) by lra.
  destruct (beta_quadrado d raio massa_positiva Hr) as [Hb0 Hb2].
  unfold DiscoAcrecao.fator_doppler.
  set (beta := DiscoAcrecao.velocidade_kepleriana d raio / C) in *.
  assert (Hq : 0 < beta * beta < 1).
  { rewrite Hb2. split; [apply Rdiv_lt_0_compat; lra|].
    apply Rmult_lt_reg_r with (2 * raio); [lra|].
    unfold Rdiv. rewrite Rmult_assoc, Rinv_l; lra. }
  assert (Hb : 0 < beta < 1) by nra.
  replace 1.0 with 1 by lra.
  assert (Hgamma : 0 < 1 / sqrt (1 - beta * beta)).
  { apply Rdiv_lt_0_compat; [lra|]. apply sqrt_lt_R0. lra. }
  set (gamma := 1 / sqrt (1 - beta * beta)) in *.
  rewrite cos_PI, cos_0.
  pose proof (COS_bound angulo) as [Hc1 Hc2].
  assert (Hinv : forall a b, 0 < a -> a <= b ->
            1 / (gamma * b) <= 1 / (gamma * a)).
  { intros a b Ha Hab. unfold Rdiv. rewrite !Rmult_1_l.
    apply Rinv_le_contravar; [apply Rmult_lt_0_compat; lra|].
    apply Rmult_le_compat_l; lra. }
  split; [split|].
  - apply Hinv; nra.
  - apply Hinv; nra.
  - unfold Rdiv. rewrite !Rmult_1_l.
    apply Rinv_lt_contravar.
    + apply Rmult_lt_0_compat; apply Rmult_lt_0_compat; lra.
    + apply Rmult_lt_compat_l; lra.
Qed.

End Beaming.

(** X13, witness.  The inner edge of the disk of ten solar masses. *)
Lemma fator_doppler_extremos_witness :
  0 < DiscoAcrecao.massa_bh_ (DiscoAcrecao.novo 10 0.1 0)
  /\ rs_do_disco (DiscoAcrecao.novo 10 0.1 0)
     < 2 * (3 * rs_do_disco (DiscoAcrecao.novo 10 0.1 0))
  /\ DiscoAcrecao.fator_doppler (DiscoAcrecao.novo 10 0.1 0)
       (3 * rs_do_disco (DiscoAcrecao.novo 10 0.1 0)) PI
     < DiscoAcrecao.fator_doppler (DiscoAcrecao.novo 10 0.1 0)
         (3 * rs_do_disco (DiscoAcrecao.novo 10 0.1 0)) 0.
Proof.
  assert (H10 : 0 < 10) by lra.
  pose proof (massa_novo 10 0.1 0 H10) as H0.
  pose proof (rs_do_disco_positivo _ H0) as Hrs.
  assert (H1 : rs_do_disco (DiscoAcrecao.novo 10 0.1 0)
               < 2 * (3 * rs_do_disco (DiscoAcrecao.novo 10 0.1 0))) by lra.
  split; [exact H0|]. split; [exact H1|].
  exact (proj2 (fator_doppler_extremos _ H0 _ 0 H1)).
Defined.

(** ** One Schwarzschild radius for the whole configuration *)

Section UmRaio.

Variables ms te sp : R.

(** X14.  For one solar mass parameter the Schwarzschild radius computed by
    the namespace functions, by the metric, by the disk and stored by the
    tracer is the same number; the disk's gravitational factor is the
    metric's time-dilation factor; and a tracer's disk starts at three
    Schwarzschild radii of the tracer. *)
Theorem raio_de_schwarzschild_unico :
  let rs := RayTracer.rs_ (RayTracer.novo ms te) in
  BuracoNegro.raio_schwarzschild (ms * MASSA_SOL) = rs
  /\ BuracoNegro.raio_schwarzschild_solar ms = rs
  /\ MetricaSchwarzschild.raio_schwarzschild (MetricaSchwarzschild.novo ms) = rs
  /\ rs_do_disco (DiscoAcrecao.novo ms te sp) = rs
  /\ (forall raio,
        DiscoAcrecao.fator_redshift (DiscoAcrecao.novo ms te sp) raio
        = MetricaSchwarzschild.dilatacao_temporal
            (MetricaSchwarzschild.novo ms) raio)
  /\ DiscoAcrecao.raio_interno (RayTracer.disco_ (RayTracer.novo ms te))
     = 3 * rs
  /\ DiscoAcrecao.raio_externo (RayTracer.disco_ (RayTracer.novo ms te))
     = 500 * rs.
Proof.
  pose proof C2_positivo as HC.
  assert (Hd : rs_do_disco (DiscoAcrecao.novo ms te sp)
               = RayTracer.rs_ (RayTracer.novo ms te)).
  { unfold rs_do_disco. cbn. lra. }
  cbv zeta. split; [|split; [|split; [|split; [|split; [|split]]]]].
  - unfold BuracoNegro.raio_schwarzschild. cbn. lra.
  - unfold BuracoNegro.raio_schwarzschild_solar, FATOR_RAIO_SCHWARZSCHILD.
    cbn. lra.
  - reflexivity.
  - exact Hd.
  - intros raio. unfold DiscoAcrecao.fator_redshift,
      MetricaSchwarzschild.dilatacao_temporal, Rleb.
    fold (rs_do_disco (DiscoAcrecao.novo ms te sp)). rewrite Hd.
    change (MetricaSchwarzschild.rs_ (MetricaSchwarzschild.novo ms))
      with (RayTracer.rs_ (RayTracer.novo ms te)).
    destruct (Rle_dec raio _); reflexivity.
  - unfold DiscoAcrecao.raio_interno.
    change (RayTracer.disco_ (RayTracer.novo ms te))
      with (DiscoAcrecao.novo ms te 0.0).
    rewrite spin_novo_baixo by lra.
    unfold rs_do_disco. cbn. lra.
  - cbn. lra.
Qed.

End UmRaio.

(** ** Events that exclude each other *)

Lemma raio_de_schwarzschild_unico_aux (ms te : R) :
  DiscoAcrecao.raio_interno (RayTracer.disco_ (RayTracer.novo ms te))
  = 3 * RayTracer.rs_ (RayTracer.novo ms te)
  /\ (0 < ms -> 0 < RayTracer.rs_ (RayTracer.novo ms te)).
Proof.
  split.
  - unfold DiscoAcrecao.raio_interno.
    change (RayTracer.disco_ (RayTracer.novo ms te))
      with (DiscoAcrecao.novo ms te 0.0).
    rewrite spin_novo_baixo by lra.
    unfold rs_do_disco. cbn. lra.
  - intros Hms.
    pose proof (rs_do_disco_positivo _ (massa_novo ms te 0.0 Hms)) as H.
    unfold rs_do_disco in H. cbn in H |- *. lra.
Qed.

Section EventosExclusivos.

Variables ms te : R.
Hypothesis massa_solar_positiva : 0 < ms.
Variable cam : Camera.t.
Variable n : Z.

Let rt :=
  RayTracer.set_threads (RayTracer.set_camera (RayTracer.novo ms te) cam) n.

(** X15.  In a tracer built for a positive mass and then given a camera and
    a thread count, the disk starts at [3 r_s], beyond the capture radius
    [1.001 r_s]: no state satisfies the capture test and the disk test
    together, so the order of these two tests never decides a pixel. *)
Theorem captura_exclui_disco (e : EstadoGeodesica.estado) :
  1.001 * RayTracer.rs_ rt < DiscoAcrecao.raio_interno (RayTracer.disco_ rt)
  /\ (cruza_disco rt e -> ~ captura rt e).
Proof.
  destruct (raio_de_schwarzschild_unico_aux ms te) as [Hin Hrs].
  assert (H : 1.001 * RayTracer.rs_ rt
              < DiscoAcrecao.raio_interno (RayTracer.disco_ rt)).
  { change (RayTracer.rs_ rt) with (RayTracer.rs_ (RayTracer.novo ms te)).
    change (RayTracer.disco_ rt)
      with (RayTracer.disco_ (RayTracer.novo ms te)).
    rewrite Hin. specialize (Hrs massa_solar_positiva). lra. }
  split; [exact H|].
  unfold cruza_disco, captura. intros (_ & Hr & _) Hc. lra.
Qed.

End EventosExclusivos.

(** X15, witness.  Ten solar masses, the default camera, four threads. *)
Lemma captura_exclui_disco_witness :
  0 < 10
  /\ 1.001 * RayTracer.rs_
               (RayTracer.set_threads
                  (RayTracer.set_camera (RayTracer.novo 10 0.1) Camera.padrao) 4)
     < DiscoAcrecao.raio_interno
         (RayTracer.disco_
            (RayTracer.set_threads
               (RayTracer.set_camera (RayTracer.novo 10 0.1) Camera.padrao) 4)).
Proof.
  assert (H : 0 < 10) by lra.
  split; [exact H|].
  exact (proj1 (captura_exclui_disco 10 0.1 H Camera.padrao 4
                  (EstadoGeodesica.mk 0 1 0 0 1 0 0 0))).
Defined.

(** ** Luminosity and the Planck law *)

Section Luminosidade.

Variables ms te sp : R.
Hypothesis massa_solar_positiva : 0 < ms.
Hypothesis spin_baixo : sp < 0.01.

Let d := DiscoAcrecao.novo ms te sp.

(** X16.  For a disk of low spin the total luminosity is the accretion
    power with the efficiency [1 - sqrt(1/3)], while the accretion rate was
    derived from the Eddington luminosity with the efficiency [0.1]: the
    result is [(1 - sqrt(1/3)) / 0.1] times the requested fraction of the
    Eddington luminosity, more than four times it. *)
Theorem luminosidade_total_eddington :
  DiscoAcrecao.luminosidade_total d
  = (1 - sqrt (1 / 3)) / 0.1 * (te * (1.26e38 * ms))
  /\ (0 < te ->
      4 * (te * (1.26e38 * ms)) < DiscoAcrecao.luminosidade_total d).
Proof.
  pose proof C2_positivo as HC.
  pose proof (rs_do_disco_positivo d (massa_novo ms te sp massa_solar_positiva))
    as Hrs.
  assert (Heta : 1.0 - sqrt (rs_do_disco d / DiscoAcrecao.raio_interno_ d)
                 = 1 - sqrt (1 / 3)).
  { unfold d. rewrite (spin_novo_baixo ms te sp spin_baixo). fold d.
    replace (rs_do_disco d / (3 * rs_do_disco d)) with (1 / 3)
      by (field; lra).
    lra. }
  assert (Hl : DiscoAcrecao.luminosidade_total d
               = (1 - sqrt (1 / 3)) / 0.1 * (te * (1.26e38 * ms))).
  { unfold DiscoAcrecao.luminosidade_total.
    fold (rs_do_disco d). rewrite Heta.
    unfold d, DiscoAcrecao.novo. cbn [DiscoAcrecao.taxa_acrecao_].
    set (q := 1 - sqrt (1 / 3)). decimais. field. lra. }
  split; [exact Hl|]. intros Hte. rewrite Hl.
  assert (Hraiz : sqrt (1 / 3) < 0.6).
  { replace 0.6 with (sqrt (0.6 * 0.6)) by (apply sqrt_square; lra).
    apply sqrt_lt_1_alt. lra. }
  assert (Hp : 0 < te * (1.26e38 * ms))
    by (apply Rmult_lt_0_compat; lra).
  apply Rmult_lt_compat_r; [exact Hp|].
  apply Rmult_lt_reg_r with 0.1; [lra|].
  unfold Rdiv. rewrite Rmult_assoc, Rinv_l by lra. lra.
Qed.

End Luminosidade.

(** X16, witness.  Ten solar masses, spin zero. *)
Lemma luminosidade_total_eddington_witness :
  0 < 10 /\ 0 < 0.01
  /\ DiscoAcrecao.luminosidade_total (DiscoAcrecao.novo 10 0.1 0)
     = (1 - sqrt (1 / 3)) / 0.1 * (0.1 * (1.26e38 * 10)).
Proof.
  assert (H1 : 0 < 10) by lra.
  assert (H2 : 0 < 0.01) by lra.
  split; [exact H1|]. split; [exact H2|].
  exact (proj1 (luminosidade_total_eddington 10 0.1 0 H1 H2)).
Defined.

Section Planck.

(** X17.  For a positive frequency the Planck function is zero for a
    temperature that is not positive and beyond the overflow guard
    [h nu / (k T) > 700], and strictly positive otherwise. *)
Theorem planck_sinal (frequencia T : R) :
  0 < frequencia ->
  (T <= 0 -> DiscoAcrecao.planck frequencia T = 0)
  /\ (0 < T -> 700 < H_PLANCK * frequencia / (K_BOLTZMANN * T) ->
      DiscoAcrecao.planck frequencia T = 0)
  /\ (0 < T -> H_PLANCK * frequencia / (K_BOLTZMANN * T) <= 700 ->
      0 < DiscoAcrecao.planck frequencia T).
Proof.
  intros Hnu. unfold DiscoAcrecao.planck, Rgtb.
  replace 700.0 with 700 by lra.
  set (x := H_PLANCK * frequencia / (K_BOLTZMANN * T)).
  destruct (Rleb T 0.0) eqn:E0;
    [apply Rleb_true in E0 | apply Rleb_false in E0].
  { repeat split; intros; lra. }
  assert (HT : 0 < T) by lra.
  assert (Hx : 0 < x).
  { unfold x, H_PLANCK, CONSTANTE_PLANCK, K_BOLTZMANN, CONSTANTE_BOLTZMANN.
    apply Rdiv_lt_0_compat; apply Rmult_lt_0_compat; lra. }
  destruct (Rltb 700 x) eqn:E1;
    [apply Rltb_true in E1 | apply Rltb_false in E1].
  { repeat split; intros; lra. }
  split; [intros; lra|]. split; [intros; lra|]. intros _ _.
  pose proof C2_positivo as HC.
  assert (Hexp : 0 < exp x - 1.0).
  { assert (Hx0 : x <> 0) by lra. pose proof (exp_ineq1 x Hx0). lra. }
  assert (Hnum : 0 < 2.0 * H_PLANCK * std_pow frequencia 3 / C2).
  { rewrite std_pow_positivo by exact Hnu.
    pose proof (Rpower_positivo frequencia 3).
    apply Rdiv_lt_0_compat; [|exact HC].
    apply Rmult_lt_0_compat; [|assumption].
    unfold H_PLANCK, CONSTANTE_PLANCK. lra. }
  apply Rdiv_lt_0_compat; assumption.
Qed.

(** X17, witness.  Green light at the temperature of the Sun's surface. *)
Lemma planck_sinal_witness :
  0 < 6e14 /\ 0 < DiscoAcrecao.planck 6e14 5800.
Proof.
  assert (H : 0 < 6e14) by lra.
  split; [exact H|].
  apply (proj2 (proj2 (planck_sinal 6e14 5800 H))); [lra|].
  unfold H_PLANCK, CONSTANTE_PLANCK, K_BOLTZMANN, CONSTANTE_BOLTZMANN. lra.
Defined.

End Planck.

(** ** The celestial background *)

Section FundoCeleste.

Lemma resto_entre (q y c lo hi : R) :
  0 < y -> lo < q - c -> q - c <= hi -> lo * y < q * y - c * y <= hi * y.
Proof.
  intros Hy H1 H2. replace (q * y - c * y) with ((q - c) * y) by ring.
  split.
  - apply Rmult_lt_compat_r; assumption.
  - apply Rmult_le_compat_r; lra.
Qed.

(** Reduction of an angle into one turn. *)
Lemma reducao_a_uma_volta (x y : R) :
  0 < y ->
  let p := std_fmod x y in
  let p' := if Rltb p 0 then p + y else p in
  0 <= p' < y /\ p' = x - IZR (Zfloor (x / y)) * y.
Proof.
  intros Hy p p'.
  assert (Hxy : x = x / y * y) by (field; lra).
  assert (Hk : exists k : Z, p' = x - IZR k * y /\ 0 <= p' < y).
  { subst p' p. unfold std_fmod, Rtrunc.
    destruct (Rle_dec 0 (x / y)) as [Hq|Hq]; cbv iota.
    - pose proof (Zfloor_bound (x / y)) as [Hf1 Hf2].
      assert (Hp : 0 <= x - IZR (Zfloor (x / y)) * y < y).
      { assert (Ha : 0 <= (x / y - IZR (Zfloor (x / y))) * y)
          by (apply Rmult_le_pos; lra).
        assert (Hb : (x / y - IZR (Zfloor (x / y))) * y < 1 * y)
          by (apply Rmult_lt_compat_r; lra).
        rewrite Rmult_minus_distr_r, <- Hxy in Ha, Hb. lra. }
      destruct (Rltb _ 0) eqn:E; [apply Rltb_true in E; lra|].
      exists (Zfloor (x / y)). split; [reflexivity | exact Hp].
    - pose proof (Zceil_bound (x / y)) as [Hc1 Hc2].
      assert (Hp : - y < x - IZR (Zceil (x / y)) * y <= 0).
      { pose proof (resto_entre (x / y) y (IZR (Zceil (x / y))) (-1) 0 Hy
                      ltac:(lra) ltac:(lra)) as Ha.
        rewrite <- Hxy in Ha. lra. }
      destruct (Rltb _ 0) eqn:E;
        [apply Rltb_true in E | apply Rltb_false in E].
      + exists (Zceil (x / y) - 1)%Z. rewrite minus_IZR. split; [ring | lra].
      + exists (Zceil (x / y)). split; [reflexivity | lra]. }
  destruct Hk as (k & Hp & Hr). split; [exact Hr|].
  rewrite Hp. rewrite Hp in Hr.
  replace (Zfloor (x / y)) with k; [reflexivity|].
  symmetry. apply Zfloor_eq.
  split.
  - apply Rmult_le_reg_r with y; [lra|]. rewrite <- Hxy. lra.
  - apply Rmult_lt_reg_r with y; [lra|]. rewrite <- Hxy. lra.
Qed.

Lemma dois_pi_positivo : 0 < 2.0 * M_PI.
Proof. unfold M_PI. pose proof PI_RGT_0. lra. Qed.

Lemma phi_normalizado_cotas phi : 0 <= phi_normalizado phi < 2.0 * M_PI.
Proof.
  unfold phi_normalizado.
  exact (proj1 (reducao_a_uma_volta phi (2.0 * M_PI) dois_pi_positivo)).
Qed.

Lemma phi_normalizado_periodo phi :
  phi_normalizado (phi + 2 * PI) = phi_normalizado phi.
Proof.
  unfold phi_normalizado.
  rewrite (proj2 (reducao_a_uma_volta (phi + 2 * PI) (2.0 * M_PI)
                    dois_pi_positivo)).
  rewrite (proj2 (reducao_a_uma_volta phi (2.0 * M_PI) dois_pi_positivo)).
  pose proof dois_pi_positivo as Hy.
  assert (Hd : 2.0 * M_PI = 2 * PI) by (unfold M_PI; lra).
  rewrite Hd in *.
  replace ((phi + 2 * PI) / (2 * PI)) with (phi / (2 * PI) + IZR 1)
    by (field; lra).
  rewrite Zfloor_addz, plus_IZR. lra.
Qed.

Lemma cor_fundo_por_phi_normalizado theta phi phi' :
  phi_normalizado phi = phi_normalizado phi' ->
  RayTracer.cor_fundo theta phi = RayTracer.cor_fundo theta phi'.
Proof.
  intros H. unfold RayTracer.cor_fundo. cbv zeta.
  fold (phi_normalizado phi). fold (phi_normalizado phi').
  rewrite H. reflexivity.
Qed.

Lemma std_pow_unitario x y : 0 <= x <= 1 -> 0 < y -> 0 <= std_pow x y <= 1.
Proof.
  intros [H0 H1] Hy. destruct H0 as [H0|<-].
  - rewrite std_pow_positivo by exact H0. split.
    + left. apply Rpower_positivo.
    + replace 1 with (Rpower 1 y).
      * apply Rle_Rpower_l; lra.
      * unfold Rpower. rewrite ln_1, Rmult_0_r. apply exp_0.
  - rewrite std_pow_zero by exact Hy. lra.
Qed.

(** X18.  The background colour depends on the azimuth only modulo a full
    turn, [cor_fundo theta (phi + 2 pi) = cor_fundo theta phi], and its
    channels stay inside [[0.01, 0.51]] for red and green and inside
    [[0.03, 0.6]] for blue: the background is never black and never needs
    clamping. *)
Theorem cor_fundo_periodica_e_limitada (theta phi : R) :
  RayTracer.cor_fundo theta (phi + 2 * PI) = RayTracer.cor_fundo theta phi
  /\ 0.01 <= Pixel.r (RayTracer.cor_fundo theta phi) <= 0.51
  /\ 0.01 <= Pixel.g (RayTracer.cor_fundo theta phi) <= 0.51
  /\ 0.03 <= Pixel.b (RayTracer.cor_fundo theta phi) <= 0.6.
Proof.
  split.
  { apply cor_fundo_por_phi_normalizado. apply phi_normalizado_periodo. }
  unfold RayTracer.cor_fundo. cbv zeta. fold (phi_normalizado phi).
  pose proof (phi_normalizado_cotas phi) as [Hp0 Hp1].
  pose proof dois_pi_positivo as Hy.
  set (p := phi_normalizado phi) in *.
  destruct (_ || _).
  - cbn [Pixel.r Pixel.g Pixel.b].
    assert (Hh : 0 <= p / (2.0 * M_PI) < 1).
    { split.
      - apply Rmult_le_reg_r with (2.0 * M_PI); [lra|].
        unfold Rdiv. rewrite Rmult_assoc, Rinv_l; lra.
      - apply Rmult_lt_reg_r with (2.0 * M_PI); [lra|].
        unfold Rdiv. rewrite Rmult_assoc, Rinv_l; lra. }
    set (h := p / (2.0 * M_PI)) in *. lra.
  - cbn [Pixel.r Pixel.g Pixel.b].
    set (seed := theta * 100.0 + p * 57.0).
    assert (He : 0 <= (sin (seed * 12345.6789) + 1.0) / 2.0 <= 1).
    { pose proof (SIN_bound (seed * 12345.6789)). lra. }
    pose proof (std_pow_unitario _ 100.0 He ltac:(lra)) as Hpow.
    set (estrela := std_pow _ 100.0) in *. lra.
Qed.

End FundoCeleste.

(** ** The progress counter *)

Section Progresso.

Variable rt : RayTracer.t.

Lemma linhas_contadas_app a b :
  linhas_contadas (a ++ b) = (linhas_contadas a + linhas_contadas b)%Z.
Proof.
  induction a as [|[j i|] a IH]; cbn [app linhas_contadas]; lia.
Qed.

Lemma linhas_contadas_escritas (f : Z -> Acao) (l : list Z) :
  (forall i, f i <> ContaLinha) -> linhas_contadas (map f l) = 0%Z.
Proof.
  intros Hf. induction l as [|i l IH]; [reflexivity|].
  cbn [map linhas_contadas]. pose proof (Hf i).
  destruct (f i); [exact IH | congruence].
Qed.

Lemma linhas_contadas_nao_negativas a : (0 <= linhas_contadas a)%Z.
Proof. induction a as [|[j i|] a IH]; cbn [linhas_contadas]; lia. Qed.

Lemma linhas_contadas_Permutation a b :
  Permutation a b -> linhas_contadas a = linhas_contadas b.
Proof.
  induction 1 as [|x a b _ IH|x y a|a b c _ IH1 _ IH2].
  - reflexivity.
  - destruct x; cbn [linhas_contadas]; lia.
  - destruct x, y; cbn [linhas_contadas]; lia.
  - congruence.
Qed.

Lemma linhas_contadas_prefixo a k k' :
  (k <= k')%nat ->
  (linhas_contadas (firstn k a) <= linhas_contadas (firstn k' a))%Z.
Proof.
  revert k k'. induction a as [|x a IH]; intros k k' Hk.
  - rewrite !firstn_nil. lia.
  - destruct k as [|k].
    + cbn [firstn linhas_contadas]. apply linhas_contadas_nao_negativas.
    + destruct k' as [|k']; [lia|].
      cbn [firstn]. specialize (IH k k' ltac:(lia)).
      destruct x; cbn [linhas_contadas]; lia.
Qed.

Lemma linhas_apos_execucao acoes st :
  linhas_processadas (fold_left (RayTracer.executar rt) acoes st)
  = (linhas_processadas st + linhas_contadas acoes)%Z.
Proof.
  revert st. induction acoes as [|a acoes IH]; intros st.
  - cbn [fold_left linhas_contadas]. lia.
  - cbn [fold_left]. rewrite IH. destruct a as [j i|].
    + cbn [RayTracer.executar linhas_contadas].
      destruct (_ && _); reflexivity.
    + cbn [RayTracer.executar linhas_contadas linhas_processadas]. lia.
Qed.

Lemma linhas_contadas_bloco a b :
  linhas_contadas (RayTracer.processar_bloco rt a b)
  = Z.of_nat (List.length (intervalo a b)).
Proof.
  unfold RayTracer.processar_bloco.
  induction (intervalo a b) as [|j l IH]; [reflexivity|].
  cbn [flat_map List.length]. rewrite !linhas_contadas_app, IH.
  rewrite linhas_contadas_escritas by discriminate.
  cbn [linhas_contadas]. lia.
Qed.

Lemma linhas_contadas_threads :
  linhas_contadas (List.concat (RayTracer.threads rt))
  = Z.of_nat
      (List.length
         (List.concat
            (map (fun b => intervalo (fst b) (snd b)) (RayTracer.blocos rt)))).
Proof.
  unfold RayTracer.threads.
  induction (RayTracer.blocos rt) as [|b bs IH]; [reflexivity|].
  cbn [map List.concat].
  rewrite linhas_contadas_app, length_app, IH, linhas_contadas_bloco. lia.
Qed.

(** X19.  While the worker threads run, under any schedule, the value read
    by [progresso] never decreases and stays in [[0, 1]]; once all threads
    are joined the counter equals the number of rows and [progresso]
    returns exactly 1. *)
Theorem progresso_ate_o_fim (agenda : list Acao) :
  (1 <= RayTracer.num_threads_ rt)%Z ->
  (1 <= Camera.altura (RayTracer.camera_ rt))%Z ->
  intercala (RayTracer.threads rt) agenda ->
  let apos k :=
    fold_left (RayTracer.executar rt) (firstn k agenda)
              (RayTracer.render_inicial rt) in
  let fim :=
    fold_left (RayTracer.executar rt) agenda (RayTracer.render_inicial rt) in
  (forall k k', (k <= k')%nat ->
     0 <= RayTracer.progresso rt (apos k)
       <= RayTracer.progresso rt (apos k') /\
     RayTracer.progresso rt (apos k') <= 1)
  /\ linhas_processadas fim = Camera.altura (RayTracer.camera_ rt)
  /\ RayTracer.progresso rt fim = 1.
Proof.
  intros HT HH Hag apos fim.
  set (H := Camera.altura (RayTracer.camera_ rt)) in *.
  assert (Htotal : linhas_contadas agenda = H).
  { rewrite <- (linhas_contadas_Permutation _ _
                  (intercala_Permutation _ _ Hag)).
    rewrite linhas_contadas_threads.
    rewrite (blocos_cobrem rt HT) by (fold H; lia).
    rewrite length_intervalo. fold H. lia. }
  assert (Hfim : linhas_processadas fim = H).
  { unfold fim. rewrite linhas_apos_execucao. cbn [RayTracer.render_inicial
      linhas_processadas]. lia. }
  assert (HH0 : 0 < IZR H) by (apply IZR_lt; lia).
  split; [|split; [exact Hfim|]].
  - intros k k' Hk. unfold RayTracer.progresso, apos. fold H.
    rewrite !linhas_apos_execucao.
    cbn [RayTracer.render_inicial linhas_processadas]. rewrite !Z.add_0_l.
    pose proof (linhas_contadas_nao_negativas (firstn k agenda)) as H0.
    pose proof (linhas_contadas_prefixo agenda k k' Hk) as H1.
    assert (H3 : (linhas_contadas (firstn k' agenda)
                  <= linhas_contadas (firstn (Nat.max k' (List.length agenda))
                                        agenda))%Z)
      by (apply linhas_contadas_prefixo; lia).
    rewrite (firstn_all2 agenda (n := Nat.max k' (List.length agenda))) in H3
      by lia.
    rewrite Htotal in H3.
    apply IZR_le in H0, H1, H3.
    set (a := IZR (linhas_contadas (firstn k agenda))) in *.
    set (b := IZR (linhas_contadas (firstn k' agenda))) in *.
    unfold Rdiv. repeat split.
    + apply Rmult_le_pos; [exact H0 | left; apply Rinv_0_lt_compat; exact HH0].
    + apply Rmult_le_compat_r;
        [left; apply Rinv_0_lt_compat; exact HH0 | exact H1].
    + apply Rmult_le_reg_r with (IZR H); [exact HH0|].
      rewrite Rmult_assoc, Rinv_l by lra. lra.
  - unfold RayTracer.progresso. fold H. rewrite Hfim. field. lra.
Qed.

End Progresso.

(** X19, witness.  The one-pixel raster with the default four threads, run
    one thread after the other. *)
Lemma progresso_ate_o_fim_witness :
  (1 <= RayTracer.num_threads_ tracer_um_pixel)%Z
  /\ (1 <= Camera.altura (RayTracer.camera_ tracer_um_pixel))%Z
  /\ intercala (RayTracer.threads tracer_um_pixel)
       (List.concat (RayTracer.threads tracer_um_pixel))
  /\ RayTracer.progresso tracer_um_pixel
       (fold_left (RayTracer.executar tracer_um_pixel)
          (List.concat (RayTracer.threads tracer_um_pixel))
          (RayTracer.render_inicial tracer_um_pixel)) = 1.
Proof.
  assert (HT : (1 <= RayTracer.num_threads_ tracer_um_pixel)%Z)
    by (change (1 <= 4)%Z; lia).
  assert (HH : (1 <= Camera.altura (RayTracer.camera_ tracer_um_pixel))%Z)
    by (change (1 <= 1)%Z; lia).
  pose proof (intercala_sequencial (RayTracer.threads tracer_um_pixel)) as Hag.
  do 3 (split; [assumption|]).
  exact (proj2 (proj2 (progresso_ate_o_fim tracer_um_pixel _ HT HH Hag))).
Defined.

(** ** Bytes of the PPM file and the channels they encode *)

Section BytesDoArquivo.

Lemma byte_truncado_fiel c : byte_fiel c (byte_truncado c).
Proof.
  pose proof (byte_truncado_cotas c) as Hb.
  pose proof (clamp01_cotas c) as Hc.
  unfold byte_fiel. split; [exact Hb|].
  unfold byte_truncado in *.
  destruct (arredonda_double_ate_255 _ (produto_do_canal c))
    as (Hfl & Herr & Hlo & Hhi).
  pose proof (Zfloor_bound (arredonda_double (clamp01 c * 255))) as [Hf1 Hf2].
  set (y := clamp01 c * 255) in *.
  set (n := Zfloor (arredonda_double y)) in *.
  assert (Hbaixo : c <= 0 -> clamp01 c = 0).
  { intros H. unfold clamp01, Rmax, Rmin.
    destruct (Rle_dec 1 c); destruct (Rle_dec 0 _); lra. }
  assert (Halto : 1 <= c -> clamp01 c = 1).
  { intros H. unfold clamp01, Rmax, Rmin.
    destruct (Rle_dec 1 c); destruct (Rle_dec 0 _); lra. }
  assert (Hmeio : 0 <= c <= 1 -> clamp01 c = c).
  { intros H. unfold clamp01, Rmax, Rmin.
    destruct (Rle_dec 1 c); destruct (Rle_dec 0 _); lra. }
  split; [|split].
  - intros H. unfold n. apply Zfloor_eq.
    assert (Hy : y = 0) by (unfold y; rewrite (Hbaixo H); ring).
    specialize (Hlo 0%Z ltac:(lra)). specialize (Hhi 0%Z ltac:(lra)).
    simpl. lra.
  - intros H. unfold n. apply Zfloor_eq.
    assert (Hy : y = 255) by (unfold y; rewrite (Halto H); ring).
    specialize (Hlo 255%Z ltac:(lra)). specialize (Hhi 255%Z ltac:(lra)).
    simpl. lra.
  - intros H.
    assert (Hy : y = 255 * c) by (unfold y; rewrite (Hmeio H); ring).
    assert (Hcima : y < IZR n + 1).
    { destruct (Rlt_dec y (IZR n + 1)) as [|Hn]; [assumption|].
      specialize (Hlo (n + 1)%Z). rewrite plus_IZR in Hlo.
      specialize (Hlo ltac:(lra)). lra. }
    assert (Hbaixo' : IZR n - powerRZ 2 (-46) <= y).
    { pose proof (Rle_abs (arredonda_double y - y)). lra. }
    pose proof (potencia_de_2_positiva (-46)) as Hp.
    assert (Hp1 : powerRZ 2 (-46) < 1).
    { pose proof (potencia_de_2_monotona (-46) (-1) ltac:(lia)) as Hm.
      change (powerRZ 2 (-1)) with (/ (2 * 1)) in Hm. lra. }
    split; [rewrite <- Hy; split; assumption|].
    replace (c - IZR n / 255) with ((y - IZR n) / 255) by (rewrite Hy; field).
    unfold Rdiv at 1. rewrite Rabs_mult, (Rabs_right (/ 255)) by lra.
    assert (Habs : Rabs (y - IZR n) < 1).
    { apply Rabs_def1; lra. }
    lra.
Qed.

(** X20.  What the three bytes written for a pixel say about its linear
    channels: each byte lies in [[0, 255]]; a channel at or below 0 is
    written as 0 and a channel at or above 1 as 255; for a channel [c] in
    [[0, 1]] the byte [n] is the integer part of the double nearest to
    [255 c], so that [n - 2^(-46) <= 255 c < n + 1], and reading the file
    back as [n / 255] recovers the channel to within [1/255]. *)
Theorem bytes_do_pixel_fieis (p : Pixel.t) :
  byte_fiel (Pixel.r p) (Pixel.r_byte (Pixel.clamp p))
  /\ byte_fiel (Pixel.g p) (Pixel.g_byte (Pixel.clamp p))
  /\ byte_fiel (Pixel.b p) (Pixel.b_byte (Pixel.clamp p)).
Proof.
  unfold Pixel.r_byte, Pixel.g_byte, Pixel.b_byte, Pixel.clamp.
  cbn [Pixel.r Pixel.g Pixel.b].
  rewrite !byte_codigo.
  split; [|split]; apply byte_truncado_fiel.
Qed.

End BytesDoArquivo.

(** ** The impact fields and the step count of a ray *)

Section CamposDoResultado.

Variable rt : RayTracer.t.

Lemma laco_campos : forall n i I res e,
  ResultadoRaio.r_impacto res = None ->
  ResultadoRaio.phi_impacto res = None ->
  ResultadoRaio.theta_impacto res = None ->
  let out := RayTracer.laco rt n i I res e in
  match ResultadoRaio.destino out with
  | ResultadoRaio.HORIZONTE =>
      (exists r, ResultadoRaio.r_impacto out = Some r
                 /\ r < RayTracer.rs_ rt * RayTracer.tolerancia_horizonte_ rt)
      /\ ResultadoRaio.phi_impacto out = None
      /\ ResultadoRaio.theta_impacto out = None
      /\ (i <= ResultadoRaio.passos out < i + Z.of_nat n)%Z
  | ResultadoRaio.DISCO =>
      (exists r phi theta,
          ResultadoRaio.r_impacto out = Some r
          /\ ResultadoRaio.phi_impacto out = Some phi
          /\ ResultadoRaio.theta_impacto out = Some theta
          /\ Rabs (theta - PI / 2) < 0.01
          /\ DiscoAcrecao.raio_interno (RayTracer.disco_ rt) <= r
             <= DiscoAcrecao.raio_externo (RayTracer.disco_ rt)
          /\ RayTracer.rs_ rt * RayTracer.tolerancia_horizonte_ rt <= r)
      /\ (i <= ResultadoRaio.passos out < i + Z.of_nat n)%Z
  | ResultadoRaio.INFINITO =>
      ResultadoRaio.r_impacto out = None
      /\ ResultadoRaio.phi_impacto out = None
      /\ ResultadoRaio.theta_impacto out = None
      /\ (i <= ResultadoRaio.passos out < i + Z.of_nat n)%Z
  | ResultadoRaio.ERRO =>
      ResultadoRaio.r_impacto out = None
      /\ ResultadoRaio.phi_impacto out = None
      /\ ResultadoRaio.theta_impacto out = None
      /\ ResultadoRaio.passos out
         = match n with
           | O => ResultadoRaio.passos res
           | S _ => (i + Z.of_nat n - 1)%Z
           end
  end.
Proof.
  induction n as [|n IH]; intros i I res e Hr Hphi Hth.
  - cbn. auto.
  - cbn [RayTracer.laco]. cbv zeta.
    destruct (Rltb _ _) eqn:E1.
    { cbn. apply Rltb_true in E1.
      repeat split; try assumption; try lia.
      eexists; split; [reflexivity | exact E1]. }
    apply Rltb_false in E1.
    destruct (Rltb _ _ && _) eqn:E2.
    { cbn. apply cruza_disco_codigo in E2. destruct E2 as [Ht Hd].
      split; [|lia].
      exists (EstadoGeodesica.r e), (EstadoGeodesica.phi e),
        (EstadoGeodesica.theta e).
      repeat split; try reflexivity; try tauto; try lra. }
    destruct (Rgtb _ _) eqn:E3.
    { destruct (RayTracer.usar_fundo_ rt); cbn;
        repeat split; try assumption; lia. }
    specialize (IH (i + 1)%Z
                  (IntegradorGeodesico.set_passo I
                     (RayTracer.passo_inicial_ rt
                      * sqrt (EstadoGeodesica.r e / RayTracer.rs_ rt)))
                  (ResultadoRaio.com_passos res i)
                  (RayTracer.manter_theta
                     (IntegradorGeodesico.passo_rk4
                        (IntegradorGeodesico.set_passo I
                           (RayTracer.passo_inicial_ rt
                            * sqrt (EstadoGeodesica.r e / RayTracer.rs_ rt)))
                        e))
                  Hr Hphi Hth).
    cbv zeta in IH.
    destruct (ResultadoRaio.destino _);
      try (destruct IH as (H1 & H2 & H3 & H4);
           repeat split; try assumption; lia).
    + destruct IH as (H1 & H4). split; [assumption | lia].
    + destruct IH as (H1 & H2 & H3 & H4).
      repeat split; try assumption.
      rewrite H4. destruct n; cbn [ResultadoRaio.com_passos
        ResultadoRaio.passos]; lia.
Qed.

(** X21.  Which fields of [ResultadoRaio] a trace assigns, for a turn limit
    of at least 1 (the constructor sets 10000).  A ray that ends on the
    horizon reports only [r_impacto], below [r_s] times the horizon
    tolerance; a ray that ends on the disk reports the three impact fields,
    with the polar angle within 0.01 of [pi/2] and the radius inside the
    annulus; a ray that escapes or runs out of turns leaves the three
    fields unassigned.  [passos] is the 0-based turn of the event, below
    [max_passos_], and is [max_passos_ - 1] when the turns ran out. *)
Theorem tracar_raio_campos (alfa beta : R) :
  (1 <= RayTracer.max_passos_ rt)%Z ->
  campos_do_resultado rt (RayTracer.tracar_raio rt alfa beta).
Proof.
  intros Hmax.
  unfold campos_do_resultado, RayTracer.tracar_raio. cbv zeta.
  pose proof (laco_campos (Z.to_nat (RayTracer.max_passos_ rt)) 0
                (IntegradorGeodesico.novo (RayTracer.metrica_ rt)
                   (RayTracer.passo_inicial_ rt))
                (ResultadoRaio.mk ResultadoRaio.INFINITO None None None 0
                   Pixel.padrao)
                (RayTracer.estado_inicial rt alfa beta)
                eq_refl eq_refl eq_refl) as H.
  cbv zeta in H.
  destruct (ResultadoRaio.destino _).
  - destruct H as (H1 & H2 & H3 & H4). repeat split; try assumption; lia.
  - destruct H as (H1 & H4). split; [assumption | lia].
  - destruct H as (H1 & H2 & H3 & H4). repeat split; try assumption; lia.
  - destruct H as (H1 & H2 & H3 & H4). repeat split; try assumption.
    rewrite H4.
    destruct (Z.to_nat (RayTracer.max_passos_ rt)) eqn:E; lia.
Qed.

End CamposDoResultado.

(** X21, witness.  The central ray of the ten-solar-mass tracer. *)
Lemma tracar_raio_campos_witness :
  (1 <= RayTracer.max_passos_ tracer_padrao)%Z
  /\ campos_do_resultado tracer_padrao
       (RayTracer.tracar_raio tracer_padrao 0 0).
Proof.
  assert (H : (1 <= RayTracer.max_passos_ tracer_padrao)%Z)
    by (change (1 <= 10000)%Z; lia).
  split; [exact H|].
  exact (tracar_raio_campos tracer_padrao 0 0 H).
Defined.

(** ** The Kerr metric: horizons and ergosphere *)

Lemma spin_limitado s : -0.998 <= std_max (-0.998) (std_min 0.998 s) <= 0.998.
Proof.
  unfold std_max, std_min.
  destruct (Rlt_dec s 0.998); destruct (Rlt_dec _ _); lra.
Qed.

Lemma raizes_de_Delta (M a s r : R) :
  s * s = M * M - a * a ->
  r * r - 2 * M * r + a * a = (r - (M + s)) * (r - (M - s)).
Proof. intros H. replace (a * a) with (M * M - s * s) by lra. ring. Qed.

Lemma fracao_abaixo_de_1 x y : 0 < y -> x < y -> x / y < 1.
Proof.
  intros Hy H. apply Rmult_lt_reg_r with y; [exact Hy|].
  unfold Rdiv. rewrite Rmult_assoc, Rinv_l; lra.
Qed.

Lemma fracao_acima_de_1 x y : 0 < y -> y < x -> 1 < x / y.
Proof.
  intros Hy H. apply Rmult_lt_reg_r with y; [exact Hy|].
  unfold Rdiv. rewrite Rmult_assoc, Rinv_l; lra.
Qed.

Section Kerr.

Variables ms spin : R.
Hypothesis massa_solar_positiva : 0 < ms.

Let k := MetricaKerr.novo ms spin.
Let M := MetricaKerr.M_ k.
Let a := MetricaKerr.a_ k.

Lemma kerr_massa_positiva : 0 < M.
Proof.
  unfold M, k. cbn [MetricaKerr.novo MetricaKerr.M_].
  pose proof G_positivo. pose proof MASSA_SOL_positiva.
  pose proof C2_positivo.
  apply Rdiv_lt_0_compat; [|assumption].
  apply Rmult_lt_0_compat; [assumption|].
  apply Rmult_lt_0_compat; assumption.
Qed.

Lemma kerr_subextremo : a * a < M * M.
Proof.
  pose proof kerr_massa_positiva as HM.
  pose proof (spin_limitado spin) as Hs.
  assert (Ha : a = std_max (-0.998) (std_min 0.998 spin) * M) by reflexivity.
  set (s := std_max (-0.998) (std_min 0.998 spin)) in *.
  rewrite Ha.
  assert (Hs2 : s * s <= 0.998 * 0.998) by nra.
  assert (HM2 : 0 < M * M) by nra.
  replace (s * M * (s * M)) with (s * s * (M * M)) by ring.
  nra.
Qed.

Lemma kerr_raiz :
  let s := sqrt (M * M - a * a) in
  0 < s <= M /\ s * s = M * M - a * a.
Proof.
  pose proof kerr_massa_positiva as HM.
  pose proof kerr_subextremo as Ha.
  cbv zeta.
  assert (Hss : sqrt (M * M - a * a) * sqrt (M * M - a * a) = M * M - a * a)
    by (apply sqrt_sqrt; lra).
  assert (Hpos : 0 < sqrt (M * M - a * a)) by (apply sqrt_lt_R0; lra).
  repeat split; try assumption.
  destruct (Rle_dec (sqrt (M * M - a * a)) M) as [|Hn]; [assumption|].
  pose proof (Rle_0_sqr a) as Hq. unfold Rsqr in Hq. nra.
Qed.

Lemma kerr_raiz_ergosfera theta :
  let s := sqrt (M * M - a * a * cos theta * cos theta) in
  sqrt (M * M - a * a) <= s <= M
  /\ s * s = M * M - (a * cos theta) * (a * cos theta).
Proof.
  pose proof kerr_massa_positiva as HM.
  pose proof kerr_subextremo as Ha.
  cbv zeta.
  pose proof (COS_bound theta) as [Hc1 Hc2].
  assert (Hc : cos theta * cos theta <= 1) by nra.
  pose proof (Rle_0_sqr a) as Hq. unfold Rsqr in Hq.
  pose proof (Rle_0_sqr (a * cos theta)) as Hq2. unfold Rsqr in Hq2.
  assert (Hac : a * a * cos theta * cos theta <= a * a).
  { replace (a * a * cos theta * cos theta)
      with (a * a * (cos theta * cos theta)) by ring. nra. }
  assert (Hss : sqrt (M * M - a * a * cos theta * cos theta)
                * sqrt (M * M - a * a * cos theta * cos theta)
                = M * M - a * a * cos theta * cos theta)
    by (apply sqrt_sqrt; lra).
  split; [split|].
  - apply sqrt_le_1_alt. lra.
  - pose proof (sqrt_pos (M * M - a * a * cos theta * cos theta)) as Hp.
    set (e := sqrt (M * M - a * a * cos theta * cos theta)) in *.
    destruct (Rle_dec e M) as [|Hn]; [assumption|].
    assert (He : M * M < e * e) by nra.
    lra.
  - rewrite Hss. ring.
Qed.

(** X22.  For a positive mass and any requested spin (the constructor clamps
    it to [[-0.998, 0.998]]) the two horizons are real and ordered,
    [0 <= r- < M < r+ <= 2M]; they are the two roots of [Delta], with
    [r+ + r- = 2M] and [r+ r- = a^2]; and the namespace functions
    [raio_kerr] and [raio_ergosfera] both return the outer horizon
    radius. *)
Theorem kerr_horizontes :
  let rp := MetricaKerr.horizonte_externo k in
  let rm := MetricaKerr.horizonte_interno k in
  (0 <= rm /\ rm < M /\ M < rp /\ rp <= 2 * M)
  /\ rp + rm = 2 * M
  /\ rp * rm = a * a
  /\ (forall r, MetricaKerr.Delta k r = (r - rp) * (r - rm))
  /\ BuracoNegro.raio_kerr (ms * MASSA_SOL) (MetricaKerr.spin_ k) = rp
  /\ BuracoNegro.raio_ergosfera (ms * MASSA_SOL) (MetricaKerr.spin_ k) = rp.
Proof.
  pose proof kerr_massa_positiva as HM.
  pose proof kerr_raiz as [[Hs0 HsM] Hss]. cbv zeta in Hs0, HsM, Hss.
  cbv zeta. unfold MetricaKerr.horizonte_externo, MetricaKerr.horizonte_interno.
  fold M a. set (s := sqrt (M * M - a * a)) in *.
  assert (HD : forall r, MetricaKerr.Delta k r = (r - (M + s)) * (r - (M - s))).
  { intros r. unfold MetricaKerr.Delta. fold M a.
    replace 2.0 with 2 by lra. apply raizes_de_Delta. exact Hss. }
  split; [repeat split; lra|].
  split; [ring|].
  split; [replace (a * a) with (M * M - s * s) by lra; ring|].
  split; [exact HD|].
  split; reflexivity.
Qed.

(** X23.  The ergosphere radius [ergosfera theta] lies between the outer
    horizon and [2M]; it touches the horizon at the poles and equals [2M]
    on the equator; it is the static limit: [g_tt] vanishes on it, is
    negative outside it and positive between the outer horizon and it. *)
Theorem kerr_ergosfera (theta : R) :
  let rp := MetricaKerr.horizonte_externo k in
  let re := MetricaKerr.ergosfera k theta in
  rp <= re <= 2 * M
  /\ MetricaKerr.ergosfera k 0 = rp
  /\ MetricaKerr.ergosfera k PI = rp
  /\ MetricaKerr.ergosfera k (PI / 2) = 2 * M
  /\ MetricaKerr.g_tt k re theta = 0
  /\ (forall r, re < r -> MetricaKerr.g_tt k r theta < 0)
  /\ (forall r, rp <= r < re -> 0 < MetricaKerr.g_tt k r theta).
Proof.
  pose proof kerr_massa_positiva as HM.
  pose proof kerr_raiz as [[Hs0 HsM] Hss]. cbv zeta in Hs0, HsM, Hss.
  pose proof (kerr_raiz_ergosfera theta) as [[He0 HeM] Hee].
  cbv zeta in He0, HeM, Hee.
  cbv zeta. unfold MetricaKerr.horizonte_externo, MetricaKerr.ergosfera.
  cbv zeta. fold M a.
  set (s := sqrt (M * M - a * a)) in *.
  set (e := sqrt (M * M - a * a * cos theta * cos theta)) in *.
  assert (HS : forall r,
             MetricaKerr.Sigma k r theta - 2 * M * r
             = (r - (M + e)) * (r - (M - e))).
  { intros r. unfold MetricaKerr.Sigma. fold a.
    rewrite <- (raizes_de_Delta M (a * cos theta) e r Hee). ring. }
  assert (HSpos : forall r, M < r -> 0 < MetricaKerr.Sigma k r theta).
  { intros r Hr. unfold MetricaKerr.Sigma. fold a.
    pose proof (Rle_0_sqr (a * cos theta)) as Hq. unfold Rsqr in Hq.
    replace (a * a * cos theta * cos theta)
      with (a * cos theta * (a * cos theta)) by ring.
    nra. }
  assert (Hgtt : forall r,
             MetricaKerr.g_tt k r theta
             = 2 * M * r / MetricaKerr.Sigma k r theta - 1).
  { intros r. unfold MetricaKerr.g_tt. cbv zeta. fold M.
    replace 2.0 with 2 by lra. lra. }
  split; [lra|].
  split; [rewrite cos_0; unfold s; f_equal; f_equal; ring|].
  split; [rewrite cos_PI; unfold s; f_equal; f_equal; ring|].
  split.
  { rewrite cos_PI2. replace (M * M - a * a * 0 * 0) with (M * M) by ring.
    rewrite sqrt_square by lra. ring. }
  split; [|split].
  - rewrite Hgtt.
    assert (H0 : MetricaKerr.Sigma k (M + e) theta = 2 * M * (M + e)).
    { pose proof (HS (M + e)) as H.
      replace ((M + e - (M + e)) * (M + e - (M - e))) with 0 in H by ring.
      lra. }
    rewrite H0. field. nra.
  - intros r Hr. rewrite Hgtt.
    pose proof (HS r) as H. pose proof (HSpos r ltac:(lra)) as Hp.
    assert (Hlt : 2 * M * r < MetricaKerr.Sigma k r theta) by nra.
    pose proof (fracao_abaixo_de_1 _ _ Hp Hlt). lra.
  - intros r [Hr1 Hr2]. rewrite Hgtt.
    pose proof (HS r) as H. pose proof (HSpos r ltac:(lra)) as Hp.
    assert (Hlt : MetricaKerr.Sigma k r theta < 2 * M * r) by nra.
    pose proof (fracao_acima_de_1 _ _ Hp Hlt). lra.
Qed.

End Kerr.

(** X22, witness.  Ten solar masses with the requested spin 0.5. *)
Lemma kerr_horizontes_witness :
  0 < 10
  /\ MetricaKerr.horizonte_externo (MetricaKerr.novo 10 0.5)
     + MetricaKerr.horizonte_interno (MetricaKerr.novo 10 0.5)
     = 2 * MetricaKerr.M_ (MetricaKerr.novo 10 0.5).
Proof.
  assert (H : 0 < 10) by lra.
  split; [exact H|].
  exact (proj1 (proj2 (kerr_horizontes 10 0.5 H))).
Defined.

(** X23, witness.  Ten solar masses, spin 0.5, at the equator. *)
Lemma kerr_ergosfera_witness :
  0 < 10
  /\ MetricaKerr.g_tt (MetricaKerr.novo 10 0.5)
       (MetricaKerr.ergosfera (MetricaKerr.novo 10 0.5) (PI / 2)) (PI / 2)
     = 0.
Proof.
  assert (H : 0 < 10) by lra.
  split; [exact H|].
  exact (proj1 (proj2 (proj2 (proj2 (proj2
           (kerr_ergosfera 10 0.5 H (PI / 2))))))).
Defined.

(** ** Spin zero: the Kerr metric is the Schwarzschild metric *)

Lemma std_cbrt_1 : std_cbrt 1 = 1.
Proof.
  unfold std_cbrt. destruct (Rlt_dec 0 1); [|lra].
  unfold Rpower. rewrite ln_1, Rmult_0_r. apply exp_0.
Qed.

Section KerrSemSpin.

Variable ms : R.
Hypothesis massa_solar_positiva : 0 < ms.

Let k := MetricaKerr.novo ms 0.
Let m := MetricaSchwarzschild.novo ms.
Let rs := MetricaSchwarzschild.raio_schwarzschild m.

Lemma kerr_sem_spin_campos :
  MetricaKerr.a_ k = 0 /\ MetricaKerr.spin_ k = 0
  /\ 2 * MetricaKerr.M_ k = rs /\ 0 < rs.
Proof.
  pose proof (kerr_massa_positiva ms 0 massa_solar_positiva) as HM.
  change (0 < MetricaKerr.M_ k) in HM.
  assert (Hs : MetricaKerr.spin_ k = 0).
  { unfold k. cbn [MetricaKerr.novo MetricaKerr.spin_].
    unfold std_max, std_min.
    destruct (Rlt_dec 0 0.998); [|lra]. destruct (Rlt_dec _ _); lra. }
  assert (Ha : MetricaKerr.a_ k = 0).
  { change (MetricaKerr.a_ k) with (MetricaKerr.spin_ k * MetricaKerr.M_ k).
    rewrite Hs. ring. }
  assert (Hrs : 2 * MetricaKerr.M_ k = rs).
  { unfold rs, m, k, MetricaSchwarzschild.raio_schwarzschild.
    cbn [MetricaSchwarzschild.novo MetricaSchwarzschild.rs_
         MetricaKerr.novo MetricaKerr.M_]. lra. }
  repeat split; try assumption. lra.
Qed.

(** X24.  A Kerr metric built with spin 0 is the Schwarzschild metric of the
    same mass: both horizons formulas give [r_s] and 0, the ergosphere is
    the horizon at every latitude, there is no frame dragging, the
    prograde and retrograde ISCO are both [3 r_s], and outside the horizon
    the metric components agree with those of [MetricaSchwarzschild]
    ([g_rr] wherever [Delta] is at least the guard [1e-10]). *)
Theorem kerr_sem_spin_e_schwarzschild :
  MetricaKerr.horizonte_externo k = rs
  /\ MetricaKerr.horizonte_interno k = 0
  /\ (forall theta, MetricaKerr.ergosfera k theta = rs)
  /\ MetricaKerr.velocidade_angular_horizonte k = 0
  /\ MetricaKerr.raio_isco k true = MetricaSchwarzschild.raio_isco m
  /\ MetricaKerr.raio_isco k false = MetricaSchwarzschild.raio_isco m
  /\ (forall r theta,
        rs < r ->
        MetricaKerr.g_tt k r theta = MetricaSchwarzschild.g_tt m r
        /\ MetricaKerr.g_t_phi k r theta = 0
        /\ MetricaKerr.g_theta_theta k r theta
           = MetricaSchwarzschild.g_theta_theta r
        /\ MetricaKerr.g_phi_phi k r theta
           = MetricaSchwarzschild.g_phi_phi r theta
        /\ MetricaKerr.frame_dragging k r theta = 0
        /\ (1e-10 <= MetricaKerr.Delta k r ->
            MetricaKerr.g_rr k r theta = MetricaSchwarzschild.g_rr m r)).
Proof.
  destruct kerr_sem_spin_campos as (Ha & Hs & HM & Hrs).
  assert (HM0 : 0 < MetricaKerr.M_ k) by lra.
  assert (Hraiz : sqrt (MetricaKerr.M_ k * MetricaKerr.M_ k) = MetricaKerr.M_ k)
    by (apply sqrt_square; lra).
  split.
  { unfold MetricaKerr.horizonte_externo. rewrite Ha.
    replace (MetricaKerr.M_ k * MetricaKerr.M_ k - 0 * 0)
      with (MetricaKerr.M_ k * MetricaKerr.M_ k) by ring.
    rewrite Hraiz. lra. }
  split.
  { unfold MetricaKerr.horizonte_interno. rewrite Ha.
    replace (MetricaKerr.M_ k * MetricaKerr.M_ k - 0 * 0)
      with (MetricaKerr.M_ k * MetricaKerr.M_ k) by ring.
    rewrite Hraiz. lra. }
  split.
  { intros theta. unfold MetricaKerr.ergosfera. cbv zeta. rewrite Ha.
    replace (MetricaKerr.M_ k * MetricaKerr.M_ k - 0 * 0 * cos theta * cos theta)
      with (MetricaKerr.M_ k * MetricaKerr.M_ k) by ring.
    rewrite Hraiz. lra. }
  split.
  { unfold MetricaKerr.velocidade_angular_horizonte. cbv zeta. rewrite Ha.
    unfold Rdiv. ring. }
  assert (Hz1 : 1.0 + std_cbrt (1.0 - MetricaKerr.spin_ k * MetricaKerr.spin_ k)
                      * (std_cbrt (1.0 + MetricaKerr.spin_ k)
                         + std_cbrt (1.0 - MetricaKerr.spin_ k)) = 3).
  { rewrite Hs. replace (1.0 - 0 * 0) with 1 by lra.
    replace (1.0 + 0) with 1 by lra. replace (1.0 - 0) with 1 by lra.
    rewrite std_cbrt_1. lra. }
  assert (Hisco : forall b,
             MetricaKerr.raio_isco k b = MetricaSchwarzschild.raio_isco m).
  { intros b. unfold MetricaKerr.raio_isco. cbv zeta. rewrite Hz1, Hs.
    replace (3.0 * 0 * 0 + 3 * 3) with (3 * 3) by lra.
    rewrite sqrt_square by lra.
    replace ((3.0 - 3) * (3.0 + 3 + 2.0 * 3)) with 0 by lra.
    rewrite sqrt_0.
    unfold MetricaSchwarzschild.raio_isco.
    change (MetricaSchwarzschild.rs_ m) with rs.
    destruct b; lra. }
  split; [apply Hisco|]. split; [apply Hisco|].
  intros r theta Hr.
  assert (Hr0 : 0 < r) by lra.
  assert (HSigma : MetricaKerr.Sigma k r theta = r * r).
  { unfold MetricaKerr.Sigma. rewrite Ha. ring. }
  assert (HDelta : MetricaKerr.Delta k r = r * (r - rs)).
  { unfold MetricaKerr.Delta. rewrite Ha.
    replace 2.0 with 2 by lra. rewrite <- HM. ring. }
  split; [|split; [|split; [|split; [|split]]]].
  - unfold MetricaKerr.g_tt, MetricaSchwarzschild.g_tt. cbv zeta.
    rewrite HSigma. change (MetricaSchwarzschild.rs_ m) with rs.
    destruct (Rle_dec r rs); [lra|].
    replace 2.0 with 2 by lra. rewrite <- HM.
    replace 1.0 with 1 by lra. field. lra.
  - unfold MetricaKerr.g_t_phi. cbv zeta. rewrite Ha. unfold Rdiv. ring.
  - unfold MetricaKerr.g_theta_theta, MetricaSchwarzschild.g_theta_theta.
    exact HSigma.
  - unfold MetricaKerr.g_phi_phi, MetricaSchwarzschild.g_phi_phi. cbv zeta.
    rewrite Ha. unfold Rdiv. ring.
  - unfold MetricaKerr.frame_dragging. cbv zeta. rewrite Ha.
    unfold Rdiv. ring.
  - intros HD. unfold MetricaKerr.g_rr, MetricaSchwarzschild.g_rr. cbv zeta.
    change (MetricaSchwarzschild.rs_ m) with rs.
    destruct (Rle_dec r rs); [lra|].
    destruct (Rltb _ _) eqn:E.
    { apply Rltb_true in E. rewrite Rabs_pos_eq in E by lra. lra. }
    rewrite HSigma, HDelta. replace 1.0 with 1 by lra. field. lra.
Qed.

End KerrSemSpin.

(** X24, witness.  Ten solar masses. *)
Lemma kerr_sem_spin_e_schwarzschild_witness :
  0 < 10
  /\ MetricaKerr.horizonte_externo (MetricaKerr.novo 10 0)
     = MetricaSchwarzschild.raio_schwarzschild (MetricaSchwarzschild.novo 10).
Proof.
  assert (H : 0 < 10) by lra.
  split; [exact H|].
  exact (proj1 (kerr_sem_spin_e_schwarzschild 10 H)).
Defined.

(** ** Hawking radiation: the formulas of constantes.hpp agree *)

Section Hawking.

Lemma H_BARRA_positiva : 0 < H_BARRA.
Proof.
  unfold H_BARRA, H_PLANCK, CONSTANTE_PLANCK.
  pose proof dois_pi_positivo.
  apply Rdiv_lt_0_compat; lra.
Qed.

Lemma K_BOLTZMANN_positiva : 0 < K_BOLTZMANN.
Proof. unfold K_BOLTZMANN, CONSTANTE_BOLTZMANN. lra. Qed.

Lemma std_pow_natural x (n : nat) :
  0 < x -> std_pow x (INR n) = x ^ n.
Proof.
  intros H. rewrite std_pow_positivo by exact H. apply Rpower_pow. exact H.
Qed.

(** X25.  For a positive mass the Hawking formulas are mutually consistent:
    the temperature is [hbar kappa / (2 pi c k_B)] for the surface gravity
    [kappa] returned by [gravidade_superficial]; temperature times entropy
    is [M c^2 / 2]; luminosity times evaporation time is [M c^2 / 3];
    doubling the mass halves the temperature and multiplies the evaporation
    time by 8. *)
Theorem hawking_consistente (massa_kg : R) :
  0 < massa_kg ->
  BuracoNegro.temperatura_hawking massa_kg
  = H_BARRA * BuracoNegro.gravidade_superficial massa_kg
    / (2 * PI * C * K_BOLTZMANN)
  /\ BuracoNegro.temperatura_hawking massa_kg
     * BuracoNegro.entropia_bekenstein_hawking massa_kg
     = massa_kg * C2 / 2
  /\ BuracoNegro.luminosidade_hawking massa_kg
     * BuracoNegro.tempo_evaporacao massa_kg
     = massa_kg * C2 / 3
  /\ BuracoNegro.temperatura_hawking (2 * massa_kg)
     = BuracoNegro.temperatura_hawking massa_kg / 2
  /\ BuracoNegro.tempo_evaporacao (2 * massa_kg)
     = 8 * BuracoNegro.tempo_evaporacao massa_kg.
Proof.
  intros Hm.
  pose proof C_positivo as HC. pose proof G_positivo as HG.
  pose proof H_BARRA_positiva as HH. pose proof K_BOLTZMANN_positiva as HK.
  pose proof PI_RGT_0 as HPI.
  assert (E6 : std_pow C 6 = C ^ 6).
  { replace 6 with (INR 6) by (simpl; lra). apply std_pow_natural. exact HC. }
  assert (E4 : std_pow C 4 = C ^ 4).
  { replace 4 with (INR 4) by (simpl; lra). apply std_pow_natural. exact HC. }
  assert (E3 : forall x, 0 < x -> std_pow x 3 = x ^ 3).
  { intros x Hx. replace 3 with (INR 3) by (simpl; lra).
    apply std_pow_natural. exact Hx. }
  unfold BuracoNegro.temperatura_hawking, BuracoNegro.gravidade_superficial,
    BuracoNegro.entropia_bekenstein_hawking, BuracoNegro.luminosidade_hawking,
    BuracoNegro.tempo_evaporacao, BuracoNegro.raio_schwarzschild, C2, M_PI.
  cbv zeta. rewrite E6, E4, !E3 by lra.
  generalize dependent H_BARRA. generalize dependent K_BOLTZMANN.
  generalize dependent G. generalize dependent C.
  intros c Hc _ _ g Hg kb Hkb hb Hhb.
  decimais.
  repeat split; field; repeat split; lra.
Qed.

End Hawking.

(** X25, witness.  One solar mass. *)
Lemma hawking_consistente_witness :
  0 < MASSA_SOL
  /\ BuracoNegro.temperatura_hawking MASSA_SOL
     * BuracoNegro.entropia_bekenstein_hawking MASSA_SOL
     = MASSA_SOL * C2 / 2.
Proof.
  pose proof MASSA_SOL_positiva as H.
  split; [exact H|].
  exact (proj1 (proj2 (hawking_consistente MASSA_SOL H))).
Defined.

(** ** Where the disk is hottest *)

(** The radial profile in the variable [u = sqrt (r_in / r)]. *)
Lemma perfil_radial x :
  1 < x ->
  let u := sqrt (1 / x) in
  0 < u < 1
  /\ u * u = 1 / x
  /\ std_pow x (-0.75) * std_pow (1 - u) 0.25
     = Rpower (u ^ 6 * (1 - u)) 0.25.
Proof.
  intros Hx u.
  destruct (fator_borda_cotas x Hx) as [Hb _]. fold u in Hb.
  assert (Hi : 0 < 1 / x) by (apply Rdiv_lt_0_compat; lra).
  assert (Hu0 : 0 < u) by (apply sqrt_lt_R0; exact Hi).
  assert (Huu : u * u = 1 / x) by (apply sqrt_sqrt; lra).
  split; [lra|]. split; [exact Huu|].
  rewrite !std_pow_positivo by lra.
  assert (Hu6 : 0 < u ^ 6) by (apply pow_lt; exact Hu0).
  rewrite <- (Rpower_mult_distr (u ^ 6) (1 - u) 0.25) by lra.
  f_equal. unfold Rpower. f_equal.
  rewrite ln_pow by exact Hu0.
  assert (Hxu : x = / (u * u)).
  { rewrite Huu. unfold Rdiv. rewrite Rmult_1_l, Rinv_inv. reflexivity. }
  rewrite Hxu at 1.
  rewrite ln_Rinv by (apply Rmult_lt_0_compat; assumption).
  rewrite ln_mult by assumption.
  simpl INR. lra.
Qed.

(** [u^6 (1 - u)] is largest at [u = 6/7]. *)
Lemma perfil_maximo u :
  0 <= u -> u <> 6 / 7 ->
  u ^ 6 * (1 - u) < (6 / 7) ^ 6 * (1 - 6 / 7).
Proof.
  intros Hu Hne.
  assert (Hid : (6 / 7) ^ 6 * (1 - 6 / 7) - u ^ 6 * (1 - u)
                = (u - 6 / 7) * (u - 6 / 7)
                  * (u ^ 5 + 5 / 7 * u ^ 4 + 24 / 49 * u ^ 3
                     + 108 / 343 * u ^ 2 + 432 / 2401 * u + 1296 / 16807))
    by field.
  assert (Hq : 0 < (u - 6 / 7) * (u - 6 / 7)).
  { destruct (Rtotal_order u (6 / 7)) as [H|[H|H]]; [nra | contradiction | nra]. }
  assert (Hp : 0 < u ^ 5 + 5 / 7 * u ^ 4 + 24 / 49 * u ^ 3
                   + 108 / 343 * u ^ 2 + 432 / 2401 * u + 1296 / 16807).
  { pose proof (pow_le u 5 Hu). pose proof (pow_le u 4 Hu).
    pose proof (pow_le u 3 Hu). pose proof (pow_le u 2 Hu). lra. }
  pose proof (Rmult_lt_0_compat _ _ Hq Hp). lra.
Qed.

Section PicoDeTemperatura.

Variable d : DiscoAcrecao.t.
Hypothesis massa_positiva : 0 < DiscoAcrecao.massa_bh_ d.
Hypothesis taxa_positiva : 0 < DiscoAcrecao.taxa_acrecao_ d.
Hypothesis interno_positivo : 0 < DiscoAcrecao.raio_interno_ d.
Hypothesis pico_no_disco :
  49 / 36 * DiscoAcrecao.raio_interno_ d <= DiscoAcrecao.raio_externo_ d.

Let r_in := DiscoAcrecao.raio_interno_ d.
Let r_out := DiscoAcrecao.raio_externo_ d.
Let r_pico := 49 / 36 * r_in.

Lemma temperatura_perfil raio :
  r_in < raio <= r_out ->
  exists Ts u,
    0 < Ts /\ 0 < u < 1 /\ u * u = r_in / raio
    /\ (forall raio', r_in < raio' <= r_out ->
          DiscoAcrecao.temperatura d raio'
          = Ts * Rpower (sqrt (1 / (raio' / r_in)) ^ 6
                         * (1 - sqrt (1 / (raio' / r_in)))) 0.25)
    /\ u = sqrt (1 / (raio / r_in)).
Proof.
  intros Hr.
  pose proof (T_estrela_positiva d massa_positiva taxa_positiva
                interno_positivo) as HT.
  set (Ts := std_pow _ 0.25) in HT.
  assert (Hx : forall raio', r_in < raio' -> 1 < raio' / r_in).
  { intros raio' H. apply Rmult_lt_reg_r with r_in; [exact interno_positivo|].
    unfold Rdiv. rewrite Rmult_assoc, Rinv_l; unfold r_in in *; lra. }
  destruct (perfil_radial _ (Hx raio (proj1 Hr))) as (Hu & Huu & _).
  exists Ts, (sqrt (1 / (raio / r_in))).
  split; [exact HT|]. split; [exact Hu|].
  split.
  { rewrite Huu. field. unfold r_in in *. lra. }
  split; [|reflexivity].
  intros raio' Hr'.
  rewrite temperatura_dentro by (fold r_in r_out; lra).
  fold r_in. fold Ts.
  destruct (perfil_radial _ (Hx raio' (proj1 Hr'))) as (_ & _ & Hperfil).
  rewrite Rmult_assoc, Hperfil. reflexivity.
Qed.

Lemma raio_do_pico :
  r_in < r_pico <= r_out /\ sqrt (1 / (r_pico / r_in)) = 6 / 7.
Proof.
  unfold r_pico. fold r_in r_out in pico_no_disco.
  assert (H0 : 0 < r_in) by exact interno_positivo.
  split; [lra|].
  replace (1 / (49 / 36 * r_in / r_in)) with (6 / 7 * (6 / 7))
    by (field; lra).
  apply sqrt_square. lra.
Qed.

(** The profile has its only maximum at [49/36 r_in], and
    [temperatura_maxima] samples it at [1.361 r_in]. *)
Lemma temperatura_pico_geral :
  (forall raio,
      raio <> r_pico ->
      DiscoAcrecao.temperatura d raio < DiscoAcrecao.temperatura d r_pico)
  /\ 0 < DiscoAcrecao.temperatura_maxima d
       < DiscoAcrecao.temperatura d r_pico.
Proof.
  destruct raio_do_pico as [Hpico Hu_pico].
  assert (H0 : 0 < r_in) by exact interno_positivo.
  assert (Hio : r_in < r_out) by lra.
  destruct (temperatura_perfil r_pico Hpico) as (Ts & _ & HTs & _ & _ & HT & _).
  assert (Hpos : 0 < DiscoAcrecao.temperatura d r_pico).
  { apply (temperatura_positiva d massa_positiva taxa_positiva
             interno_positivo Hio). exact Hpico. }
  assert (Hmenor : forall raio,
             raio <> r_pico ->
             DiscoAcrecao.temperatura d raio
             < DiscoAcrecao.temperatura d r_pico).
  { intros raio Hne.
    destruct (Rle_dec raio r_in) as [Hle|Hgt].
    { destruct Hle as [Hlt|Heq].
      - rewrite (temperatura_fora d raio) by (left; exact Hlt). exact Hpos.
      - pose proof (temperatura_na_borda_interna d interno_positivo Hio)
          as Hb.
        fold r_in in Hb. rewrite Heq, Hb. exact Hpos. }
    destruct (Rle_dec raio r_out) as [Hle|Hfora].
    2:{ rewrite (temperatura_fora d raio) by (right; fold r_out; lra).
        exact Hpos. }
    assert (Hr : r_in < raio <= r_out) by lra.
    destruct (temperatura_perfil raio Hr) as (_ & u & _ & Hu & Huu & _ & Hdef).
    rewrite (HT raio Hr), (HT r_pico Hpico), Hu_pico, <- Hdef.
    apply Rmult_lt_compat_l; [exact HTs|].
    apply Rlt_Rpower_l; [lra|].
    split.
    - apply Rmult_lt_0_compat; [apply pow_lt|]; lra.
    - apply perfil_maximo; [lra|].
      intros Heq. apply Hne. rewrite Heq in Huu.
      unfold r_pico.
      assert (Hraio : 0 < raio) by lra.
      assert (Hri : r_in = r_in / raio * raio) by (field; lra).
      rewrite <- Huu in Hri. lra. }
  split; [exact Hmenor|].
  unfold DiscoAcrecao.temperatura_maxima. cbv zeta. fold r_in.
  split.
  - apply (temperatura_positiva d massa_positiva taxa_positiva
             interno_positivo Hio).
    fold r_in r_out. unfold r_pico in Hpico. lra.
  - apply Hmenor. unfold r_pico. lra.
Qed.

End PicoDeTemperatura.

(** X26.  In every disk the constructor builds for a positive mass and a
    positive accretion rate, whatever the spin, the temperature profile has
    its only maximum at [r = 49/36 r_in]: every other radius is strictly
    cooler.  [temperatura_maxima] evaluates the profile at [1.361 r_in], so
    it returns a positive value strictly below the peak. *)
Theorem temperatura_pico (ms te spin : R) :
  0 < ms -> 0 < te ->
  let d := DiscoAcrecao.novo ms te spin in
  let r_pico := 49 / 36 * DiscoAcrecao.raio_interno d in
  (forall raio,
      raio <> r_pico ->
      DiscoAcrecao.temperatura d raio < DiscoAcrecao.temperatura d r_pico)
  /\ 0 < DiscoAcrecao.temperatura_maxima d
       < DiscoAcrecao.temperatura d r_pico.
Proof.
  intros Hms Hte d r_pico.
  pose proof (massa_novo ms te spin Hms) as Hm.
  pose proof (taxa_novo ms te spin Hms Hte) as Ht.
  destruct (raios_novo ms te spin Hms) as [Hp _].
  pose proof (raio_interno_novo ms te spin Hms) as Hin.
  pose proof (rs_do_disco_positivo _ Hm) as Hrs.
  assert (Hout : DiscoAcrecao.raio_externo_ (DiscoAcrecao.novo ms te spin)
                 = 500 * rs_do_disco (DiscoAcrecao.novo ms te spin)).
  { unfold DiscoAcrecao.novo, rs_do_disco.
    cbn [DiscoAcrecao.raio_externo_ DiscoAcrecao.massa_bh_]. lra. }
  apply (temperatura_pico_geral (DiscoAcrecao.novo ms te spin) Hm Ht Hp).
  rewrite Hout. lra.
Qed.

(** X26, witness.  The disk of ten solar masses at a tenth of the Eddington
    rate. *)
Lemma temperatura_pico_witness :
  0 < 10 /\ 0 < 0.1
  /\ DiscoAcrecao.temperatura_maxima (DiscoAcrecao.novo 10 0.1 0)
     < DiscoAcrecao.temperatura (DiscoAcrecao.novo 10 0.1 0)
         (49 / 36 * DiscoAcrecao.raio_interno (DiscoAcrecao.novo 10 0.1 0)).
Proof.
  assert (H1 : 0 < 10) by lra.
  assert (H2 : 0 < 0.1) by lra.
  do 2 (split; [assumption|]).
  exact (proj2 (proj2 (temperatura_pico 10 0.1 0 H1 H2))).
Defined.

(** ** The tracer a configuration produces *)

Section Inicializar.

Variable cfg : ConfiguracaoSimulacao.

Let rt := fst (SimuladorBuracoNegro.inicializar cfg).
Let rs := BuracoNegro.raio_schwarzschild_solar (massa_solar cfg).

(** X27.  [inicializar] builds a Schwarzschild tracer from the mass and the
    Eddington fraction alone: its Schwarzschild radius is that of the
    configured mass, the camera sits at [distancia_observador] Schwarzschild
    radii with polar angle [pi/2 - angulo_inclinacao pi/180] (so an
    inclination of 0 degrees puts it in the disk plane), the thread count
    is at least 1, the disk runs from [3 r_s] to [500 r_s], and the turn
    limit and base step are 10000 and 0.1 whatever the configuration says:
    the fields [tipo], [spin], [incluir_disco], [passo_integracao],
    [max_passos] and [prefixo_arquivo] do not reach the tracer. *)
Theorem inicializar_configura :
  RayTracer.rs_ rt = rs
  /\ Camera.r_observador (RayTracer.camera rt)
     = distancia_observador cfg * rs
  /\ Camera.theta_observador (RayTracer.camera rt)
     = PI / 2 - angulo_inclinacao cfg * PI / 180
  /\ (Camera.theta_observador (RayTracer.camera rt) = PI / 2
      <-> angulo_inclinacao cfg = 0)
  /\ Camera.largura (RayTracer.camera rt) = largura cfg
  /\ Camera.altura (RayTracer.camera rt) = altura cfg
  /\ RayTracer.num_threads_ rt = Z.max 1 (num_threads cfg)
  /\ RayTracer.max_passos_ rt = 10000%Z
  /\ RayTracer.passo_inicial_ rt = 0.1
  /\ DiscoAcrecao.raio_interno (RayTracer.disco_ rt) = 3 * rs
  /\ DiscoAcrecao.raio_externo (RayTracer.disco_ rt) = 500 * rs
  /\ (forall tipo' spin' disco' passo' max' prefixo',
        SimuladorBuracoNegro.inicializar
          (mkConfiguracao tipo' (massa_solar cfg) spin' disco'
             (taxa_eddington cfg) (largura cfg) (altura cfg)
             (distancia_observador cfg) (angulo_inclinacao cfg) (fov cfg)
             passo' max' (num_threads cfg) (diretorio_saida cfg) prefixo')
        = SimuladorBuracoNegro.inicializar cfg).
Proof.
  pose proof C2_positivo as HC. pose proof PI_RGT_0 as HPI.
  destruct (raio_de_schwarzschild_unico_aux (massa_solar cfg)
              (taxa_eddington cfg)) as [Hin _].
  assert (Hrs : RayTracer.rs_ (RayTracer.novo (massa_solar cfg)
                                 (taxa_eddington cfg)) = rs).
  { unfold rs, BuracoNegro.raio_schwarzschild_solar, FATOR_RAIO_SCHWARZSCHILD.
    cbn. lra. }
  assert (Htheta : Camera.theta_observador (RayTracer.camera rt)
                   = PI / 2 - angulo_inclinacao cfg * PI / 180).
  { change (Camera.theta_observador (RayTracer.camera rt))
      with ((90.0 - angulo_inclinacao cfg) * M_PI / 180.0).
    unfold M_PI. lra. }
  split; [exact Hrs|].
  split.
  { change (Camera.r_observador (RayTracer.camera rt))
      with (distancia_observador cfg
            * RayTracer.rs_ (RayTracer.novo (massa_solar cfg)
                               (taxa_eddington cfg))).
    rewrite Hrs. reflexivity. }
  split; [exact Htheta|].
  split.
  { rewrite Htheta. split; intros H; [|rewrite H; lra].
    assert (H0 : angulo_inclinacao cfg * PI = 0) by lra.
    apply Rmult_integral in H0. destruct H0; lra. }
  do 5 (split; [reflexivity|]).
  split.
  { change (RayTracer.disco_ rt)
      with (RayTracer.disco_ (RayTracer.novo (massa_solar cfg)
                                (taxa_eddington cfg))).
    rewrite Hin, Hrs. reflexivity. }
  split.
  { change (DiscoAcrecao.raio_externo (RayTracer.disco_ rt))
      with (500.0 * (2.0 * G * (massa_solar cfg * MASSA_SOL) / C2)).
    rewrite <- Hrs. cbn. lra. }
  intros. reflexivity.
Qed.

End Inicializar.

(** ** Escape velocity *)

Section VelocidadeDeEscape.

Variables ms te sp : R.
Hypothesis massa_solar_positiva : 0 < ms.

Let m := MetricaSchwarzschild.novo ms.
Let d := DiscoAcrecao.novo ms te sp.
Let rs := MetricaSchwarzschild.raio_schwarzschild m.

(** X28.  [velocidade_escape] returns [c] at and inside the horizon; outside
    it the escape velocity is positive and below [c], its square is twice
    the square of the disk's Keplerian velocity at the same radius, and
    together with the time-dilation factor it satisfies
    [(v/c)^2 + dilatacao^2 = 1]. *)
Theorem velocidade_escape_relacoes (r : R) :
  (r <= rs -> MetricaSchwarzschild.velocidade_escape m r = C)
  /\ (rs < r ->
      0 < MetricaSchwarzschild.velocidade_escape m r < C
      /\ MetricaSchwarzschild.velocidade_escape m r
         * MetricaSchwarzschild.velocidade_escape m r
         = 2 * (DiscoAcrecao.velocidade_kepleriana d r
                * DiscoAcrecao.velocidade_kepleriana d r)
      /\ (MetricaSchwarzschild.velocidade_escape m r / C)
         * (MetricaSchwarzschild.velocidade_escape m r / C)
         + MetricaSchwarzschild.dilatacao_temporal m r
           * MetricaSchwarzschild.dilatacao_temporal m r
         = 1).
Proof.
  pose proof C_positivo as HC. pose proof C2_positivo as HC2.
  pose proof G_positivo as HG. pose proof MASSA_SOL_positiva as HS.
  assert (Hrs : rs = 2 * (G * (ms * MASSA_SOL)) / C2).
  { unfold rs, m, MetricaSchwarzschild.raio_schwarzschild.
    cbn [MetricaSchwarzschild.novo MetricaSchwarzschild.rs_]. lra. }
  assert (Hrs0 : 0 < rs).
  { rewrite Hrs. apply Rdiv_lt_0_compat; [|lra].
    assert (0 < G * (ms * MASSA_SOL)); [|lra].
    apply Rmult_lt_0_compat; [lra|]. apply Rmult_lt_0_compat; lra. }
  unfold MetricaSchwarzschild.velocidade_escape,
    MetricaSchwarzschild.dilatacao_temporal.
  change (MetricaSchwarzschild.rs_ m) with rs.
  split.
  - intros Hr. destruct (Rle_dec r rs); [reflexivity | lra].
  - intros Hr. destruct (Rle_dec r rs) as [|_]; [lra|].
    assert (Hr0 : 0 < r) by lra.
    assert (Hq : 0 < rs / r < 1).
    { split; [apply Rdiv_lt_0_compat; lra|].
      apply fracao_abaixo_de_1; lra. }
    assert (Hsq : sqrt (rs / r) * sqrt (rs / r) = rs / r)
      by (apply sqrt_sqrt; lra).
    assert (Hs0 : 0 < sqrt (rs / r)) by (apply sqrt_lt_R0; lra).
    assert (Hs1 : sqrt (rs / r) < 1)
      by (rewrite <- sqrt_1; apply sqrt_lt_1_alt; lra).
    split; [split; nra|].
    split.
    + unfold DiscoAcrecao.velocidade_kepleriana.
      change (DiscoAcrecao.massa_bh_ d) with (ms * MASSA_SOL).
      rewrite sqrt_sqrt.
      * replace (C * sqrt (rs / r) * (C * sqrt (rs / r)))
          with (C2 * (sqrt (rs / r) * sqrt (rs / r))) by (unfold C2; ring).
        rewrite Hsq, Hrs. field. lra.
      * left. apply Rdiv_lt_0_compat; [|lra].
        apply Rmult_lt_0_compat; [lra|]. apply Rmult_lt_0_compat; lra.
    + replace (C * sqrt (rs / r) / C) with (sqrt (rs / r)) by (field; lra).
      rewrite Hsq, sqrt_sqrt by lra. lra.
Qed.

End VelocidadeDeEscape.

(** X28, witness.  Ten solar masses. *)
Lemma velocidade_escape_relacoes_witness :
  0 < 10
  /\ MetricaSchwarzschild.velocidade_escape (MetricaSchwarzschild.novo 10) 0
     = C.
Proof.
  assert (H : 0 < 10) by lra.
  split; [exact H|].
  apply (proj1 (velocidade_escape_relacoes 10 0.1 0 H 0)).
  pose proof C2_positivo. pose proof G_positivo. pose proof MASSA_SOL_positiva.
  unfold MetricaSchwarzschild.raio_schwarzschild.
  cbn [MetricaSchwarzschild.novo MetricaSchwarzschild.rs_].
  assert (0 < G * (10 * MASSA_SOL) / C2); [|lra].
  apply Rdiv_lt_0_compat; [|lra]. nra.
Defined.

(** ** The inner edge of the disk as a function of the spin *)

Section BordaInterna.

Variables ms te spin : R.
Hypothesis massa_solar_positiva : 0 < ms.

Let d := DiscoAcrecao.novo ms te spin.
Let rs := rs_do_disco d.

(** X29.  The inner edge chosen by the disk's constructor: for a requested
    spin below 0.01 (negative spins included, they are clamped to zero) it
    is [3 r_s]; from 0.01 on it is [r_s (3 + a - sqrt ((3 - a)(1 + a)))]
    for the clamped spin [a], which lies between [(1 + a) r_s] and [2 r_s]:
    the edge drops by more than one Schwarzschild radius when the spin
    crosses 0.01.  The outer edge is always [500 r_s]. *)
Theorem raio_interno_por_spin :
  (spin < 0.01 -> DiscoAcrecao.raio_interno d = 3 * rs)
  /\ (0.01 <= spin ->
      0.01 <= DiscoAcrecao.spin_ d <= 0.998
      /\ (1 + DiscoAcrecao.spin_ d) * rs <= DiscoAcrecao.raio_interno d
      /\ DiscoAcrecao.raio_interno d < 2 * rs)
  /\ DiscoAcrecao.raio_externo d = 500 * rs.
Proof.
  pose proof (rs_do_disco_positivo d (massa_novo ms te spin massa_solar_positiva))
    as Hrs.
  fold rs in Hrs.
  split; [|split].
  - intros Hs. unfold DiscoAcrecao.raio_interno, rs, d.
    destruct (Rlt_dec spin 0) as [Hneg|Hpos].
    + unfold DiscoAcrecao.novo, rs_do_disco.
      cbn [DiscoAcrecao.raio_interno_ DiscoAcrecao.massa_bh_].
      destruct (Rlt_dec _ 0.01) as [_|Hn]; [lra|].
      exfalso. apply Hn. unfold std_max, std_min.
      destruct (Rlt_dec spin 0.998); destruct (Rlt_dec 0.0 _); lra.
    + apply spin_novo_baixo. exact Hs.
  - intros Hs.
    assert (Ha : DiscoAcrecao.spin_ d = std_max 0.0 (std_min 0.998 spin))
      by reflexivity.
    assert (Hcotas : 0.01 <= DiscoAcrecao.spin_ d <= 0.998).
    { rewrite Ha. unfold std_max, std_min.
      destruct (Rlt_dec spin 0.998); destruct (Rlt_dec 0.0 _); lra. }
    split; [exact Hcotas|].
    assert (Hin : DiscoAcrecao.raio_interno d
                  = rs * (3 + DiscoAcrecao.spin_ d
                          - sqrt ((3 - DiscoAcrecao.spin_ d)
                                  * (1 + DiscoAcrecao.spin_ d)))).
    { unfold DiscoAcrecao.raio_interno, rs, d, DiscoAcrecao.novo, rs_do_disco.
      cbn [DiscoAcrecao.raio_interno_ DiscoAcrecao.massa_bh_
           DiscoAcrecao.spin_].
      change (DiscoAcrecao.spin_ d) with (std_max 0.0 (std_min 0.998 spin))
        in Hcotas.
      destruct (Rlt_dec _ 0.01) as [Hlt|_]; [lra|].
      replace 3.0 with 3 by lra. replace 1.0 with 1 by lra. reflexivity. }
    rewrite Hin. set (a := DiscoAcrecao.spin_ d) in *.
    assert (Hq0 : 0 <= (3 - a) * (1 + a)) by nra.
    pose proof (sqrt_pos ((3 - a) * (1 + a))) as Hp.
    pose proof (sqrt_sqrt _ Hq0) as Hss.
    set (q := sqrt ((3 - a) * (1 + a))) in *.
    assert (Hq2 : q <= 2).
    { destruct (Rle_dec q 2) as [|Hn]; [assumption|]. nra. }
    assert (Hq1 : 1 + a < q).
    { destruct (Rlt_dec (1 + a) q) as [|Hn]; [assumption|]. nra. }
    split; nra.
  - unfold DiscoAcrecao.raio_externo, rs, d, DiscoAcrecao.novo, rs_do_disco.
    cbn [DiscoAcrecao.raio_externo_ DiscoAcrecao.massa_bh_]. lra.
Qed.

End BordaInterna.

(** X29, witness.  Ten solar masses at spin 0.5. *)
Lemma raio_interno_por_spin_witness :
  0 < 10
  /\ DiscoAcrecao.raio_externo (DiscoAcrecao.novo 10 0.1 0.5)
     = 500 * rs_do_disco (DiscoAcrecao.novo 10 0.1 0.5).
Proof.
  assert (H : 0 < 10) by lra.
  split; [exact H|].
  exact (proj2 (proj2 (raio_interno_por_spin 10 0.1 0.5 H))).
Defined.

(** ** Temperature and entropy of the Kerr horizon *)

Section KerrTermodinamica.

Variables ms spin : R.
Hypothesis massa_solar_positiva : 0 < ms.

Let k := MetricaKerr.novo ms spin.
Let M := MetricaKerr.M_ k.
Let a := MetricaKerr.a_ k.
Let rp := MetricaKerr.horizonte_externo k.

(** X30.  For a Kerr metric of positive mass, [r+^2 + a^2 = 2 M r+]; the
    horizon temperature is positive and at most [1 / (8 pi M)], the value
    without spin; the entropy is positive and at most the
    Bekenstein-Hawking entropy of the Schwarzschild black hole of the same
    mass, which it equals when the spin is zero. *)
Theorem kerr_termodinamica :
  rp * rp + a * a = 2 * M * rp
  /\ 0 < MetricaKerr.temperatura_hawking k <= 1 / (8 * PI * M)
  /\ 0 < MetricaKerr.entropia k
       <= MetricaSchwarzschild.entropia (MetricaSchwarzschild.novo ms)
  /\ (a = 0 ->
      MetricaKerr.temperatura_hawking k = 1 / (8 * PI * M)
      /\ MetricaKerr.entropia k
         = MetricaSchwarzschild.entropia (MetricaSchwarzschild.novo ms)).
Proof.
  pose proof (kerr_massa_positiva ms spin massa_solar_positiva) as HM.
  pose proof (kerr_raiz ms spin massa_solar_positiva) as [[Hs0 HsM] Hss].
  cbv zeta in Hs0, HsM, Hss. fold k in HM, Hs0, HsM, Hss.
  fold M a in HM, Hs0, HsM, Hss.
  pose proof PI_RGT_0 as HPI. pose proof C_positivo as HC.
  pose proof G_positivo as HG. pose proof H_BARRA_positiva as HH.
  pose proof K_BOLTZMANN_positiva as HK.
  assert (Hrp : rp = M + sqrt (M * M - a * a)) by reflexivity.
  assert (Hrm : MetricaKerr.horizonte_interno k = M - sqrt (M * M - a * a))
    by reflexivity.
  set (s := sqrt (M * M - a * a)) in *.
  assert (Harea : rp * rp + a * a = 2 * M * rp).
  { rewrite Hrp. replace (a * a) with (M * M - s * s) by lra. ring. }
  assert (HT : MetricaKerr.temperatura_hawking k
               = s / (4 * PI * M * (M + s))).
  { unfold MetricaKerr.temperatura_hawking. cbv zeta.
    fold rp a. rewrite Hrm, Harea, Hrp. unfold M_PI.
    replace 4.0 with 4 by lra. field. repeat split; lra. }
  assert (HS : forall area,
             K_BOLTZMANN * C * C * C * area / (4.0 * G * H_BARRA)
             = K_BOLTZMANN * C * C * C / (4 * G * H_BARRA) * area).
  { intros area. replace 4.0 with 4 by lra. field. split; lra. }
  assert (Hfator : 0 < K_BOLTZMANN * C * C * C / (4 * G * H_BARRA)).
  { apply Rdiv_lt_0_compat.
    - apply Rmult_lt_0_compat;
        [apply Rmult_lt_0_compat; [apply Rmult_lt_0_compat|]|]; assumption.
    - apply Rmult_lt_0_compat; [lra | assumption]. }
  assert (HSk : MetricaKerr.entropia k
                = K_BOLTZMANN * C * C * C / (4 * G * H_BARRA)
                  * (4 * PI * (2 * M * rp))).
  { unfold MetricaKerr.entropia. cbv zeta. fold rp a.
    rewrite HS, Harea. unfold M_PI. replace 4.0 with 4 by lra.
    reflexivity. }
  assert (HSs : MetricaSchwarzschild.entropia (MetricaSchwarzschild.novo ms)
                = K_BOLTZMANN * C * C * C / (4 * G * H_BARRA)
                  * (4 * PI * (2 * M * (2 * M)))).
  { unfold MetricaSchwarzschild.entropia,
      BuracoNegro.entropia_bekenstein_hawking,
      BuracoNegro.raio_schwarzschild. cbv zeta.
    rewrite HS. f_equal.
    change (MetricaSchwarzschild.massa_kg_ (MetricaSchwarzschild.novo ms))
      with (ms * MASSA_SOL).
    change M with (G * (ms * MASSA_SOL) / C2).
    unfold M_PI. replace 4.0 with 4 by lra. replace 2.0 with 2 by lra.
    unfold Rdiv. ring. }
  set (F := K_BOLTZMANN * C * C * C / (4 * G * H_BARRA)) in *.
  split; [exact Harea|].
  split.
  { assert (HPM : 0 < PI * M) by (apply Rmult_lt_0_compat; assumption).
    assert (HPMs : 0 < PI * M * (M + s))
      by (apply Rmult_lt_0_compat; [assumption | lra]).
    rewrite HT. split.
    - apply Rdiv_lt_0_compat; [lra|].
      replace (4 * PI * M * (M + s)) with (4 * (PI * M * (M + s))) by ring.
      lra.
    - apply Rmult_le_reg_r with (8 * PI * M * (M + s)).
      + replace (8 * PI * M * (M + s)) with (8 * (PI * M * (M + s))) by ring.
        lra.
      + replace (s / (4 * PI * M * (M + s)) * (8 * PI * M * (M + s)))
          with (2 * s) by (field; repeat split; lra).
        replace (1 / (8 * PI * M) * (8 * PI * M * (M + s)))
          with (M + s) by (field; split; lra).
        lra. }
  split.
  { rewrite HSk, HSs. split.
    - apply Rmult_lt_0_compat; [exact Hfator|].
      assert (H0 : 0 < M * rp) by (rewrite Hrp; nra).
      assert (H1 : 0 < PI * (M * rp))
        by (apply Rmult_lt_0_compat; assumption).
      replace (4 * PI * (2 * M * rp)) with (8 * (PI * (M * rp))) by ring.
      lra.
    - apply Rmult_le_compat_l; [lra|].
      assert (H0 : M * rp <= M * (2 * M)) by (rewrite Hrp; nra).
      assert (H1 : PI * (M * rp) <= PI * (M * (2 * M)))
        by (apply Rmult_le_compat_l; lra).
      replace (4 * PI * (2 * M * rp)) with (8 * (PI * (M * rp))) by ring.
      replace (4 * PI * (2 * M * (2 * M)))
        with (8 * (PI * (M * (2 * M)))) by ring.
      lra. }
  intros Ha.
  assert (HsM' : s = M).
  { unfold s. rewrite Ha.
    replace (M * M - 0 * 0) with (M * M) by ring.
    apply sqrt_square. lra. }
  split.
  - rewrite HT, HsM'. field. split; lra.
  - rewrite HSk, HSs, Hrp, HsM'. f_equal. ring.
Qed.

End KerrTermodinamica.

(** X30, witness.  Ten solar masses at spin 0.5. *)
Lemma kerr_termodinamica_witness :
  0 < 10
  /\ MetricaKerr.entropia (MetricaKerr.novo 10 0.5)
     <= MetricaSchwarzschild.entropia (MetricaSchwarzschild.novo 10).
Proof.
  assert (H : 0 < 10) by lra.
  split; [exact H|].
  exact (proj2 (proj1 (proj2 (proj2 (kerr_termodinamica 10 0.5 H))))).
Defined.

(** ** A channel that is not a multiple of 1/255 *)

Section CanalArredondado.

Lemma Rabs_le_cotas (x a : R) : Rabs x <= a -> - a <= x <= a.
Proof. unfold Rabs. destruct (Rcase_abs x); lra. Qed.

Lemma expoente_unico (x : R) (e : Z) :
  powerRZ 2 e <= Rabs x < powerRZ 2 (e + 1) -> expoente x = e.
Proof.
  intros [H1 H2].
  assert (Hx : x <> 0).
  { intros ->. rewrite Rabs_R0 in H1.
    pose proof (potencia_de_2_positiva e). lra. }
  pose proof (expoente_abaixo x (e + 1) Hx H2) as Ha.
  destruct (expoente_cotas x Hx) as [_ Hc].
  destruct (Z.lt_ge_cases (expoente x) e) as [Hlt|Hge]; [|lia].
  pose proof (potencia_de_2_monotona (expoente x + 1) e ltac:(lia)). lra.
Qed.

Lemma potencia_negativa (n : positive) :
  powerRZ 2 (Z.neg n) = / IZR (2 ^ Z.pos n).
Proof.
  change (Z.neg n) with (- Z.pos n)%Z.
  rewrite powerRZ_neg', potencia_de_2_natural by lia. reflexivity.
Qed.

(** The double nearest to [3/255] is written as byte 3, whether it lies
    below [3/255] or above: its product by 255 is within half a unit in the
    last place of 3 and rounds to 3. *)
Lemma byte_de_3_sobre_255 :
  byte_truncado (arredonda_double (3 / 255)) = 3%Z.
Proof.
  set (x := 3 / 255). set (c := arredonda_double x).
  assert (Hex : expoente x = (-7)%Z).
  { apply expoente_unico. unfold x. rewrite Rabs_right by lra.
    change (-7 + 1)%Z with (-6)%Z. rewrite !potencia_negativa.
    change (2 ^ 7)%Z with 128%Z. change (2 ^ 6)%Z with 64%Z. lra. }
  assert (Hc : Rabs (c - x) <= / 1152921504606846976).
  { pose proof (arredonda_double_erro x) as He. fold c in He.
    unfold ulp in He. rewrite Hex in He.
    change (Z.max (-7) (-1022) - 52)%Z with (-59)%Z in He.
    rewrite potencia_negativa in He.
    change (2 ^ 59)%Z with 576460752303423488%Z in He. lra. }
  apply Rabs_le_cotas in Hc.
  assert (Hc01 : 0 <= c <= 1) by (unfold x in Hc; lra).
  unfold byte_truncado.
  replace (clamp01 c) with c
    by (unfold clamp01, Rmax, Rmin;
        destruct (Rle_dec 1 c); destruct (Rle_dec 0 _); lra).
  set (y := c * 255).
  assert (Hy : Rabs (y - 3) <= 255 / 1152921504606846976).
  { apply Rabs_le. unfold y, x in *. lra. }
  apply Rabs_le_cotas in Hy.
  assert (Hey : expoente y = 1%Z).
  { apply expoente_unico. rewrite Rabs_right by lra.
    rewrite !potencia_de_2_natural by lia.
    change (2 ^ 1)%Z with 2%Z. change (2 ^ (1 + 1))%Z with 4%Z. lra. }
  assert (Hfl : arredonda_double y = 3).
  { unfold arredonda_double. destruct (Req_dec_T y 0); [lra|].
    unfold ulp. rewrite Hey.
    change (Z.max 1 (-1022) - 52)%Z with (-51)%Z.
    rewrite potencia_negativa.
    change (2 ^ 51)%Z with 2251799813685248%Z.
    set (q := y / / 2251799813685248).
    assert (Hq : q = y * 2251799813685248) by (unfold q; field).
    pose proof (inteiro_mais_proximo_erro q) as He.
    apply Rabs_le_cotas in He.
    assert (Hm : inteiro_mais_proximo q = 6755399441055744%Z).
    { assert (H1 : IZR 6755399441055744 - 1 < IZR (inteiro_mais_proximo q))
        by lra.
      assert (H2 : IZR (inteiro_mais_proximo q) < IZR 6755399441055744 + 1)
        by lra.
      rewrite <- minus_IZR in H1. rewrite <- plus_IZR in H2.
      apply lt_IZR in H1, H2. lia. }
    rewrite Hm. lra. }
  rewrite Hfl. apply ZfloorZ.
Qed.

End CanalArredondado.

(** ** The Runge-Kutta step inside the horizon *)

Section PassoDentroDoHorizonte.

Let rs :=
  MetricaSchwarzschild.raio_schwarzschild
    (IntegradorGeodesico.metrica_ integrador_padrao).

Let arr := EstadoGeodesica.como_array estado_interior.















End PassoDentroDoHorizonte.

(** ** The number of points of a trajectory *)

Section SomaDeDecimos.

Lemma Zfloor_quociente (a b : Z) :
  (0 < b)%Z -> Zfloor (IZR a / IZR b) = (a / b)%Z.
Proof.
  intros Hb. apply Zfloor_eq.
  pose proof (Z.div_mod a b ltac:(lia)) as Hd.
  pose proof (Z.mod_pos_bound a b Hb) as [Hr0 Hr1].
  apply IZR_lt in Hb. apply IZR_le in Hr0. apply IZR_lt in Hr1.
  apply (f_equal IZR) in Hd. rewrite plus_IZR, mult_IZR in Hd.
  replace (IZR a / IZR b)
    with (IZR (a / b) + IZR (a mod b) / IZR b)
    by (rewrite Hd; field; lra).
  assert (H : 0 <= IZR (a mod b) / IZR b < 1).
  { split.
    - apply Rmult_le_pos; [lra | left; apply Rinv_0_lt_compat; lra].
    - apply (Rmult_lt_reg_r (IZR b)); [lra|].
      unfold Rdiv. rewrite Rmult_assoc, Rinv_l; lra. }
  lra.
Qed.

Lemma inteiro_mais_proximo_quociente (a b : Z) :
  (0 < b)%Z ->
  inteiro_mais_proximo (IZR a / IZR b) = quociente_mais_proximo a b.
Proof.
  intros Hb. unfold inteiro_mais_proximo, quociente_mais_proximo. cbv zeta.
  rewrite (Zfloor_quociente a b Hb).
  pose proof (Z.div_mod a b ltac:(lia)) as Hd.
  pose proof (Z.mod_pos_bound a b Hb) as [Hr0 Hr1].
  set (n := (a / b)%Z) in *. set (r := (a mod b)%Z) in *.
  assert (HB : 0 < IZR b) by (apply IZR_lt; exact Hb).
  assert (Hq : (IZR a / IZR b - IZR n) * IZR b = IZR r).
  { apply (f_equal IZR) in Hd. rewrite plus_IZR, mult_IZR in Hd.
    rewrite Hd. field. lra. }
  set (d := IZR a / IZR b - IZR n) in *.
  assert (H1 : d < / 2 <-> (2 * r < b)%Z).
  { split; intros H.
    - apply lt_IZR. rewrite mult_IZR, <- Hq. nra.
    - apply IZR_lt in H. rewrite mult_IZR, <- Hq in H. nra. }
  assert (H2 : / 2 < d <-> (b < 2 * r)%Z).
  { split; intros H.
    - apply lt_IZR. rewrite mult_IZR, <- Hq. nra.
    - apply IZR_lt in H. rewrite mult_IZR, <- Hq in H. nra. }
  destruct (Rlt_dec d (/ 2)) as [Ha|Ha];
    destruct (Z.ltb_spec (2 * r) b) as [Hz|Hz]; try reflexivity;
    try (apply H1 in Ha; lia); try (apply H1 in Hz; contradiction).
  destruct (Rlt_dec (/ 2) d) as [Hc|Hc];
    destruct (Z.ltb_spec b (2 * r)) as [Hy|Hy]; try reflexivity;
    try (apply H2 in Hc; lia); try (apply H2 in Hy; contradiction).
Qed.

Lemma inteiro_mais_proximo_perto (q : R) (N : Z) :
  Rabs (q - IZR N) < / 2 -> inteiro_mais_proximo q = N.
Proof.
  intros H. pose proof (inteiro_mais_proximo_erro q) as He.
  apply Rabs_le_cotas in He. apply Rabs_def2 in H.
  assert (H1 : IZR N - 1 < IZR (inteiro_mais_proximo q)) by lra.
  assert (H2 : IZR (inteiro_mais_proximo q) < IZR N + 1) by lra.
  rewrite <- minus_IZR in H1. rewrite <- plus_IZR in H2.
  apply lt_IZR in H1, H2. lia.
Qed.

Lemma potencia_soma (a b : Z) :
  powerRZ 2 (a + b) = powerRZ 2 a * powerRZ 2 b.
Proof. apply powerRZ_add. lra. Qed.

(** A multiple [A 2^(-n)] of a power of two whose binade is [e]: its nearest
    double is computed on the integers. *)
Lemma arredonda_double_diadico (A n e : Z) :
  (-1022 <= e)%Z -> (0 <= n + e - 52)%Z ->
  (2 ^ (e + n) <= Z.abs A < 2 ^ (e + n + 1))%Z ->
  arredonda_double (IZR A * powerRZ 2 (- n))
  = IZR (quociente_mais_proximo A (2 ^ (n + e - 52)) * 2 ^ (n + e - 52))
    * powerRZ 2 (- n).
Proof.
  intros He Hk [HA1 HA2].
  pose proof (potencia_de_2_positiva (- n)) as Hp.
  set (x := IZR A * powerRZ 2 (- n)).
  assert (Habs : Rabs x = IZR (Z.abs A) * powerRZ 2 (- n)).
  { unfold x. rewrite Rabs_mult, (Rabs_right (powerRZ 2 (- n))) by lra.
    rewrite <- abs_IZR. reflexivity. }
  assert (Hexp : expoente x = e).
  { apply expoente_unico. rewrite Habs.
    assert (E1 : powerRZ 2 e = IZR (2 ^ (e + n)) * powerRZ 2 (- n)).
    { rewrite <- (potencia_de_2_natural (e + n)), <- potencia_soma by lia.
      f_equal. lia. }
    assert (E2 : powerRZ 2 (e + 1)
                 = IZR (2 ^ (e + n + 1)) * powerRZ 2 (- n)).
    { rewrite <- (potencia_de_2_natural (e + n + 1)), <- potencia_soma
        by lia.
      f_equal. lia. }
    rewrite E1, E2.
    apply IZR_le in HA1. apply IZR_lt in HA2.
    split.
    - apply Rmult_le_compat_r; lra.
    - apply Rmult_lt_compat_r; lra. }
  assert (Hx : x <> 0).
  { intros H0. rewrite H0, Rabs_R0 in Habs.
    assert (0 < Z.abs A)%Z.
    { pose proof (Z.pow_pos_nonneg 2 (e + n) ltac:(lia) ltac:(lia)). lia. }
    apply IZR_lt in H. nra. }
  unfold arredonda_double. destruct (Req_dec_T x 0) as [|_]; [contradiction|].
  unfold ulp. rewrite Hexp, Z.max_l by lia.
  assert (Hu : powerRZ 2 (e - 52)
               = IZR (2 ^ (n + e - 52)) * powerRZ 2 (- n)).
  { rewrite <- (potencia_de_2_natural (n + e - 52)), <- potencia_soma
      by lia.
    f_equal. lia. }
  assert (Hb : (0 < 2 ^ (n + e - 52))%Z)
    by (apply Z.pow_pos_nonneg; lia).
  assert (HB : 0 < IZR (2 ^ (n + e - 52))) by (apply IZR_lt; exact Hb).
  replace (x / powerRZ 2 (e - 52)) with (IZR A / IZR (2 ^ (n + e - 52)))
    by (rewrite Hu; unfold x; field; lra).
  rewrite (inteiro_mais_proximo_quociente _ _ Hb), Hu, mult_IZR. ring.
Qed.

Lemma diadico_abaixo (A n k : Z) :
  (0 <= k)%Z -> (Z.abs A < 2 ^ k)%Z ->
  Rabs (IZR A * powerRZ 2 (- n)) < powerRZ 2 (k - n).
Proof.
  intros Hk HA. pose proof (potencia_de_2_positiva (- n)) as Hp.
  rewrite Rabs_mult, (Rabs_right (powerRZ 2 (- n))) by lra.
  rewrite <- abs_IZR.
  replace (k - n)%Z with (k + (- n))%Z by lia.
  rewrite potencia_soma, (potencia_de_2_natural k) by lia.
  apply IZR_lt in HA. apply Rmult_lt_compat_r; lra.
Qed.

(** The step [0.1] of a caller is the double
    [3602879701896397 * 2^(-55)]. *)
Lemma passo_decimo :
  arredonda_double 0.1 = IZR 3602879701896397 * powerRZ 2 (- 55).
Proof.
  assert (He : expoente 0.1 = (-4)%Z).
  { apply expoente_unico. rewrite Rabs_right by lra.
    change (-4 + 1)%Z with (-3)%Z. rewrite !potencia_negativa.
    change (2 ^ 4)%Z with 16%Z. change (2 ^ 3)%Z with 8%Z. lra. }
  unfold arredonda_double. destruct (Req_dec_T 0.1 0); [lra|].
  unfold ulp. rewrite He.
  change (Z.max (-4) (-1022) - 52)%Z with (-56)%Z.
  replace (powerRZ 2 (-56)) with (/ 2 * powerRZ 2 (- 55)).
  2:{ change (-56)%Z with ((-1) + (-55))%Z. rewrite potencia_soma.
      f_equal. simpl. lra. }
  pose proof (potencia_de_2_positiva (- 55)) as Hp.
  assert (Hp55 : powerRZ 2 (- 55) = / 36028797018963968).
  { change (- 55)%Z with (Z.neg 55). rewrite potencia_negativa.
    reflexivity. }
  rewrite (inteiro_mais_proximo_perto _ 7205759403792794).
  - replace (IZR 7205759403792794) with (2 * IZR 3602879701896397) by lra.
    field.
  - rewrite Hp55. replace 0.1 with (1 / 10) by lra.
    replace (1 / 10 / (/ 2 * / 36028797018963968) - 7205759403792794)
      with (- (4 / 10)) by field.
    rewrite Rabs_left; lra.
Qed.

Lemma soma_diadica (A B : Z) (p : R) :
  IZR A * p + IZR B * p = IZR (A + B) * p.
Proof. rewrite plus_IZR. ring. Qed.

(** One addition of the step to a multiple of [2^(-55)] in the binade
    [e]. *)
Lemma soma_de_um_decimo (A B e : Z) :
  (-3 <= e <= 0)%Z ->
  (2 ^ (e + 55) <= A + 3602879701896397 < 2 ^ (e + 56))%Z ->
  B = (quociente_mais_proximo (A + 3602879701896397) (2 ^ (e + 3))
       * 2 ^ (e + 3))%Z ->
  arredonda_double (IZR A * powerRZ 2 (- 55) + arredonda_double 0.1)
  = IZR B * powerRZ 2 (- 55).
Proof.
  intros He HA ->. rewrite passo_decimo, soma_diadica.
  pose proof (Z.pow_pos_nonneg 2 (e + 55) ltac:(lia) ltac:(lia)) as Hpos.
  rewrite (arredonda_double_diadico _ 55 e); [|lia|lia|].
  - replace (55 + e - 52)%Z with (e + 3)%Z by lia. reflexivity.
  - rewrite Z.abs_eq by lia.
    replace (e + 55 + 1)%Z with (e + 56)%Z by lia. exact HA.
Qed.

(** The values of [lambda] turn after turn, in units of [2^(-55)]: ten
    additions of [0.1] stay below 1. *)
Lemma lambda_acumulado_decimos :
  map (lambda_acumulado (arredonda_double 0.1)) (seq 0 12)
  = map (fun A => IZR A * powerRZ 2 (- 55))
      [0; 3602879701896397; 7205759403792794; 10808639105689192;
       14411518807585588; 18014398509481984; 21617278211378380;
       25220157913274776; 28823037615171172; 32425917317067568;
       36028797018963964; 39631676720860360]%Z.
Proof.
  assert (H0 : lambda_acumulado (arredonda_double 0.1) 0
               = IZR 0 * powerRZ 2 (- 55)).
  { cbn [lambda_acumulado]. lra. }
  assert (H1 : lambda_acumulado (arredonda_double 0.1) 1
               = IZR 3602879701896397 * powerRZ 2 (- 55)).
  { cbn [lambda_acumulado]. replace (0.0 + arredonda_double 0.1)
      with (arredonda_double 0.1) by lra.
    rewrite passo_decimo.
    apply (arredonda_double_exato 3602879701896397 55); [lia|].
    apply (diadico_abaixo 3602879701896397 55 53); lia. }
  assert (H2 : lambda_acumulado (arredonda_double 0.1) 2
               = IZR 7205759403792794 * powerRZ 2 (- 55)).
  { change (lambda_acumulado (arredonda_double 0.1) 2)
      with (arredonda_double (lambda_acumulado (arredonda_double 0.1) 1
                              + arredonda_double 0.1)).
    rewrite H1, passo_decimo, soma_diadica.
    change (3602879701896397 + 3602879701896397)%Z
      with 7205759403792794%Z.
    apply (arredonda_double_exato 7205759403792794 55); [lia|].
    apply (diadico_abaixo 7205759403792794 55 53); lia. }
  assert (Hs : forall j A B e,
             lambda_acumulado (arredonda_double 0.1) j
             = IZR A * powerRZ 2 (- 55) ->
             (-3 <= e <= 0)%Z ->
             (2 ^ (e + 55) <= A + 3602879701896397 < 2 ^ (e + 56))%Z ->
             B = (quociente_mais_proximo (A + 3602879701896397) (2 ^ (e + 3))
                  * 2 ^ (e + 3))%Z ->
             lambda_acumulado (arredonda_double 0.1) (S j)
             = IZR B * powerRZ 2 (- 55)).
  { intros j A B e Hj He HA HB. cbn [lambda_acumulado]. rewrite Hj.
    apply (soma_de_um_decimo A B e He HA HB). }
  pose proof (Hs _ _ 10808639105689192%Z (-2)%Z H2
                ltac:(lia) ltac:(lia) ltac:(reflexivity)) as H3.
  pose proof (Hs _ _ 14411518807585588%Z (-2)%Z H3
                ltac:(lia) ltac:(lia) ltac:(reflexivity)) as H4.
  pose proof (Hs _ _ 18014398509481984%Z (-1)%Z H4
                ltac:(lia) ltac:(lia) ltac:(reflexivity)) as H5.
  pose proof (Hs _ _ 21617278211378380%Z (-1)%Z H5
                ltac:(lia) ltac:(lia) ltac:(reflexivity)) as H6.
  pose proof (Hs _ _ 25220157913274776%Z (-1)%Z H6
                ltac:(lia) ltac:(lia) ltac:(reflexivity)) as H7.
  pose proof (Hs _ _ 28823037615171172%Z (-1)%Z H7
                ltac:(lia) ltac:(lia) ltac:(reflexivity)) as H8.
  pose proof (Hs _ _ 32425917317067568%Z (-1)%Z H8
                ltac:(lia) ltac:(lia) ltac:(reflexivity)) as H9.
  pose proof (Hs _ _ 36028797018963964%Z (-1)%Z H9
                ltac:(lia) ltac:(lia) ltac:(reflexivity)) as H10.
  pose proof (Hs _ _ 39631676720860360%Z 0%Z H10
                ltac:(lia) ltac:(lia) ltac:(reflexivity)) as H11.
  cbn [map seq].
  rewrite H0, H1, H2, H3, H4, H5, H6, H7, H8, H9, H10, H11. reflexivity.
Qed.

(** One turn of the loop of [integrar] that goes on, and the turn that
    ends it. *)
Lemma integrar_laco_volta (I : IntegradorGeodesico.t) (n : nat)
  (lambda_max : R) (limite : Z) (trajetoria : list PontoTrajetoria)
  (e : EstadoGeodesica.estado) (lambda : R) :
  lambda < lambda_max ->
  (Z.of_nat (List.length trajetoria) < limite)%Z ->
  IntegradorGeodesico.r_min_ I <= EstadoGeodesica.r e ->
  IntegradorGeodesico.integrar_laco I (S n) lambda_max limite trajetoria e
    lambda
  = IntegradorGeodesico.integrar_laco I n lambda_max limite
      (trajetoria ++ [ponto_do_estado e lambda])
      (IntegradorGeodesico.passo_rk4 I e)
      (arredonda_double (lambda + IntegradorGeodesico.passo_ I)).
Proof.
  intros Hl Ht Hr. cbn [IntegradorGeodesico.integrar_laco].
  destruct (Rltb lambda lambda_max) eqn:E1;
    [|apply Rltb_false in E1; contradiction].
  destruct (Z.ltb_spec (Z.of_nat (List.length trajetoria)) limite); [|lia].
  cbn [andb].
  destruct (Rltb (EstadoGeodesica.r e) (IntegradorGeodesico.r_min_ I)) eqn:E2;
    [apply Rltb_true in E2; lra|].
  reflexivity.
Qed.

Lemma integrar_laco_fim (I : IntegradorGeodesico.t) (n : nat)
  (lambda_max : R) (limite : Z) (trajetoria : list PontoTrajetoria)
  (e : EstadoGeodesica.estado) (lambda : R) :
  ~ lambda < lambda_max ->
  IntegradorGeodesico.integrar_laco I n lambda_max limite trajetoria e lambda
  = trajetoria.
Proof.
  intros Hl. destruct n; [reflexivity|].
  cbn [IntegradorGeodesico.integrar_laco].
  destruct (Rltb lambda lambda_max) eqn:E1;
    [apply Rltb_true in E1; contradiction | reflexivity].
Qed.

(** A state with no velocity is left where it is by the step. *)
Lemma passo_rk4_parado (I : IntegradorGeodesico.t)
  (e : EstadoGeodesica.estado) :
  EstadoGeodesica.u_t e = 0 -> EstadoGeodesica.u_r e = 0 ->
  EstadoGeodesica.u_theta e = 0 -> EstadoGeodesica.u_phi e = 0 ->
  IntegradorGeodesico.passo_rk4 I e = e.
Proof.
  intros Ht Hr Hth Hph.
  assert (H : forall j, In j [0; 1; 2; 3; 4; 5; 6; 7]%nat ->
            idx (EstadoGeodesica.como_array
                   (IntegradorGeodesico.passo_rk4 I e)) j
            = idx (EstadoGeodesica.como_array e) j).
  { apply passo_rk4_invariante.
    - intros j Hj. cbn in Hj. lia.
    - intros y Hy j Hj.
      pose proof (Hy 4%nat ltac:(cbn; tauto)) as H4.
      pose proof (Hy 5%nat ltac:(cbn; tauto)) as H5.
      pose proof (Hy 6%nat ltac:(cbn; tauto)) as H6.
      pose proof (Hy 7%nat ltac:(cbn; tauto)) as H7.
      change (idx (EstadoGeodesica.como_array e) 4)
        with (EstadoGeodesica.u_t e) in H4.
      change (idx (EstadoGeodesica.como_array e) 5)
        with (EstadoGeodesica.u_r e) in H5.
      change (idx (EstadoGeodesica.como_array e) 6)
        with (EstadoGeodesica.u_theta e) in H6.
      change (idx (EstadoGeodesica.como_array e) 7)
        with (EstadoGeodesica.u_phi e) in H7.
      rewrite Ht in H4. rewrite Hr in H5. rewrite Hth in H6.
      rewrite Hph in H7.
      unfold IntegradorGeodesico.derivs,
        MetricaSchwarzschild.derivadas_geodesica.
      cbn [pos_r pos_theta vel_u_t vel_u_r vel_u_theta vel_u_phi].
      rewrite H4, H5, H6, H7.
      destruct Hj as [<-|[<-|[<-|[<-|[<-|[<-|[<-|[<-|[]]]]]]]]];
        unfold idx at 1; cbn [nth]; ring. }
  rewrite <- (de_array_como_array (IntegradorGeodesico.passo_rk4 I e)).
  rewrite <- (de_array_como_array e) at 2.
  unfold EstadoGeodesica.de_array.
  rewrite !H by (cbn; tauto). reflexivity.
Qed.

(** For a state the step leaves where it is, the trajectory has one point
    for each accumulated parameter below [lambda_max]. *)
Lemma integrar_estado_fixo (I : IntegradorGeodesico.t)
  (e : EstadoGeodesica.estado) (lambda_max : R) (limite : Z) (n : nat) :
  IntegradorGeodesico.passo_rk4 I e = e ->
  IntegradorGeodesico.r_min_ I <= EstadoGeodesica.r e ->
  (forall j, (j < n)%nat ->
     lambda_acumulado (IntegradorGeodesico.passo_ I) j < lambda_max) ->
  ~ lambda_acumulado (IntegradorGeodesico.passo_ I) n < lambda_max ->
  (Z.of_nat n <= limite)%Z ->
  forall extra,
    IntegradorGeodesico.integrar_laco I (n + extra) lambda_max limite [] e 0.0
    = map (fun j =>
             ponto_do_estado e
               (lambda_acumulado (IntegradorGeodesico.passo_ I) j))
        (seq 0 n).
Proof.
  intros Hfixo Hr Hantes Hfim Hlim extra.
  assert (H : forall d k trajetoria,
            (k + d = n)%nat -> List.length trajetoria = k ->
            IntegradorGeodesico.integrar_laco I (d + extra) lambda_max limite
              trajetoria e
              (lambda_acumulado (IntegradorGeodesico.passo_ I) k)
            = trajetoria
              ++ map (fun j =>
                        ponto_do_estado e
                          (lambda_acumulado (IntegradorGeodesico.passo_ I) j))
                   (seq k d)).
  { induction d as [|d IH]; intros k trajetoria Hk Hlen.
    - replace k with n by lia.
      rewrite integrar_laco_fim by exact Hfim.
      cbn [seq map]. rewrite app_nil_r. reflexivity.
    - cbn [Nat.add].
      rewrite integrar_laco_volta;
        [|apply Hantes; lia | rewrite Hlen; lia | exact Hr].
      rewrite Hfixo.
      change (arredonda_double
                (lambda_acumulado (IntegradorGeodesico.passo_ I) k
                 + IntegradorGeodesico.passo_ I))
        with (lambda_acumulado (IntegradorGeodesico.passo_ I) (S k)).
      rewrite (IH (S k)); [|lia | rewrite length_app; cbn; lia].
      cbn [seq map]. rewrite <- app_assoc. reflexivity. }
  exact (H n 0%nat [] ltac:(lia) eq_refl).
Qed.

(** With the step [0.1] and [lambda_max = 1] the loop pushes eleven points:
    ten additions of the double [0.1] give [1 - 2^(-53)], which is still
    below 1. *)
Lemma integrar_onze_pontos :
  map ponto_lambda
    (IntegradorGeodesico.integrar integrador_decimo estado_parado 1 10000)
  = map (fun A => IZR A * powerRZ 2 (- 55))
      [0; 3602879701896397; 7205759403792794; 10808639105689192;
       14411518807585588; 18014398509481984; 21617278211378380;
       25220157913274776; 28823037615171172; 32425917317067568;
       36028797018963964]%Z
  /\ List.length
       (IntegradorGeodesico.integrar integrador_decimo estado_parado 1 10000)
     = 11%nat.
Proof.
  pose proof rs_tracer_padrao_cota as Hrs.
  pose proof lambda_acumulado_decimos as Hd.
  set (h := arredonda_double 0.1) in *.
  set (valores := map (fun A => IZR A * powerRZ 2 (- 55)) _) in Hd.
  assert (Hl : forall j, (j < 12)%nat ->
             lambda_acumulado h j = nth j valores (lambda_acumulado h 0)).
  { intros j Hj. rewrite <- Hd, map_nth, seq_nth by exact Hj.
    reflexivity. }
  assert (Hp : powerRZ 2 (- 55) = / 36028797018963968).
  { change (- 55)%Z with (Z.neg 55). rewrite potencia_negativa.
    reflexivity. }
  assert (Heq : IntegradorGeodesico.integrar integrador_decimo estado_parado
                  1 10000
                = map (fun j => ponto_do_estado estado_parado
                                  (lambda_acumulado h j))
                    (seq 0 11)).
  { unfold IntegradorGeodesico.integrar.
    change (IntegradorGeodesico.limite_de_pontos 10000) with 10000%Z.
    replace (Z.to_nat 10000) with (11 + Z.to_nat 9989)%nat by lia.
    apply (integrar_estado_fixo integrador_decimo estado_parado 1 10000 11).
    - apply passo_rk4_parado; reflexivity.
    - change (MetricaSchwarzschild.rs_ (RayTracer.metrica_ tracer_padrao)
              * 1.001 <= 100000).
      change (MetricaSchwarzschild.rs_ (RayTracer.metrica_ tracer_padrao))
        with (RayTracer.rs_ tracer_padrao).
      lra.
    - intros j Hj.
      change (IntegradorGeodesico.passo_ integrador_decimo) with h.
      rewrite (Hl j) by lia.
      do 11 (destruct j as [|j];
             [unfold valores; cbn [nth map]; rewrite Hp; lra|]).
      lia.
    - change (IntegradorGeodesico.passo_ integrador_decimo) with h.
      rewrite (Hl 11%nat) by lia.
      unfold valores; cbn [nth map]. rewrite Hp. lra.
    - lia. }
  rewrite Heq. split; [|reflexivity].
  rewrite map_map.
  apply (f_equal (firstn 11)) in Hd.
  exact Hd.
Qed.

End SomaDeDecimos.
